(** * FootyValue: the Monte Carlo estimator and the value filter of [server.ts]

    A shallow embedding of [poisson], [simulateMatch] and the
    [GET /api/analysis] handler of [src/server.ts], with the properties the
    specification states about them.

    Number model.  TypeScript's [number] is an IEEE 754 double.  Finite values
    are modelled as exact rationals ([Q]): rounding, overflow and underflow are
    abstracted away.  Where the handler divides, the special values matter, so
    the handler's arithmetic runs on [JS.number], the rationals extended with
    [Infinity], [-Infinity] and [NaN] and the IEEE rules for them.  Where a
    property depends on rounding, the arithmetic of the handler runs on
    doubles themselves (module [Double]), at every probability the simulator
    can return; where it depends on underflow, the sampler is restricted to
    thresholds that are normal doubles.

    [Math.random] is the process-wide generator: it is modelled as an infinite
    stream of draws ([nat -> Q]) read through a cursor that every call
    advances; the cursor is the generator's state and is threaded through all
    the code.  [Math.exp] is a parameter of the model.

    The [do ... while] loop of [poisson] need not terminate on an arbitrary
    stream, so it carries fuel: [None] stands for a loop that has not exited
    within the fuel. *)

From Stdlib Require Import ZArith QArith Qround Arith Lia Lqa List Bool String.
From Stdlib Require Import Permutation Sorted.
From Stdlib Require PrimFloat Uint63.
Import ListNotations.

Local Open Scope Q_scope.

(** ** JavaScript numbers *)

Module JS.

Inductive number : Type :=
| Fin (q : Q)
| PosInf
| NegInf
| NaN.

(** [x < y] on finite numbers, as a boolean. *)
Definition Qltb (x y : Q) : bool := negb (Qle_bool y x).

(** The sign rule shared by [Infinity * x] and [x / 0]: the result is
    [+Infinity] for a positive [a], [-Infinity] for a negative one, [NaN]
    for zero. *)
Definition signed_inf (a : Q) : number :=
  if Qltb 0 a then PosInf else if Qltb a 0 then NegInf else NaN.

Definition neg (x : number) : number :=
  match x with
  | Fin q => Fin (- q)
  | PosInf => NegInf
  | NegInf => PosInf
  | NaN => NaN
  end.

(** [x * y]. *)
Definition mul (x y : number) : number :=
  match x, y with
  | NaN, _ | _, NaN => NaN
  | Fin a, Fin b => Fin (a * b)
  | Fin a, PosInf | PosInf, Fin a => signed_inf a
  | Fin a, NegInf | NegInf, Fin a => neg (signed_inf a)
  | PosInf, PosInf | NegInf, NegInf => PosInf
  | PosInf, NegInf | NegInf, PosInf => NegInf
  end.

(** [x / y].  A zero divisor is [+0]: the only zero the handler divides by
    is [0 / iterations * 0.8], which is positive zero. *)
Definition div (x y : number) : number :=
  match x, y with
  | NaN, _ | _, NaN => NaN
  | Fin a, Fin b => if Qeq_bool b 0 then signed_inf a else Fin (a / b)
  | Fin _, PosInf | Fin _, NegInf => Fin 0
  | PosInf, Fin b => if Qltb b 0 then NegInf else PosInf
  | NegInf, Fin b => if Qltb b 0 then PosInf else NegInf
  | PosInf, PosInf | PosInf, NegInf | NegInf, PosInf | NegInf, NegInf => NaN
  end.

(** [x - y]. *)
Definition sub (x y : number) : number :=
  match x, y with
  | NaN, _ | _, NaN => NaN
  | Fin a, Fin b => Fin (a - b)
  | Fin _, PosInf => NegInf
  | Fin _, NegInf => PosInf
  | PosInf, Fin _ | PosInf, NegInf => PosInf
  | NegInf, Fin _ | NegInf, PosInf => NegInf
  | PosInf, PosInf | NegInf, NegInf => NaN
  end.

(** [x > y]: false as soon as one side is [NaN]. *)
Definition gt (x y : number) : bool :=
  match x, y with
  | NaN, _ | _, NaN => false
  | Fin a, Fin b => Qltb b a
  | PosInf, PosInf => false
  | PosInf, _ => true
  | NegInf, _ => false
  | Fin _, NegInf => true
  | Fin _, PosInf => false
  end.

(** [Number.isFinite]. *)
Definition is_finite (x : number) : bool :=
  match x with
  | Fin _ => true
  | _ => false
  end.

(** Equality of numbers up to the representation of the rational. *)
Definition same (x y : number) : Prop :=
  match x, y with
  | Fin a, Fin b => a == b
  | PosInf, PosInf | NegInf, NegInf | NaN, NaN => True
  | _, _ => False
  end.

End JS.

(** ** The global generator *)

Module Rng.

(** The draws [Math.random] will return, in order. *)
Definition stream : Type := nat -> Q.

(** The generator's state: how many draws have been taken. *)
Definition cursor : Type := nat.

(** A computation that reads the generator: it gets the stream and the
    cursor, and returns a value with the new cursor, or [None] when a loop
    ran out of fuel. *)
Definition M (A : Type) : Type := stream -> cursor -> option (A * cursor).

Definition ret {A : Type} (a : A) : M A := fun _ s => Some (a, s).

Definition bind {A B : Type} (m : M A) (f : A -> M B) : M B :=
  fun u s =>
    match m u s with
    | Some (a, s') => f a u s'
    | None => None
    end.

(** [Math.random()]. *)
Definition random : M Q := fun u s => Some (u s, S s).

(** [xs.map(f)] for an [f] that reads the generator: left to right. *)
Fixpoint mapM {A B : Type} (f : A -> M B) (xs : list A) : M (list B) :=
  match xs with
  | [] => ret []
  | x :: xs' =>
      bind (f x) (fun y => bind (mapM f xs') (fun ys => ret (y :: ys)))
  end.

End Rng.

Declare Scope rng_scope.
Delimit Scope rng_scope with rng.
Notation "x <- m ;; k" := (Rng.bind m (fun x => k))
  (at level 61, m at next level, right associativity) : rng_scope.

Import Rng.

(** ** Statistical utilities and the simulator ([server.ts], lines 59-112) *)

Section Simulator.

(** [Math.exp]. *)
Variable exp : Q -> Q.

(** The loop bound of every [do ... while] of [poisson]. *)
Variable fuel : nat.

Local Open Scope rng_scope.

(** The [do { k++; p *= Math.random(); } while (p > L)] loop of [poisson],
    entered with the current [p] and [k]; on exit it returns [k - 1]. *)
Fixpoint poisson_loop (n : nat) (L p : Q) (k : nat) : M nat :=
  match n with
  | O => fun _ _ => None
  | S n' =>
      let k := S k in
      r <- random ;;
      let p := p * r in
      if JS.Qltb L p then poisson_loop n' L p k else ret (k - 1)%nat
  end.

(** [function poisson(lambda)]. *)
Definition poisson (lambda : Q) : M nat :=
  let L := exp (- lambda) in
  poisson_loop fuel L 1 0%nat.

(** A count as a [number]. *)
Definition of_nat (n : nat) : Q := inject_Z (Z.of_nat n).

(** The body of the [for] loop of [simulateMatch]: the six draws of one
    iteration and the test that guards [successCount++]. *)
Definition iteration (homeExpG awayExpG homeExpC awayExpC : Q)
    (isTeamYHome : bool) : M bool :=
  h1_home <- poisson (homeExpG * 0.45) ;;
  h1_away <- poisson (awayExpG * 0.45) ;;
  h2_home <- poisson (homeExpG * 0.55) ;;
  h2_away <- poisson (awayExpG * 0.55) ;;
  c_home <- poisson homeExpC ;;
  c_away <- poisson awayExpC ;;
  let corners := (c_home + c_away)%nat in
  let u35_h1 := JS.Qltb (of_nat (h1_home + h1_away)) 3.5 in
  let u35_h2 := JS.Qltb (of_nat (h2_home + h2_away)) 3.5 in
  let teamYWinsHalf :=
    if isTeamYHome
    then (h1_away <? h1_home)%nat || (h2_away <? h2_home)%nat
    else (h1_home <? h1_away)%nat || (h2_home <? h2_away)%nat in
  let o55_corners := JS.Qltb 5.5 (of_nat corners) in
  ret (u35_h1 && u35_h2 && teamYWinsHalf && o55_corners).

(** [for (let i = 0; i < iterations; i++) { ... }] with [n] iterations
    left and the current [successCount]. *)
Fixpoint simulate_loop (homeExpG awayExpG homeExpC awayExpC : Q)
    (isTeamYHome : bool) (n : nat) (successCount : nat) : M nat :=
  match n with
  | O => ret successCount
  | S n' =>
      ok <- iteration homeExpG awayExpG homeExpC awayExpC isTeamYHome ;;
      simulate_loop homeExpG awayExpG homeExpC awayExpC isTeamYHome n'
        (if ok then S successCount else successCount)
  end.

(** [function simulateMatch(homeExpG, awayExpG, homeExpC, awayExpC,
    isTeamYHome, iterations)].  The iteration count is a natural number;
    the result [successCount / iterations] is finite for a positive one
    (for [iterations = 0] the source returns [0 / 0], which is [NaN], and
    the model's value is not meaningful). *)
Definition simulateMatch (homeExpG awayExpG homeExpC awayExpC : Q)
    (isTeamYHome : bool) (iterations : nat) : M Q :=
  successCount <-
    simulate_loop homeExpG awayExpG homeExpC awayExpC isTeamYHome
      iterations 0%nat ;;
  ret (of_nat successCount / of_nat iterations).

(** The default of the [iterations] parameter. *)
Definition default_iterations : nat := Z.to_nat 20000.

(** ** The analysis handler ([server.ts], lines 169-231) *)

(** A row of the [matches] query. *)
Record match_row : Type := {
  row_id : Z;
  home_name : string;
  away_name : string;
  league_name : string;
  utc_date : string
}.

Inductive confidence_tier : Type := High | Medium.

(** The object the [map] callback returns. *)
Record analysis : Type := {
  id : Z;
  homeTeam : string;
  awayTeam : string;
  league : string;
  date : string;
  probModel : JS.number;
  oddAvg : JS.number;
  bestOdd : JS.number;
  probImplied : JS.number;
  edge : JS.number;
  ev : JS.number;
  confidence : confidence_tier;
  isTeamYHome : bool
}.

(** Lines 199-220: the mock odds, the edge, the expected value and the
    returned object, from the selected probability. *)
Definition build_analysis (m : match_row) (probModel : Q)
    (isHomeBetter : bool) : analysis :=
  let probModel := JS.Fin probModel in
  let oddAvg := JS.div (JS.Fin 1) (JS.mul probModel (JS.Fin 0.8)) in
  let bestOdd := JS.mul oddAvg (JS.Fin 1.1) in
  let probImplied := JS.div (JS.Fin 1) bestOdd in
  let edge := JS.sub probModel probImplied in
  let ev := JS.sub (JS.mul probModel bestOdd) (JS.Fin 1) in
  {| id := row_id m;
     homeTeam := home_name m;
     awayTeam := away_name m;
     league := league_name m;
     date := utc_date m;
     probModel := probModel;
     oddAvg := oddAvg;
     bestOdd := bestOdd;
     probImplied := probImplied;
     edge := edge;
     ev := ev;
     confidence := if JS.gt probModel (JS.Fin 0.15) then High else Medium;
     isTeamYHome := isHomeBetter |}.

(** The callback of [matches.map] (lines 181-221). *)
Definition analyzeMatch (m : match_row) : M analysis :=
  r1 <- random ;;
  let homeExpG := 1.2 + r1 * 0.8 in
  r2 <- random ;;
  let awayExpG := 1.0 + r2 * 0.8 in
  r3 <- random ;;
  let homeExpC := 4.5 + r3 * 2 in
  r4 <- random ;;
  let awayExpC := 4.0 + r4 * 2 in
  probHomeY <-
    simulateMatch homeExpG awayExpG homeExpC awayExpC true
      default_iterations ;;
  probAwayY <-
    simulateMatch homeExpG awayExpG homeExpC awayExpC false
      default_iterations ;;
  let isHomeBetter := Qle_bool probAwayY probHomeY in
  let probModel := if isHomeBetter then probHomeY else probAwayY in
  ret (build_analysis m probModel isHomeBetter).

(** [analyzedMatches.filter(m => m.ev > 0).slice(0, 50)] (line 224). *)
Definition positive_ev (a : analysis) : bool := JS.gt (ev a) (JS.Fin 0).

Definition filtered (analyzedMatches : list analysis) : list analysis :=
  firstn 50 (filter positive_ev analyzedMatches).

(** The handler's [try] block, from the rows of the query to the array it
    sends. *)
Definition analysis_handler (matches : list match_row) : M (list analysis) :=
  analyzedMatches <- mapM analyzeMatch matches ;;
  ret (filtered analyzedMatches).

End Simulator.

(** A rational stand-in for [Math.exp], to run the model on concrete input:
    the Taylor polynomial of degree 16 of the exponential, in Horner form,
    for a non-negative argument, and its reciprocal for a negative one.  It
    is positive, at least 1 on non-negative arguments, and close to the
    exponential on [[-6.5, 6.5]], where the rates of the handler lie (it is
    0.0055167 at -5.2 and 0.0015041 at -6.5). *)
Fixpoint taylor (k n : nat) (x : Q) : Q :=
  match n with
  | O => 1
  | S n' => 1 + x / of_nat k * taylor (S k) n' x
  end.

Definition exp_approx (x : Q) : Q :=
  if Qle_bool 0 x then taylor 1 16 x else / taylor 1 16 (- x).

(** ** Specification-side definitions *)

(** The orientation of the specification; the code passes it as the boolean
    [isTeamYHome]. *)
Inductive Orientation : Type := DesignatedIsHome | DesignatedIsAway.

Definition orientation_flag (o : Orientation) : bool :=
  match o with
  | DesignatedIsHome => true
  | DesignatedIsAway => false
  end.

(** The counts drawn in one iteration. *)
Record iteration_draws : Type := {
  h1_home : nat;
  h1_away : nat;
  h2_home : nat;
  h2_away : nat;
  corners_home : nat;
  corners_away : nat
}.

(** The success condition of the specification (section 4.2, steps 4 and 5),
    in its words: both halves strictly under 3.5 goals, the designated team
    strictly ahead in at least one half, strictly more than 5.5 corners. *)
Definition success_spec (o : Orientation) (d : iteration_draws) : Prop :=
  of_nat (h1_home d + h1_away d) < 3.5 /\
  of_nat (h2_home d + h2_away d) < 3.5 /\
  match o with
  | DesignatedIsHome =>
      (h1_home d > h1_away d)%nat \/ (h2_home d > h2_away d)%nat
  | DesignatedIsAway =>
      (h1_away d > h1_home d)%nat \/ (h2_away d > h2_home d)%nat
  end /\
  5.5 < of_nat (corners_home d + corners_away d).

(** The same condition as a test, to count with. *)
Definition success_specb (o : Orientation) (d : iteration_draws) : bool :=
  (h1_home d + h1_away d <=? 3)%nat &&
  (h2_home d + h2_away d <=? 3)%nat &&
  match o with
  | DesignatedIsHome =>
      (h1_away d <? h1_home d)%nat || (h2_away d <? h2_home d)%nat
  | DesignatedIsAway =>
      (h1_home d <? h1_away d)%nat || (h2_home d <? h2_away d)%nat
  end &&
  (6 <=? corners_home d + corners_away d)%nat.

(** The [SimulationResult] of the specification (section 3). *)
Record SimulationResult : Type := {
  probability : Q;
  iterationCount : nat
}.

Section SpecSimulator.

Variable exp : Q -> Q.
Variable fuel : nat.

Local Open Scope rng_scope.

(** The sampler of the specification (section 4.1), in its words: multiply
    an accumulator by a uniform draw until it falls at or below the
    threshold, counting the multiplications. *)
Fixpoint multiply_until (n : nat) (L accumulator : Q) (multiplications : nat)
    : M nat :=
  match n with
  | O => fun _ _ => None
  | S n' =>
      r <- random ;;
      let accumulator := accumulator * r in
      let multiplications := S multiplications in
      if Qle_bool accumulator L
      then ret multiplications
      else multiply_until n' L accumulator multiplications
  end.

(** The threshold is [e^(- lambda)]; the value returned is the number of
    multiplications minus one. *)
Definition poisson_spec (lambda : Q) : M nat :=
  multiplications <- multiply_until fuel (exp (- lambda)) 1 0%nat ;;
  ret (multiplications - 1)%nat.

(** Steps 1 to 3 of the specification: the six Poisson draws of an
    iteration, goals at 0.45 and 0.55 of each side's expected goals,
    corners at each side's expected corners. *)
Definition draw_iteration (homeExpG awayExpG homeExpC awayExpC : Q)
    : M iteration_draws :=
  a <- poisson_spec (homeExpG * 0.45) ;;
  b <- poisson_spec (awayExpG * 0.45) ;;
  c <- poisson_spec (homeExpG * 0.55) ;;
  d <- poisson_spec (awayExpG * 0.55) ;;
  e <- poisson_spec homeExpC ;;
  f <- poisson_spec awayExpC ;;
  ret {| h1_home := a; h1_away := b; h2_home := c; h2_away := d;
         corners_home := e; corners_away := f |}.

(** The draws of [n] successive iterations. *)
Fixpoint draw_iterations (homeExpG awayExpG homeExpC awayExpC : Q)
    (n : nat) : M (list iteration_draws) :=
  match n with
  | O => ret []
  | S n' =>
      d <- draw_iteration homeExpG awayExpG homeExpC awayExpC ;;
      ds <- draw_iterations homeExpG awayExpG homeExpC awayExpC n' ;;
      ret (d :: ds)
  end.

(** [simulate] as the specification describes it: it returns a
    [SimulationResult], the share of the iterations that succeed alongside
    the iteration count used. *)
Definition simulate_spec (homeExpG awayExpG homeExpC awayExpC : Q)
    (o : Orientation) (iterations : nat) : M SimulationResult :=
  ds <- draw_iterations homeExpG awayExpG homeExpC awayExpC iterations ;;
  ret {| probability :=
           of_nat (List.length (filter (success_specb o) ds))
           / of_nat iterations;
         iterationCount := iterations |}.

End SpecSimulator.

(** The product the accumulator [p] holds after [j] more draws. *)
Fixpoint accumulate (p : Q) (u : stream) (s : cursor) (j : nat) : Q :=
  match j with
  | O => p
  | S j' => accumulate (p * u s) u (S s) j'
  end.

(** The draws [Math.random] can return lie in [[0, c]]: the largest double
    below 1 is [1 - 2^-53], so [c] is strictly below 1. *)
Definition uniform_draws (c : Q) (u : stream) : Prop :=
  forall i, 0 <= u i /\ u i <= c.

(** Fuel that lets [poisson lambda] exit on draws bounded by [c]. *)
Definition sufficient (exp : Q -> Q) (c : Q) (fuel : nat) (lambda : Q)
    : Prop :=
  (0 < fuel)%nat /\
  1 <= exp (- lambda) * (1 + of_nat (fuel - 1) * (1 - c)).

(** A stream of zeros, and a stream that is constantly one half. *)
Definition zeros : stream := fun _ => 0.
Definition halves : stream := fun _ => 1 # 2.

(** Two streams give the same [n] draws, the first from cursor [s], the
    second from cursor [t]. *)
Definition same_draws (u u' : stream) (s t : cursor) (n : nat) : Prop :=
  forall i, (i < n)%nat -> u' (t + i)%nat = u (s + i)%nat.

(** The fuel that [sufficient] asks for, computed: one more than the ceiling
    of [1 / (exp (- lambda) * (1 - c))]. *)
Definition fuel_for (exp : Q -> Q) (c lambda : Q) : nat :=
  S (Z.to_nat (Qceiling (/ (exp (- lambda) * (1 - c))))).

(** The six rates at which an iteration of [simulateMatch] samples. *)
Definition rates (homeExpG awayExpG homeExpC awayExpC : Q) : list Q :=
  [homeExpG * 0.45; awayExpG * 0.45; homeExpG * 0.55; awayExpG * 0.55;
   homeExpC; awayExpC].

(** Fuel for every rate of a list. *)
Definition fuel_for_all (exp : Q -> Q) (c : Q) (ls : list Q) : nat :=
  fold_right (fun l f => Nat.max (fuel_for exp c l) f) 1%nat ls.

(** A computation whose result depends on the generator only through the
    draws it consumes: replayed on any stream that serves the same draws,
    from any cursor, it returns the same value after as many draws. *)
Definition replayable {A : Type} (m : M A) : Prop :=
  forall u s a s',
    m u s = Some (a, s') ->
    (s <= s')%nat /\
    forall u' t,
      same_draws u u' s t (s' - s) ->
      m u' t = Some (a, (t + (s' - s))%nat).

(** [l1] is [l2] with some elements removed, the others in their order. *)
Inductive subsequence {A : Type} : list A -> list A -> Prop :=
| subsequence_nil : subsequence [] []
| subsequence_skip x l1 l2 : subsequence l1 l2 -> subsequence l1 (x :: l2)
| subsequence_keep x l1 l2 :
    subsequence l1 l2 -> subsequence (x :: l1) (x :: l2).

(** A row and two streams to run the model on. *)
Definition sample_row : match_row :=
  {| row_id := 1; home_name := "Home"; away_name := "Away";
     league_name := "League"; utc_date := "2026-01-01T00:00:00Z" |}.

(** Thirteen draws that make the first iteration of [simulateMatch 1.5 1.1
    5.2 4.6 true] succeed (one home goal in the first half, six corners),
    followed by zeros. *)
Definition one_success_then_zeros : stream :=
  fun n =>
    match n with
    | 0%nat => 99 # 100
    | 5%nat | 6%nat | 7%nat | 8%nat | 9%nat | 10%nat => 9 # 10
    | _ => 0
    end.

(** An analysed match with a given expected value, the other fields being
    those of [sample_row] at probability one fifth. *)
Definition with_ev (v : Q) : analysis :=
  let r := build_analysis sample_row (1 # 5) true in
  {| id := id r; homeTeam := homeTeam r; awayTeam := awayTeam r;
     league := league r; date := date r; probModel := probModel r;
     oddAvg := oddAvg r; bestOdd := bestOdd r; probImplied := probImplied r;
     edge := edge r; ev := JS.Fin v; confidence := confidence r;
     isTeamYHome := isTeamYHome r |}.

(** A computation indexed by its fuel that keeps its result when it is
    given more fuel. *)
Definition fuel_monotone {A : Type} (m : nat -> M A) : Prop :=
  forall fuel fuel' u s r,
    m fuel u s = Some r -> (fuel <= fuel')%nat -> m fuel' u s = Some r.

(** ** The database and the synchronisation ([server.ts], lines 13-56 and
    115-161)

    A table with an [INTEGER PRIMARY KEY] is a partial map from the key to
    the other columns.  The [odds] table is never read or written by the
    code and is left out.  The payloads of the two HTTP requests are inputs;
    a request that throws is [None].  In this module every id of a payload
    is an integer SQLite takes as a key and statements are taken to succeed;
    the module [Sqlite] after it has the ids and the statements without
    these two assumptions. *)

Module Store.

Definition table (R : Type) : Type := Z -> option R.

Definition empty {R : Type} : table R := fun _ => None.

(** [INSERT OR REPLACE INTO t (id, ...) VALUES (key, ...)]: a row with this
    key is deleted, then the new row is inserted. *)
Definition insert_or_replace {R : Type} (key : Z) (row : R) (t : table R)
    : table R :=
  fun k => if (k =? key)%Z then Some row else t k.

(** [INSERT OR IGNORE INTO t (id, ...) VALUES (key, ...)]: when a row with
    this key exists the statement does nothing. *)
Definition insert_or_ignore {R : Type} (key : Z) (row : R) (t : table R)
    : table R :=
  fun k =>
    if (k =? key)%Z
    then match t k with
         | Some old => Some old
         | None => Some row
         end
    else t k.

(** The columns of [leagues], [teams] and [matches] beside [id]. *)
Record league : Type := {
  name : string;
  code : string
}.

Record team : Type := {
  team_name : string;
  team_league_id : Z
}.

Record stored_match : Type := {
  stored_utc_date : string;
  status : string;
  league_id : Z;
  home_team_id : Z;
  away_team_id : Z;
  home_score_full : option Z;
  away_score_full : option Z;
  home_score_h1 : option Z;
  away_score_h1 : option Z;
  home_score_h2 : option Z;
  away_score_h2 : option Z;
  corners : option Z
}.

Record db : Type := {
  leagues : table league;
  teams : table team;
  matches : table stored_match
}.

(** An element of [response.data.competitions]. *)
Record competition : Type := {
  competition_id : Z;
  competition_name : string;
  competition_code : string
}.

(** An element of [response.data.matches]. *)
Record api_team : Type := {
  api_team_id : Z;
  api_team_name : string
}.

Record api_match : Type := {
  api_id : Z;
  utcDate : string;
  api_status : string;
  api_competition_id : Z;
  homeTeam : api_team;
  awayTeam : api_team
}.

(** [stmt.run(c.id, c.name, c.code)] of [syncLeagues]. *)
Definition store_league (d : db) (c : competition) : db :=
  {| leagues :=
       insert_or_replace (competition_id c)
         {| name := competition_name c; code := competition_code c |}
         (leagues d);
     teams := teams d;
     matches := matches d |}.

(** [async function syncLeagues()]: the rows are written one by one, in the
    order of the response; a failed request is caught and changes nothing. *)
Definition syncLeagues (response : option (list competition)) (d : db)
    : db :=
  match response with
  | Some competitions => fold_left store_league competitions d
  | None => d
  end.

(** [stmtTeam.run(t.id, t.name, m.competition.id)]. *)
Definition store_team (competition : Z) (d : db) (t : api_team) : db :=
  {| leagues := leagues d;
     teams :=
       insert_or_ignore (api_team_id t)
         {| team_name := api_team_name t; team_league_id := competition |}
         (teams d);
     matches := matches d |}.

(** [stmtMatch.run(m.id, m.utcDate, m.status, m.competition.id,
    m.homeTeam.id, m.awayTeam.id)]: the seven columns the statement does not
    name take their default, [NULL]. *)
Definition store_match (d : db) (m : api_match) : db :=
  {| leagues := leagues d;
     teams := teams d;
     matches :=
       insert_or_replace (api_id m)
         {| stored_utc_date := utcDate m;
            status := api_status m;
            league_id := api_competition_id m;
            home_team_id := api_team_id (homeTeam m);
            away_team_id := api_team_id (awayTeam m);
            home_score_full := None;
            away_score_full := None;
            home_score_h1 := None;
            away_score_h1 := None;
            home_score_h2 := None;
            away_score_h2 := None;
            corners := None |}
         (matches d) |}.

(** The body of the [for] loop inside the transaction of [syncFixtures]. *)
Definition store_fixture (d : db) (m : api_match) : db :=
  let d1 := store_team (api_competition_id m) d (homeTeam m) in
  let d2 := store_team (api_competition_id m) d1 (awayTeam m) in
  store_match d2 m.

(** [async function syncFixtures()]. *)
Definition syncFixtures (response : option (list api_match)) (d : db) : db :=
  match response with
  | Some fixtures => fold_left store_fixture fixtures d
  | None => d
  end.

(** The [POST /api/sync] handler: leagues, then fixtures. *)
Definition sync (competitions : option (list competition))
    (fixtures : option (list api_match)) (d : db) : db :=
  syncFixtures fixtures (syncLeagues competitions d).

(** The [WHERE] clause of the query of the analysis handler. *)
Definition upcoming (m : stored_match) : bool :=
  String.eqb (status m) "TIMED" || String.eqb (status m) "SCHEDULED".

(** The row the query of the analysis handler returns for a match id
    (lines 171-179): the match must be upcoming and the three inner joins
    must find its home team, its away team and its league. *)
Definition analysis_row (d : db) (match_id : Z) : option match_row :=
  match matches d match_id with
  | Some m =>
      if upcoming m
      then match teams d (home_team_id m), teams d (away_team_id m),
                 leagues d (league_id m) with
           | Some h, Some a, Some l =>
               Some {| row_id := match_id;
                       home_name := team_name h;
                       away_name := team_name a;
                       league_name := name l;
                       utc_date := stored_utc_date m |}
           | _, _, _ => None
           end
      else None
  | None => None
  end.

(** Two databases with the same rows. *)
Definition same_rows (d1 d2 : db) : Prop :=
  (forall k, leagues d1 k = leagues d2 k) /\
  (forall k, teams d1 k = teams d2 k) /\
  (forall k, matches d1 k = matches d2 k).

(** The last element of a list with a given key. *)
Fixpoint last_with {X : Type} (key_of : X -> Z) (key : Z) (xs : list X)
    : option X :=
  match xs with
  | [] => None
  | x :: xs' =>
      match last_with key_of key xs' with
      | Some y => Some y
      | None => if (key_of x =? key)%Z then Some x else None
      end
  end.

(** The teams a response mentions, each with the competition of its
    fixture: home before away, in the order of the response. *)
Definition mentions (fixtures : list api_match) : list (api_team * Z) :=
  flat_map
    (fun m => [(homeTeam m, api_competition_id m);
               (awayTeam m, api_competition_id m)])
    fixtures.

(** The row [store_team] writes, and the row [store_match] writes. *)
Definition team_row (mention : api_team * Z) : team :=
  {| team_name := api_team_name (fst mention);
     team_league_id := snd mention |}.

Definition match_row_of (m : api_match) : stored_match :=
  {| stored_utc_date := utcDate m;
     status := api_status m;
     league_id := api_competition_id m;
     home_team_id := api_team_id (homeTeam m);
     away_team_id := api_team_id (awayTeam m);
     home_score_full := None;
     away_score_full := None;
     home_score_h1 := None;
     away_score_h1 := None;
     home_score_h2 := None;
     away_score_h2 := None;
     corners := None |}.

Definition league_row (c : competition) : league :=
  {| name := competition_name c; code := competition_code c |}.

(** A database with no rows, and two small responses to run the model on:
    two competitions, and two fixtures of the first one, the second of which
    is finished. *)
Definition no_rows : db :=
  {| leagues := empty; teams := empty; matches := empty |}.

Definition sample_competitions : list competition :=
  [{| competition_id := 2021; competition_name := "Premier League";
      competition_code := "PL" |};
   {| competition_id := 2014; competition_name := "Primera Division";
      competition_code := "PD" |}].

Definition fixture_501 : api_match :=
  {| api_id := 501; utcDate := "2026-01-10T15:00:00Z";
     api_status := "TIMED"; api_competition_id := 2021;
     homeTeam := {| api_team_id := 57; api_team_name := "Arsenal FC" |};
     awayTeam := {| api_team_id := 61; api_team_name := "Chelsea FC" |} |}.

Definition fixture_502 : api_match :=
  {| api_id := 502; utcDate := "2026-01-03T15:00:00Z";
     api_status := "FINISHED"; api_competition_id := 2021;
     homeTeam := {| api_team_id := 61; api_team_name := "Chelsea" |};
     awayTeam := {| api_team_id := 65; api_team_name := "Man City" |} |}.

Definition sample_fixtures : list api_match := [fixture_501; fixture_502].

End Store.

(** ** The statements as SQLite runs them

    The same three tables and the same two functions, without the two
    assumptions of [Store]: a value the API sends for an id may be [null],
    or may be no 64-bit integer, and [stmt.run] may throw.  A [null] bound
    to an [INTEGER PRIMARY KEY] makes SQLite assign the key; a value that is
    no 64-bit integer makes the statement throw (datatype mismatch), and so
    does an argument the driver cannot bind.  In [syncLeagues] the throw
    leaves the loop and the rows written before it stay; in [syncFixtures]
    it leaves the transaction, which is rolled back. *)

Module Sqlite.

Local Open Scope Z_scope.

Definition in_int64 (z : Z) : bool :=
  (- 2 ^ 63 <=? z) && (z <=? 2 ^ 63 - 1).

(** A value as SQLite reads it when it is bound to a column of [INTEGER]
    affinity: [NULL]; the 64-bit integer [z] (SQLite reads it in a number
    with an integral value strictly between [-2^63] and [2^63], and in a
    text that spells a 64-bit integer); or a value it reads no integer in (a
    number with a fraction or beyond that range, another text), which such
    a column keeps as it is and a primary key refuses.  An [Integer z] with
    [z] outside the 64-bit range is read as no integer either. *)
Inductive integer_value : Type :=
| Null
| Integer (z : Z)
| NotInteger (text : string).

(** A value as a [TEXT] column takes it: [NULL] or a text. *)
Definition text_value : Type := option string.

(** An argument of [stmt.run]: [None] is an argument that cannot be
    evaluated or that the driver cannot bind (an object, a boolean); the
    call throws a [TypeError]. *)
Definition argument (A : Type) : Type := option A.

(** A table with an [INTEGER PRIMARY KEY]: its rows, each under its key. *)
Definition table (R : Type) : Type := list (Z * R).

Definition keys {R : Type} (t : table R) : list Z := map fst t.

Definition lookup {R : Type} (t : table R) (key : Z) : option R :=
  option_map snd (find (fun r => fst r =? key) t).

Definition delete {R : Type} (key : Z) (t : table R) : table R :=
  filter (fun r => negb (fst r =? key)) t.

(** The key of the statement, when the argument gives one. *)
Definition explicit_key (key : argument integer_value) : option Z :=
  match key with
  | Some (Integer z) => if in_int64 z then Some z else None
  | _ => None
  end.

(** The statement throws whatever the table holds. *)
Definition refused_key (key : argument integer_value) : bool :=
  match key with
  | None => true
  | Some Null => false
  | Some (Integer z) => negb (in_int64 z)
  | Some (NotInteger _) => true
  end.

Definition is_key (key : argument integer_value) (k : Z) : bool :=
  match explicit_key key with
  | Some z => z =? k
  | None => false
  end.

(** What a join on [column = t.id] finds. *)
Definition join {R : Type} (t : table R) (column : integer_value)
    : option R :=
  match column with
  | Integer z => if in_int64 z then lookup t z else None
  | _ => None
  end.

Inductive conflict : Type := Replace | Ignore.

(** The columns of [leagues], [teams] and [matches] beside [id]. *)
Record league : Type := {
  name : text_value;
  code : text_value
}.

Record team : Type := {
  team_name : text_value;
  team_league_id : integer_value
}.

Record stored_match : Type := {
  stored_utc_date : text_value;
  status : text_value;
  league_id : integer_value;
  home_team_id : integer_value;
  away_team_id : integer_value;
  home_score_full : option Z;
  away_score_full : option Z;
  home_score_h1 : option Z;
  away_score_h1 : option Z;
  home_score_h2 : option Z;
  away_score_h2 : option Z;
  corners : option Z
}.

Record db : Type := {
  leagues : table league;
  teams : table team;
  matches : table stored_match
}.

(** An element of [response.data.competitions], as the arguments
    [c.id, c.name, c.code] of the statement. *)
Record competition : Type := {
  competition_id : argument integer_value;
  competition_name : argument text_value;
  competition_code : argument text_value
}.

(** An element of [response.data.matches], as the arguments of the three
    statements. *)
Record api_team : Type := {
  api_team_id : argument integer_value;
  api_team_name : argument text_value
}.

Record api_match : Type := {
  api_id : argument integer_value;
  utcDate : argument text_value;
  api_status : argument text_value;
  api_competition_id : argument integer_value;
  homeTeam : api_team;
  awayTeam : api_team
}.

(** The rows the three statements write; [None] when an argument cannot be
    bound. *)
Definition league_row (c : competition) : option league :=
  match competition_name c, competition_code c with
  | Some name, Some code => Some {| name := name; code := code |}
  | _, _ => None
  end.

Definition team_row (mention : api_team * argument integer_value)
    : option team :=
  match api_team_name (fst mention), snd mention with
  | Some name, Some competition =>
      Some {| team_name := name; team_league_id := competition |}
  | _, _ => None
  end.

Definition match_row_of (m : api_match) : option stored_match :=
  match utcDate m, api_status m, api_competition_id m,
        api_team_id (homeTeam m), api_team_id (awayTeam m) with
  | Some date, Some status, Some competition, Some home, Some away =>
      Some {| stored_utc_date := date;
              status := status;
              league_id := competition;
              home_team_id := home;
              away_team_id := away;
              home_score_full := None;
              away_score_full := None;
              home_score_h1 := None;
              away_score_h1 := None;
              home_score_h2 := None;
              away_score_h2 := None;
              corners := None |}
  | _, _, _, _, _ => None
  end.

(** The teams a response mentions, each with the competition of its
    fixture: home before away, in the order of the response. *)
Definition mentions (fixtures : list api_match)
    : list (api_team * argument integer_value) :=
  flat_map
    (fun m => [(homeTeam m, api_competition_id m);
               (awayTeam m, api_competition_id m)])
    fixtures.

(** The last element of a list whose statement has a given key. *)
Fixpoint last_with {X : Type} (key_of : X -> argument integer_value)
    (key : Z) (xs : list X) : option X :=
  match xs with
  | [] => None
  | x :: xs' =>
      match last_with key_of key xs' with
      | Some y => Some y
      | None => if is_key (key_of x) key then Some x else None
      end
  end.

(** Elements whose statements have a key of their own and arguments that
    can be bound, and elements one of whose statements throws whatever the
    tables hold. *)
Definition plain_competition (c : competition) : bool :=
  match explicit_key (competition_id c), league_row c with
  | Some _, Some _ => true
  | _, _ => false
  end.

Definition refused_competition (c : competition) : bool :=
  refused_key (competition_id c)
  || match league_row c with Some _ => false | None => true end.

Definition plain_fixture (m : api_match) : bool :=
  match explicit_key (api_id m),
        explicit_key (api_team_id (homeTeam m)),
        explicit_key (api_team_id (awayTeam m)),
        team_row (homeTeam m, api_competition_id m),
        team_row (awayTeam m, api_competition_id m),
        match_row_of m with
  | Some _, Some _, Some _, Some _, Some _, Some _ => true
  | _, _, _, _, _, _ => false
  end.

Definition refused_fixture (m : api_match) : bool :=
  refused_key (api_team_id (homeTeam m))
  || refused_key (api_team_id (awayTeam m))
  || refused_key (api_id m)
  || match team_row (homeTeam m, api_competition_id m),
           team_row (awayTeam m, api_competition_id m),
           match_row_of m with
     | Some _, Some _, Some _ => false
     | _, _, _ => true
     end.

(** The [WHERE] clause of the query of the analysis handler. *)
Definition upcoming (m : stored_match) : bool :=
  match status m with
  | Some s => String.eqb s "TIMED" || String.eqb s "SCHEDULED"
  | None => false
  end.

(** A row of the query of the analysis handler, as the handler reads it. *)
Record selected_row : Type := {
  selected_id : Z;
  selected_home_name : text_value;
  selected_away_name : text_value;
  selected_league_name : text_value;
  selected_utc_date : text_value
}.

(** The row the query returns for a match id (lines 171-179): the match
    must be upcoming and the three inner joins must find its home team, its
    away team and its league. *)
Definition analysis_row (d : db) (match_id : Z) : option selected_row :=
  match lookup (matches d) match_id with
  | Some m =>
      if upcoming m
      then match join (teams d) (home_team_id m),
                 join (teams d) (away_team_id m),
                 join (leagues d) (league_id m) with
           | Some h, Some a, Some l =>
               Some {| selected_id := match_id;
                       selected_home_name := team_name h;
                       selected_away_name := team_name a;
                       selected_league_name := name l;
                       selected_utc_date := stored_utc_date m |}
           | _, _, _ => None
           end
      else None
  | None => None
  end.

(** Two databases with the same rows. *)
Definition same_rows (d1 d2 : db) : Prop :=
  (forall k, lookup (leagues d1) k = lookup (leagues d2) k) /\
  (forall k, lookup (teams d1) k = lookup (teams d2) k) /\
  (forall k, lookup (matches d1) k = lookup (matches d2) k).

(** The first mention of a team id in a response, and the row written
    for it. *)
Definition first_mention (fixtures : list api_match) (k : Z)
    : option (api_team * argument integer_value) :=
  find (fun x => is_key (api_team_id (fst x)) k) (mentions fixtures).

Definition mentioned_row (fixtures : list api_match) (k : Z) : option team :=
  match first_mention fixtures k with
  | Some x => team_row x
  | None => None
  end.

(** The competitions before the first one whose statement throws: the ones
    the loop of [syncLeagues] gets to. *)
Fixpoint before_refused (competitions : list competition)
    : list competition :=
  match competitions with
  | [] => []
  | c :: rest =>
      if refused_competition c then [] else c :: before_refused rest
  end.

(** The elements of a response; none when the request failed. *)
Definition elements {X : Type} (response : option (list X)) : list X :=
  match response with
  | Some l => l
  | None => []
  end.

(** [m.status] is [TIMED] or [SCHEDULED]. *)
Definition api_upcoming (m : api_match) : bool :=
  match api_status m with
  | Some (Some s) => String.eqb s "TIMED" || String.eqb s "SCHEDULED"
  | _ => false
  end.

Section Statements.

(** The key SQLite finds by drawing at random, when the largest key in
    use is the largest 64-bit integer; [None] when it finds none
    ([SQLITE_FULL]). *)
Variable pick : list Z -> option Z.

(** The key SQLite assigns to a row inserted with a [NULL] key: 1 in an
    empty table, otherwise one more than the largest key in use. *)
Definition new_rowid {R : Type} (t : table R) : option Z :=
  match keys t with
  | [] => Some 1
  | k :: ks =>
      let largest := fold_right Z.max k ks in
      if largest <? 2 ^ 63 - 1
      then Some (largest + 1)
      else match pick (keys t) with
           | Some r =>
               if in_int64 r && negb (existsb (Z.eqb r) (keys t))
               then Some r
               else None
           | None => None
           end
  end.

(** [INSERT OR REPLACE] and [INSERT OR IGNORE] of a row under a bound key;
    [None] when the statement throws.  On a conflict [REPLACE] deletes the
    row that has the key and inserts the new one, [IGNORE] does nothing. *)
Definition insert {R : Type} (on_conflict : conflict)
    (key : argument integer_value) (row : R) (t : table R)
    : option (table R) :=
  match key with
  | None => None
  | Some Null =>
      match new_rowid t with
      | Some k => Some ((k, row) :: t)
      | None => None
      end
  | Some (Integer z) =>
      if in_int64 z
      then match on_conflict, lookup t z with
           | Ignore, Some _ => Some t
           | _, _ => Some ((z, row) :: delete z t)
           end
      else None
  | Some (NotInteger _) => None
  end.

(** [stmt.run(c.id, c.name, c.code)] of [syncLeagues]. *)
Definition store_league (d : db) (c : competition) : option db :=
  match league_row c with
  | Some row =>
      match insert Replace (competition_id c) row (leagues d) with
      | Some t =>
          Some {| leagues := t; teams := teams d; matches := matches d |}
      | None => None
      end
  | None => None
  end.

(** The [for] loop of [syncLeagues]: a statement that throws ends the loop,
    and the rows written so far stay (there is no transaction); the [catch]
    block logs the error. *)
Fixpoint store_leagues (competitions : list competition) (d : db) : db :=
  match competitions with
  | [] => d
  | c :: rest =>
      match store_league d c with
      | Some d' => store_leagues rest d'
      | None => d
      end
  end.

(** [async function syncLeagues()]; a failed request is caught and changes
    nothing. *)
Definition syncLeagues (response : option (list competition)) (d : db)
    : db :=
  match response with
  | Some competitions => store_leagues competitions d
  | None => d
  end.

(** [stmtTeam.run(t.id, t.name, m.competition.id)]. *)
Definition store_team (competition : argument integer_value) (d : db)
    (t : api_team) : option db :=
  match team_row (t, competition) with
  | Some row =>
      match insert Ignore (api_team_id t) row (teams d) with
      | Some t' =>
          Some {| leagues := leagues d; teams := t'; matches := matches d |}
      | None => None
      end
  | None => None
  end.

(** [stmtMatch.run(m.id, m.utcDate, m.status, m.competition.id,
    m.homeTeam.id, m.awayTeam.id)]: the seven columns the statement does not
    name take their default, [NULL]. *)
Definition store_match (d : db) (m : api_match) : option db :=
  match match_row_of m with
  | Some row =>
      match insert Replace (api_id m) row (matches d) with
      | Some t =>
          Some {| leagues := leagues d; teams := teams d; matches := t |}
      | None => None
      end
  | None => None
  end.

(** The body of the [for] loop inside the transaction of [syncFixtures]. *)
Definition store_fixture (d : db) (m : api_match) : option db :=
  match store_team (api_competition_id m) d (homeTeam m) with
  | Some d1 =>
      match store_team (api_competition_id m) d1 (awayTeam m) with
      | Some d2 => store_match d2 m
      | None => None
      end
  | None => None
  end.

Fixpoint store_fixtures (fixtures : list api_match) (d : db) : option db :=
  match fixtures with
  | [] => Some d
  | m :: rest =>
      match store_fixture d m with
      | Some d' => store_fixtures rest d'
      | None => None
      end
  end.

(** [async function syncFixtures()]: the loop runs in a transaction, which
    is committed when the loop ends and rolled back when a statement
    throws. *)
Definition syncFixtures (response : option (list api_match)) (d : db) : db :=
  match response with
  | Some fixtures =>
      match store_fixtures fixtures d with
      | Some d' => d'
      | None => d
      end
  | None => d
  end.

(** The [POST /api/sync] handler: leagues, then fixtures. *)
Definition sync (competitions : option (list competition))
    (fixtures : option (list api_match)) (d : db) : db :=
  syncFixtures fixtures (syncLeagues competitions d).

End Statements.

(** A database with no rows, and small responses to run the model on. *)
Definition no_rows : db :=
  {| leagues := []; teams := []; matches := [] |}.

Definition premier_league : competition :=
  {| competition_id := Some (Integer 2021);
     competition_name := Some (Some "Premier League"%string);
     competition_code := Some (Some "PL"%string) |}.

Definition primera_division : competition :=
  {| competition_id := Some (Integer 2014);
     competition_name := Some (Some "Primera Division"%string);
     competition_code := Some (Some "PD"%string) |}.

(** A competition whose id is the number [1e19], no 64-bit integer. *)
Definition oversized_competition : competition :=
  {| competition_id := Some (NotInteger "1e19"%string);
     competition_name := Some (Some "Serie A"%string);
     competition_code := Some (Some "SA"%string) |}.

Definition fixture_501 : api_match :=
  {| api_id := Some (Integer 501);
     utcDate := Some (Some "2026-01-10T15:00:00Z"%string);
     api_status := Some (Some "TIMED"%string);
     api_competition_id := Some (Integer 2021);
     homeTeam := {| api_team_id := Some (Integer 57);
                    api_team_name := Some (Some "Arsenal FC"%string) |};
     awayTeam := {| api_team_id := Some (Integer 61);
                    api_team_name := Some (Some "Chelsea FC"%string) |} |}.

Definition fixture_502 : api_match :=
  {| api_id := Some (Integer 502);
     utcDate := Some (Some "2026-01-03T15:00:00Z"%string);
     api_status := Some (Some "FINISHED"%string);
     api_competition_id := Some (Integer 2021);
     homeTeam := {| api_team_id := Some (Integer 61);
                    api_team_name := Some (Some "Chelsea"%string) |};
     awayTeam := {| api_team_id := Some (Integer 65);
                    api_team_name := Some (Some "Man City"%string) |} |}.

(** A fixture one side of which is not determined yet: the API sends
    [null] for its id and its name. *)
Definition fixture_503 : api_match :=
  {| api_id := Some (Integer 503);
     utcDate := Some (Some "2026-01-17T15:00:00Z"%string);
     api_status := Some (Some "TIMED"%string);
     api_competition_id := Some (Integer 2021);
     homeTeam := {| api_team_id := Some (Integer 57);
                    api_team_name := Some (Some "Arsenal FC"%string) |};
     awayTeam := {| api_team_id := Some Null;
                    api_team_name := Some None |} |}.

(** A fixture whose id is the number [1e19], no 64-bit integer. *)
Definition oversized_fixture : api_match :=
  {| api_id := Some (NotInteger "1e19"%string);
     utcDate := Some (Some "2026-01-10T15:00:00Z"%string);
     api_status := Some (Some "TIMED"%string);
     api_competition_id := Some (Integer 2021);
     homeTeam := {| api_team_id := Some (Integer 66);
                    api_team_name := Some (Some "Man United"%string) |};
     awayTeam := {| api_team_id := Some (Integer 73);
                    api_team_name := Some (Some "Tottenham"%string) |} |}.

Definition never_picks : list Z -> option Z := fun _ => None.

End Sqlite.

(** ** The list the page shows (the [App] component, lines 286-330)

    The records the page receives are those the handler sent.  The state of
    the component that the list depends on is [matches], [filterLeague],
    [minEdge] and [sortBy].  [new Date(s).getTime()] is a parameter. *)

Module App.

Inductive sort_key : Type := SortEv | SortEdge | SortDate.

(** [x >= y] on numbers: false as soon as one side is [NaN]. *)
Definition ge (x y : JS.number) : bool :=
  match x, y with
  | JS.NaN, _ | _, JS.NaN => false
  | JS.Fin a, JS.Fin b => Qle_bool b a
  | JS.PosInf, _ => true
  | _, JS.NegInf => true
  | JS.NegInf, _ => false
  | JS.Fin _, JS.PosInf => false
  end.

(** The rational a finite number holds. *)
Definition value (x : JS.number) : Q :=
  match x with
  | JS.Fin q => q
  | _ => 0
  end.

(** [Array.prototype.sort(comparefn)].  An element [a] is placed after [b]
    when [comparefn(a, b) > 0]; a result of 0, or [NaN], leaves the two in
    their order (the sort is stable).  For a consistent comparator this
    fixes the result, which the insertion sort below computes; for an
    inconsistent one the language leaves the order to the implementation. *)
Definition goes_after {A : Type} (comparefn : A -> A -> JS.number)
    (a b : A) : bool :=
  JS.gt (comparefn a b) (JS.Fin 0).

Fixpoint insert {A : Type} (comparefn : A -> A -> JS.number) (a : A)
    (l : list A) : list A :=
  match l with
  | [] => [a]
  | b :: l' =>
      if goes_after comparefn a b
      then b :: insert comparefn a l'
      else a :: l
  end.

Definition sort {A : Type} (comparefn : A -> A -> JS.number) (l : list A)
    : list A :=
  fold_right (insert comparefn) [] l.

(** [new Set(xs)] spread into an array: the distinct elements, each at its
    first occurrence. *)
Definition distinct (xs : list string) : list string :=
  fold_left
    (fun seen x => if existsb (String.eqb x) seen then seen else seen ++ [x])
    xs [].

(** The conditions of the card of a match (lines 452, 497, 504 and 505):
    the badge is green for ["High"] confidence, the edge is highlighted when
    [match.edge > 0.05], the expected value when [match.ev > 0.2], and a
    plus sign precedes it when [match.ev > 0]. *)
Definition badge_green (m : analysis) : bool :=
  match confidence m with
  | High => true
  | Medium => false
  end.

Definition edge_highlighted (m : analysis) : bool :=
  JS.gt (edge m) (JS.Fin 0.05).

Definition ev_highlighted (m : analysis) : bool :=
  JS.gt (ev m) (JS.Fin 0.2).

Definition ev_plus_sign (m : analysis) : bool :=
  JS.gt (ev m) (JS.Fin 0).

Section Component.

(** [s => new Date(s).getTime()]. *)
Variable getTime : string -> JS.number.

(** The comparator passed to [sort] (lines 325-329). *)
Definition comparator (sortBy : sort_key) (a b : analysis) : JS.number :=
  match sortBy with
  | SortEv => JS.sub (ev b) (ev a)
  | SortEdge => JS.sub (edge b) (edge a)
  | SortDate => JS.sub (getTime (date a)) (getTime (date b))
  end.

(** [m => filterLeague === 'All' || m.league === filterLeague]. *)
Definition league_filter (filterLeague : string) (m : analysis) : bool :=
  String.eqb filterLeague "All" || String.eqb (league m) filterLeague.

(** [m => m.edge >= minEdge]. *)
Definition edge_filter (minEdge : JS.number) (m : analysis) : bool :=
  ge (edge m) minEdge.

(** [const filteredMatches = matches.filter(...).filter(...).sort(...)]. *)
Definition filteredMatches (matches : list analysis) (filterLeague : string)
    (minEdge : JS.number) (sortBy : sort_key) : list analysis :=
  sort (comparator sortBy)
    (filter (edge_filter minEdge)
       (filter (league_filter filterLeague) matches)).

(** [const leagues = ['All', ...new Set(matches.map(m => m.league))]]. *)
Definition leagues (matches : list analysis) : list string :=
  "All"%string :: distinct (map league matches).

(** The quantity the chosen order compares, so that the list is in
    decreasing order of it: the expected value, the edge, or the date
    counted backwards. *)
Definition sort_value (sortBy : sort_key) (m : analysis) : JS.number :=
  match sortBy with
  | SortEv => ev m
  | SortEdge => edge m
  | SortDate => JS.neg (getTime (date m))
  end.

End Component.

End App.

(** The smallest positive normal double, [2^-1022].  A threshold
    [Math.exp(- lambda)] at or above it (a rate up to about 708) is one that
    the accumulator of [poisson], which decreases with every draw below 1,
    is sure to reach; below it the accumulator can stop decreasing. *)
Definition min_normal : Q := 1 # (2 ^ 1022).

(** A stand-in for [Math.exp] that underflows as doubles do: [e^x] is below
    half the smallest subnormal double for [x < -745.14], and [Math.exp]
    returns 0 there. *)
Definition exp_underflowing (x : Q) : Q :=
  if Qle_bool x (- 746) then 0 else exp_approx x.

(** A stream that is constantly three quarters. *)
Definition three_quarters : stream := fun _ => 3 # 4.

(** ** The arithmetic of the handler on doubles

    Lines 111 and 200-204 on IEEE 754 binary64 numbers, which are the
    [number]s of the source: every operation rounds to nearest, ties to
    even.  The decimal constants denote the closest doubles, as they do in
    the source. *)

#[local] Set Warnings "-inexact-float".

Module Double.

Import PrimFloat.
Local Open Scope float_scope.

(** A count ([successCount], [iterations]) as a double. *)
Definition of_count (n : Z) : float := of_uint63 (Uint63.of_Z n).

(** [successCount / iterations] (line 111). *)
Definition ratio (successCount iterations : Z) : float :=
  of_count successCount / of_count iterations.

(** The five numbers lines 200-204 compute. *)
Record prices : Type := {
  oddAvg : float;
  bestOdd : float;
  probImplied : float;
  edge : float;
  ev : float
}.

Definition mock_prices (probModel : float) : prices :=
  let oddAvg := 1 / (probModel * 0.8) in
  let bestOdd := oddAvg * 1.1 in
  let probImplied := 1 / bestOdd in
  let edge := probModel - probImplied in
  let ev := (probModel * bestOdd) - 1 in
  {| oddAvg := oddAvg; bestOdd := bestOdd; probImplied := probImplied;
     edge := edge; ev := ev |}.

(** The prices of a match whose better simulation had [successCount]
    successes out of the 20000 iterations the handler runs. *)
Definition prices_at (successCount : Z) : prices :=
  mock_prices (ratio successCount 20000).

(** [m.ev > 0] (line 224). *)
Definition passes_filter (r : prices) : bool := ltb 0 (ev r).

(** [x] is within [tolerance] of [y]. *)
Definition close (tolerance x y : float) : bool :=
  leb (y - tolerance) x && leb x (y + tolerance).

(** [Number.isFinite]. *)
Definition finite (x : float) : bool :=
  ltb neg_infinity x && ltb x infinity.

(** What holds of the expected value and of the edge at a success count:
    the expected value is within [2^-51] of 0.375 and positive, the edge is
    positive and within [2^-52] of [p * (1 - 0.8 / 1.1)]. *)
Definition value_near_constant (successCount : Z) : bool :=
  let p := ratio successCount 20000 in
  let r := mock_prices p in
  close 0x1p-51 (ev r) 0.375
  && ltb 0 (ev r)
  && ltb 0 (edge r)
  && close 0x1p-52 (edge r) (p * (1 - 0.8 / 1.1)).

(** What holds of the prices at a success count: all five numbers are
    finite, the average odds are below the best odds, the best odds are at
    least 1.375, and the implied probability is strictly between 0 and the
    model probability. *)
Definition well_formed (successCount : Z) : bool :=
  let p := ratio successCount 20000 in
  let r := mock_prices p in
  finite (oddAvg r) && finite (bestOdd r) && finite (probImplied r)
  && finite (edge r) && finite (ev r)
  && ltb (oddAvg r) (bestOdd r)
  && leb 1.375 (bestOdd r)
  && ltb 0 (probImplied r)
  && ltb (probImplied r) p.

(** [f] holds at the [n] integers from [k] on. *)
Fixpoint all_from (n : nat) (k : Z) (f : Z -> bool) : bool :=
  match n with
  | O => true
  | S n' => f k && all_from n' (k + 1)%Z f
  end.

End Double.

(** * Properties *)

(** ** Comparisons and the generator monad *)

Lemma Qltb_true (x y : Q) : JS.Qltb x y = true <-> x < y.
Proof.
  unfold JS.Qltb. rewrite negb_true_iff.
  destruct (Qle_bool y x) eqn:E.
  - apply Qle_bool_iff in E. split; [discriminate | intro H; lra].
  - split; [intros _ | reflexivity].
    destruct (Qlt_le_dec x y) as [H | H]; [exact H |].
    apply Qle_bool_iff in H. congruence.
Qed.

Lemma Qltb_false (x y : Q) : JS.Qltb x y = false <-> y <= x.
Proof.
  unfold JS.Qltb. rewrite negb_false_iff. apply Qle_bool_iff.
Qed.

Lemma of_nat_S (n : nat) : of_nat (S n) == of_nat n + 1.
Proof.
  unfold of_nat. rewrite Nat2Z.inj_succ, <- Z.add_1_r, inject_Z_plus.
  reflexivity.
Qed.

Lemma of_nat_nonneg (n : nat) : 0 <= of_nat n.
Proof.
  unfold of_nat. change 0 with (inject_Z 0). rewrite <- Zle_Qle. lia.
Qed.

Lemma of_nat_le (n m : nat) : (n <= m)%nat <-> of_nat n <= of_nat m.
Proof.
  unfold of_nat. rewrite <- Zle_Qle. lia.
Qed.

Lemma of_nat_lt (n m : nat) : (n < m)%nat <-> of_nat n < of_nat m.
Proof.
  unfold of_nat. rewrite <- Zlt_Qlt. lia.
Qed.

Lemma bind_Some {A B : Type} (m : M A) (f : A -> M B) u s b s2 :
  bind m f u s = Some (b, s2) <->
  exists a s1, m u s = Some (a, s1) /\ f a u s1 = Some (b, s2).
Proof.
  unfold bind. destruct (m u s) as [[a s1] |].
  - split.
    + intro H. exists a, s1. split; [reflexivity | exact H].
    + intros (a' & s1' & E & H). inversion E; subst. exact H.
  - split; [discriminate | intros (a' & s1' & E & _); discriminate].
Qed.

(** ** The Poisson sampler *)

Section PoissonFacts.

Variable exp : Q -> Q.

(** What a returning loop has done: it consumed [s' - s >= 1] draws, [k]
    went up by one per draw, the accumulator stayed above [L] until the
    last draw and fell to [L] or below with it. *)
Lemma poisson_loop_result n L : forall p k u s k' s',
  poisson_loop n L p k u s = Some (k', s') ->
  (s < s')%nat /\
  (k' + 1 = k + (s' - s))%nat /\
  accumulate p u s (s' - s) <= L /\
  (forall j, (0 < j < s' - s)%nat -> L < accumulate p u s j).
Proof.
  induction n as [| n IH]; intros p k u s k' s' H; [discriminate |].
  cbn [poisson_loop] in H. unfold bind, random in H.
  destruct (JS.Qltb L (p * u s)) eqn:E.
  - apply IH in H. destruct H as (Hs & Hk & Hle & Hgt).
    replace (s' - s)%nat with (S (s' - S s)) by lia.
    repeat split; try lia.
    + exact Hle.
    + intros [| j] Hj; [lia |]. cbn [accumulate].
      destruct j as [| j].
      * cbn [accumulate]. apply Qltb_true. exact E.
      * apply Hgt. lia.
  - unfold ret in H. inversion H; subst.
    replace (S s - s)%nat with 1%nat by lia.
    repeat split; try lia.
    cbn [accumulate]. apply Qltb_false. exact E.
Qed.

(** More fuel does not change a result. *)
Lemma poisson_loop_fuel n L : forall n' p k u s r,
  poisson_loop n L p k u s = Some r ->
  (n <= n')%nat ->
  poisson_loop n' L p k u s = Some r.
Proof.
  induction n as [| n IH]; intros n' p k u s r H Hn; [discriminate |].
  destruct n' as [| n']; [lia |].
  cbn [poisson_loop] in *. unfold bind, random in *.
  destruct (JS.Qltb L (p * u s)); [| exact H].
  apply IH; [exact H | lia].
Qed.

(** The loop exits within [S N] draws as soon as [p <= L (1 + N (1 - c))]:
    a draw multiplies [p] by at most [c]. *)
Lemma poisson_loop_exits c u L :
  uniform_draws c u -> c < 1 -> 0 <= L ->
  forall N p k s,
    0 <= p ->
    p <= L * (1 + of_nat N * (1 - c)) ->
    exists k' s', poisson_loop (S N) L p k u s = Some (k', s').
Proof.
  intros Hu Hc HL. induction N as [| N IH]; intros p k s Hp Hb.
  - cbn [poisson_loop]. unfold bind, random.
    destruct (Hu s) as [H0 H1].
    assert (E : JS.Qltb L (p * u s) = false).
    { apply Qltb_false. change (of_nat 0) with 0 in Hb.
      assert (H2 : p * u s <= p) by nra. lra. }
    rewrite E. eexists _, _. reflexivity.
  - remember (S N) as N1. cbn [poisson_loop]. unfold bind, random.
    destruct (JS.Qltb L (p * u s)) eqn:E; [| eexists _, _; reflexivity].
    subst N1. apply IH.
    + destruct (Hu s). nra.
    + destruct (Hu s) as [H0 H1].
      rewrite of_nat_S in Hb. pose proof (of_nat_nonneg N) as HN.
      assert (H2 : p * u s <= p * c) by nra.
      assert (H3 : p * c <= L * (1 + (of_nat N + 1) * (1 - c)) * c).
      { destruct (Qlt_le_dec c 0) as [Hneg | Hpos]; [lra | nra]. }
      assert (H4 : L * (1 + (of_nat N + 1) * (1 - c)) * c
                   <= L * (1 + of_nat N * (1 - c))).
      { assert (Hd : 0 <= (1 - c) * (1 - c)) by nra.
        assert (Hq : (1 + (of_nat N + 1) * (1 - c)) * c
                     <= 1 + of_nat N * (1 - c)) by nra.
        nra. }
      lra.
Qed.

End PoissonFacts.

(** ** Fuel *)

Section Fuel.

Variable exp : Q -> Q.
Variable c : Q.
Hypothesis exp_pos : forall x, 0 < exp x.
Hypothesis c_lt_1 : c < 1.

Lemma sufficient_fuel_for (lambda : Q) :
  sufficient exp c (fuel_for exp c lambda) lambda.
Proof.
  unfold sufficient, fuel_for. split; [lia |].
  set (L := exp (- lambda)). assert (HL : 0 < L) by apply exp_pos.
  set (x := / (L * (1 - c))).
  replace (S (Z.to_nat (Qceiling x)) - 1)%nat with (Z.to_nat (Qceiling x))
    by lia.
  assert (Hx : 0 < x).
  { unfold x. apply Qinv_lt_0_compat. nra. }
  assert (Hq : x <= of_nat (Z.to_nat (Qceiling x))).
  { unfold of_nat. pose proof (Qle_ceiling x) as H.
    assert (0 <= Qceiling x)%Z.
    { destruct (Z.le_gt_cases 0 (Qceiling x)) as [H0 | H0]; [exact H0 |].
      exfalso. assert (inject_Z (Qceiling x) < inject_Z 0)
        by (rewrite <- Zlt_Qlt; lia).
      change (inject_Z 0) with 0 in *. lra. }
    rewrite Z2Nat.id by assumption. exact H. }
  assert (Hm : x * (L * (1 - c)) == 1).
  { unfold x. field. nra. }
  assert (Hd : 0 < L * (1 - c)) by nra.
  assert (H1 : x * (L * (1 - c))
               <= of_nat (Z.to_nat (Qceiling x)) * (L * (1 - c))) by nra.
  nra.
Qed.

Lemma sufficient_more (fuel fuel' : nat) (lambda : Q) :
  sufficient exp c fuel lambda -> (fuel <= fuel')%nat ->
  sufficient exp c fuel' lambda.
Proof.
  unfold sufficient. intros [Hf H] Hle. split; [lia |].
  pose proof (exp_pos (- lambda)) as HL.
  assert (Hn : of_nat (fuel - 1) <= of_nat (fuel' - 1))
    by (apply of_nat_le; lia).
  pose proof (of_nat_nonneg (fuel - 1)).
  assert (of_nat (fuel - 1) * (1 - c) <= of_nat (fuel' - 1) * (1 - c))
    by nra.
  nra.
Qed.

Lemma sufficient_fuel_for_all (ls : list Q) (fuel : nat) :
  (fuel_for_all exp c ls <= fuel)%nat ->
  forall l, In l ls -> sufficient exp c fuel l.
Proof.
  induction ls as [| l0 ls IH]; intros Hf l Hin; [destruct Hin |].
  cbn [fuel_for_all fold_right] in Hf. fold (fuel_for_all exp c ls) in Hf.
  destruct Hin as [-> | Hin].
  - apply sufficient_more with (fuel := fuel_for exp c l);
      [apply sufficient_fuel_for | lia].
  - apply IH; [lia | exact Hin].
Qed.

Variable u : stream.
Hypothesis draws : uniform_draws c u.

(** With sufficient fuel the sampler returns. *)
Lemma poisson_returns (fuel : nat) (lambda : Q) (s : cursor) :
  sufficient exp c fuel lambda ->
  exists k s', poisson exp fuel lambda u s = Some (k, s').
Proof.
  intros [Hf H]. unfold poisson.
  replace fuel with (S (fuel - 1)) by lia.
  replace (S (fuel - 1) - 1)%nat with (fuel - 1)%nat in H by lia.
  apply (poisson_loop_exits c u (exp (- lambda)) draws c_lt_1
           (Qlt_le_weak _ _ (exp_pos (- lambda))) (fuel - 1)%nat 1 0%nat s).
  - lra.
  - exact H.
Qed.

Lemma iteration_returns fuel hG aG hC aC flag s :
  (forall l, In l (rates hG aG hC aC) -> sufficient exp c fuel l) ->
  exists ok s', iteration exp fuel hG aG hC aC flag u s = Some (ok, s').
Proof.
  intro Hs. unfold iteration, bind.
  repeat match goal with
  | |- context [poisson exp fuel ?l u ?t] =>
      let k := fresh "k" in
      let t' := fresh "t" in
      let E := fresh "E" in
      destruct (poisson_returns fuel l t) as (k & t' & E);
      [apply Hs; cbn; tauto | rewrite E]
  end.
  eexists _, _. reflexivity.
Qed.

Lemma simulate_loop_returns fuel hG aG hC aC flag :
  (forall l, In l (rates hG aG hC aC) -> sufficient exp c fuel l) ->
  forall n successCount s,
  exists count s',
    simulate_loop exp fuel hG aG hC aC flag n successCount u s
    = Some (count, s').
Proof.
  intros Hs n. induction n as [| n IH]; intros sc s.
  - eexists _, _. reflexivity.
  - cbn [simulate_loop]. unfold bind.
    destruct (iteration_returns fuel hG aG hC aC flag s Hs)
      as (ok & s1 & E).
    rewrite E. apply IH.
Qed.

(** With fuel for its six rates, [simulateMatch] returns. *)
Lemma simulateMatch_returns fuel hG aG hC aC flag iterations s :
  (fuel_for_all exp c (rates hG aG hC aC) <= fuel)%nat ->
  exists p s',
    simulateMatch exp fuel hG aG hC aC flag iterations u s = Some (p, s').
Proof.
  intro Hf. unfold simulateMatch, bind.
  destruct (simulate_loop_returns fuel hG aG hC aC flag
              (sufficient_fuel_for_all _ fuel Hf) iterations 0%nat s)
    as (count & s1 & E).
  rewrite E. eexists _, _. reflexivity.
Qed.

End Fuel.

(** ** The stand-in exponential and the sample streams *)

Lemma taylor_ge_1 (n : nat) : forall k x,
  (0 < k)%nat -> 0 <= x -> 1 <= taylor k n x.
Proof.
  induction n as [| n IH]; intros k x Hk Hx; cbn [taylor]; [lra |].
  assert (H1 : 1 <= taylor (S k) n x) by (apply IH; [lia | exact Hx]).
  assert (H2 : 0 <= x / of_nat k).
  { apply Qle_shift_div_l.
    - apply of_nat_lt in Hk. exact Hk.
    - lra. }
  nra.
Qed.

Lemma exp_approx_pos (x : Q) : 0 < exp_approx x.
Proof.
  unfold exp_approx. destruct (Qle_bool 0 x) eqn:E.
  - apply Qle_bool_iff in E.
    pose proof (taylor_ge_1 16 1 x ltac:(lia) E). lra.
  - assert (Hx : x < 0).
    { destruct (Qlt_le_dec x 0) as [H | H]; [exact H |].
      apply Qle_bool_iff in H. congruence. }
    apply Qinv_lt_0_compat.
    pose proof (taylor_ge_1 16 1 (- x) ltac:(lia) ltac:(lra)). lra.
Qed.

Lemma exp_approx_ge_1 (x : Q) : 0 <= x -> 1 <= exp_approx x.
Proof.
  intro Hx. unfold exp_approx.
  assert (E : Qle_bool 0 x = true) by (apply Qle_bool_iff; exact Hx).
  rewrite E. apply taylor_ge_1; [lia | exact Hx].
Qed.

Lemma halves_uniform : uniform_draws (1 # 2) halves.
Proof.
  intro i. unfold halves. split; lra.
Qed.

Lemma zeros_uniform : uniform_draws 0 zeros.
Proof.
  intro i. unfold zeros. split; lra.
Qed.

(** ** C5: the sampler's result *)

(** A draw that leaves the accumulator at or below the threshold ends the
    loop at once, with [k - 1 = 0]. *)
Lemma poisson_one_draw exp fuel lambda u s :
  (0 < fuel)%nat ->
  1 * u s <= exp (- lambda) ->
  poisson exp fuel lambda u s = Some (0%nat, S s).
Proof.
  intros Hf H. unfold poisson. destruct fuel as [| n]; [lia |].
  cbn [poisson_loop]. unfold bind, random.
  assert (E : JS.Qltb (exp (- lambda)) (1 * u s) = false)
    by (apply Qltb_false; exact H).
  rewrite E. reflexivity.
Qed.

(** Termination where the threshold is positive at the rate at hand; the
    exponential need not be positive everywhere. *)
Section Pointwise.

Variable exp : Q -> Q.
Variable c : Q.
Variable u : stream.
Hypothesis c_lt_1 : c < 1.
Hypothesis draws : uniform_draws c u.

Lemma threshold_reached (L : Q) (N : nat) :
  0 < L ->
  (Z.to_nat (Qceiling (/ (L * (1 - c)))) <= N)%nat ->
  1 <= L * (1 + of_nat N * (1 - c)).
Proof.
  intros HL HN. set (x := / (L * (1 - c))) in *.
  assert (Hx : 0 < x).
  { unfold x. apply Qinv_lt_0_compat. nra. }
  assert (Hq : x <= of_nat N).
  { apply Qle_trans with (y := of_nat (Z.to_nat (Qceiling x)));
      [| apply of_nat_le; exact HN].
    unfold of_nat. pose proof (Qle_ceiling x) as H.
    assert (0 <= Qceiling x)%Z.
    { destruct (Z.le_gt_cases 0 (Qceiling x)) as [H0 | H0]; [exact H0 |].
      exfalso. assert (inject_Z (Qceiling x) < inject_Z 0)
        by (rewrite <- Zlt_Qlt; lia).
      change (inject_Z 0) with 0 in *. lra. }
    rewrite Z2Nat.id by assumption. exact H. }
  assert (Hm : x * (L * (1 - c)) == 1).
  { unfold x. field. nra. }
  assert (Hd : 0 < L * (1 - c)) by nra.
  assert (H1 : x * (L * (1 - c)) <= of_nat N * (L * (1 - c))) by nra.
  nra.
Qed.

Lemma poisson_returns_at (fuel : nat) (lambda : Q) (s : cursor) :
  0 < exp (- lambda) ->
  (fuel_for exp c lambda <= fuel)%nat ->
  exists k s', poisson exp fuel lambda u s = Some (k, s').
Proof.
  intros HL Hf. unfold poisson. unfold fuel_for in Hf.
  replace fuel with (S (fuel - 1)) by lia.
  apply (poisson_loop_exits c u (exp (- lambda)) draws c_lt_1
           (Qlt_le_weak _ _ HL) (fuel - 1)%nat 1 0%nat s).
  - lra.
  - apply threshold_reached; [exact HL | lia].
Qed.

Lemma fuel_for_all_ge (ls : list Q) (l : Q) :
  In l ls -> (fuel_for exp c l <= fuel_for_all exp c ls)%nat.
Proof.
  induction ls as [| l0 ls IH]; intro Hin; [destruct Hin |].
  cbn [fuel_for_all fold_right]. fold (fuel_for_all exp c ls).
  destruct Hin as [-> | Hin]; [lia |]. specialize (IH Hin). lia.
Qed.

Lemma iteration_returns_at fuel hG aG hC aC flag s :
  (forall l, In l (rates hG aG hC aC) -> 0 < exp (- l)) ->
  (fuel_for_all exp c (rates hG aG hC aC) <= fuel)%nat ->
  exists ok s', iteration exp fuel hG aG hC aC flag u s = Some (ok, s').
Proof.
  intros Hpos Hf. unfold iteration, bind.
  repeat match goal with
  | |- context [poisson exp fuel ?l u ?t] =>
      let k := fresh "k" in
      let t' := fresh "t" in
      let E := fresh "E" in
      destruct (poisson_returns_at fuel l t) as (k & t' & E);
      [apply Hpos; cbn; tauto
      | pose proof (fuel_for_all_ge (rates hG aG hC aC) l) as Hge;
        assert (Hin : In l (rates hG aG hC aC)) by (cbn; tauto);
        specialize (Hge Hin); lia
      | rewrite E; clear E]
  end.
  eexists _, _. reflexivity.
Qed.

Lemma simulateMatch_returns_at fuel hG aG hC aC flag iterations s :
  (forall l, In l (rates hG aG hC aC) -> 0 < exp (- l)) ->
  (fuel_for_all exp c (rates hG aG hC aC) <= fuel)%nat ->
  exists p s',
    simulateMatch exp fuel hG aG hC aC flag iterations u s = Some (p, s').
Proof.
  intros Hpos Hf.
  assert (Hloop : forall n successCount t,
            exists count t',
              simulate_loop exp fuel hG aG hC aC flag n successCount u t
              = Some (count, t')).
  { induction n as [| n IH]; intros sc t.
    - eexists _, _. reflexivity.
    - cbn [simulate_loop]. unfold bind.
      destruct (iteration_returns_at fuel hG aG hC aC flag t Hpos Hf)
        as (ok & t1 & E).
      rewrite E. apply IH. }
  unfold simulateMatch, bind.
  destruct (Hloop iterations 0%nat s) as (count & s1 & E).
  rewrite E. eexists _, _. reflexivity.
Qed.

End Pointwise.

Lemma min_normal_pos : 0 < min_normal.
Proof. reflexivity. Qed.

(** C5, as the code has it.  For every rate [lambda >= 0] whose threshold
    [exp (- lambda)] is at least the smallest normal double, and every
    stream of uniform draws (each in [[0, c]] with [c < 1]), the Poisson
    sampler returns, given the fuel [fuel_for] computes; what it returns is
    a natural number equal to the number of draws it multiplied into the
    accumulator minus one; and for [lambda = 0] it returns 0 after a single
    draw, whatever the stream and the cursor. *)
Theorem poisson_returns_draws_minus_one
    (exp : Q -> Q) (c : Q) (u : stream) (lambda : Q) (s : cursor) :
  (forall x, 0 <= x -> 1 <= exp x) ->
  c < 1 ->
  uniform_draws c u ->
  0 <= lambda ->
  min_normal <= exp (- lambda) ->
  (forall fuel, (fuel_for exp c lambda <= fuel)%nat ->
     exists k s', poisson exp fuel lambda u s = Some (k, s')) /\
  (forall fuel k s', poisson exp fuel lambda u s = Some (k, s') ->
     (s < s')%nat /\ k = (s' - s - 1)%nat) /\
  (lambda == 0 ->
     forall fuel, (0 < fuel)%nat ->
       poisson exp fuel lambda u s = Some (0%nat, S s)).
Proof.
  intros Hge Hc Hu Hl Hmin.
  assert (HL : 0 < exp (- lambda)) by (pose proof min_normal_pos; lra).
  split; [| split].
  - intros fuel Hf. apply poisson_returns_at with (c := c); assumption.
  - intros fuel k s' H. apply poisson_loop_result in H. lia.
  - intros H0 fuel Hf. apply poisson_one_draw; [exact Hf |].
    destruct (Hu s) as [_ H1].
    assert (H2 : 1 <= exp (- lambda)) by (apply Hge; lra).
    lra.
Qed.

Lemma poisson_returns_draws_minus_one_witness :
  (forall fuel, (fuel_for exp_approx (1 # 2) 1.5 <= fuel)%nat ->
     exists k s', poisson exp_approx fuel 1.5 halves 0%nat = Some (k, s')) /\
  (forall fuel k s', poisson exp_approx fuel 1.5 halves 0%nat = Some (k, s') ->
     (0 < s')%nat /\ k = (s' - 0 - 1)%nat) /\
  (1.5 == 0 ->
     forall fuel, (0 < fuel)%nat ->
       poisson exp_approx fuel 1.5 halves 0%nat = Some (0%nat, 1%nat)).
Proof.
  apply (poisson_returns_draws_minus_one exp_approx (1 # 2) halves 1.5 0%nat).
  - exact exp_approx_ge_1.
  - reflexivity.
  - exact halves_uniform.
  - discriminate.
  - apply Qle_bool_iff. vm_compute. reflexivity.
Defined.

(** With a threshold of 0 and draws that are all positive the accumulator
    stays positive: the loop never exits. *)
Lemma poisson_loop_never_exits n : forall p k s,
  0 < p -> poisson_loop n 0 p k three_quarters s = None.
Proof.
  induction n as [| n IH]; intros p k s Hp; [reflexivity |].
  cbn [poisson_loop]. unfold bind, random.
  assert (Hp' : 0 < p * three_quarters s) by (unfold three_quarters; lra).
  assert (E : JS.Qltb 0 (p * three_quarters s) = true)
    by (apply Qltb_true; exact Hp').
  rewrite E. apply IH. exact Hp'.
Qed.

(** C5, as stated, fails: at the rate 800 the threshold [Math.exp(-800)] is
    0, and on draws that are all 0.75 the accumulator never reaches it (on
    doubles it stops at the smallest subnormal number): the sampler never
    returns, whatever the number of draws it is allowed. *)
Lemma poisson_never_returns_at_rate_800 :
  exp_underflowing (- 800) = 0 /\
  (forall fuel,
     poisson exp_underflowing fuel 800 three_quarters 0%nat = None).
Proof.
  split; [reflexivity |].
  intro fuel. unfold poisson.
  replace (exp_underflowing (- 800)) with 0 by reflexivity.
  apply poisson_loop_never_exits. reflexivity.
Qed.

Example poisson_on_halves :
  poisson exp_approx 10 1.5 halves 0%nat = Some (2%nat, 3%nat).
Proof. reflexivity. Qed.

Example poisson_rate_zero :
  poisson exp_approx 10 0 halves 7%nat = Some (0%nat, 8%nat).
Proof. reflexivity. Qed.

(** ** C6: what a run of the simulator depends on *)

Lemma replayable_ret {A : Type} (a : A) : replayable (ret a).
Proof.
  intros u s a' s' H. unfold ret in H. inversion H; subst.
  split; [lia |]. intros u' t _. unfold ret. f_equal. f_equal. lia.
Qed.

Lemma replayable_random : replayable random.
Proof.
  intros u s a s' H. unfold random in H. inversion H; subst.
  split; [lia |]. intros u' t Hd. unfold random.
  replace (S s - s)%nat with 1%nat in * by lia.
  specialize (Hd 0%nat ltac:(lia)).
  rewrite !Nat.add_0_r in Hd. rewrite Hd. f_equal. f_equal. lia.
Qed.

Lemma replayable_bind {A B : Type} (m : M A) (f : A -> M B) :
  replayable m -> (forall a, replayable (f a)) -> replayable (bind m f).
Proof.
  intros Hm Hf u s b s2 H.
  apply bind_Some in H. destruct H as (a & s1 & E1 & E2).
  destruct (Hm _ _ _ _ E1) as [Hle1 Hr1].
  destruct (Hf a _ _ _ _ E2) as [Hle2 Hr2].
  split; [lia |]. intros u' t Hd.
  apply bind_Some. exists a, (t + (s1 - s))%nat. split.
  - apply Hr1. intros i Hi. apply Hd. lia.
  - replace (t + (s2 - s))%nat with (t + (s1 - s) + (s2 - s1))%nat by lia.
    apply Hr2. intros i Hi.
    replace (t + (s1 - s) + i)%nat with (t + ((s1 - s) + i))%nat by lia.
    replace (s1 + i)%nat with (s + ((s1 - s) + i))%nat by lia.
    apply Hd. lia.
Qed.

Lemma replayable_poisson_loop n L : forall p k,
  replayable (poisson_loop n L p k).
Proof.
  induction n as [| n IH]; intros p k.
  - intros u s a s' H. discriminate.
  - cbn [poisson_loop]. apply replayable_bind; [apply replayable_random |].
    intro r. destruct (JS.Qltb L (p * r)); [apply IH | apply replayable_ret].
Qed.

Lemma replayable_poisson exp fuel lambda : replayable (poisson exp fuel lambda).
Proof.
  unfold poisson. apply replayable_poisson_loop.
Qed.

Lemma replayable_iteration exp fuel hG aG hC aC flag :
  replayable (iteration exp fuel hG aG hC aC flag).
Proof.
  unfold iteration.
  repeat (apply replayable_bind; [apply replayable_poisson | intro]).
  apply replayable_ret.
Qed.

Lemma replayable_simulate_loop exp fuel hG aG hC aC flag n :
  forall successCount,
    replayable (simulate_loop exp fuel hG aG hC aC flag n successCount).
Proof.
  induction n as [| n IH]; intro sc; cbn [simulate_loop].
  - apply replayable_ret.
  - apply replayable_bind; [apply replayable_iteration | intro ok; apply IH].
Qed.

Lemma replayable_simulateMatch exp fuel hG aG hC aC flag iterations :
  replayable (simulateMatch exp fuel hG aG hC aC flag iterations).
Proof.
  unfold simulateMatch.
  apply replayable_bind; [apply replayable_simulate_loop | intro].
  apply replayable_ret.
Qed.

(** C6, as the code has it.  [simulateMatch] takes no seed and no random
    source: it reads the global generator.  Its result is a function of its
    arguments and of the draws it consumes: a call that is served the same
    draws as an earlier call with the same arguments, on whatever stream and
    from whatever cursor, returns the same probability after the same number
    of draws. *)
Theorem simulateMatch_same_draws_same_result
    (exp : Q -> Q) (fuel : nat) (homeExpG awayExpG homeExpC awayExpC : Q)
    (flag : bool) (iterations : nat)
    (u u' : stream) (s t s' : cursor) (p : Q) :
  simulateMatch exp fuel homeExpG awayExpG homeExpC awayExpC flag iterations
    u s = Some (p, s') ->
  same_draws u u' s t (s' - s) ->
  simulateMatch exp fuel homeExpG awayExpG homeExpC awayExpC flag iterations
    u' t = Some (p, (t + (s' - s))%nat).
Proof.
  intros H Hd.
  destruct (replayable_simulateMatch exp fuel homeExpG awayExpG homeExpC
              awayExpC flag iterations u s p s' H) as [_ Hr].
  apply Hr. exact Hd.
Qed.

(** The run of the definition of [one_success_then_zeros]. *)
Example simulateMatch_first_call :
  simulateMatch exp_approx 10 1.5 1.1 5.2 4.6 true 1
    one_success_then_zeros 0%nat = Some (1, 13%nat).
Proof. reflexivity. Qed.

Lemma simulateMatch_same_draws_same_result_witness :
  simulateMatch exp_approx 10 1.5 1.1 5.2 4.6 true 1
    (fun n => one_success_then_zeros (n - 20)%nat) 20%nat
  = Some (1, (20 + (13 - 0))%nat).
Proof.
  apply (simulateMatch_same_draws_same_result exp_approx 10 1.5 1.1 5.2 4.6
           true 1 one_success_then_zeros
           (fun n => one_success_then_zeros (n - 20)%nat) 0%nat 20%nat
           13%nat 1).
  - reflexivity.
  - intros i Hi. replace (20 + i - 20)%nat with (0 + i)%nat by lia.
    reflexivity.
Defined.

(** C6, as stated, fails: two successive calls with identical arguments
    return different probabilities, because the second call continues the
    global generator where the first one left it. *)
Lemma simulateMatch_successive_calls_differ :
  exists p1 s1 p2 s2,
    simulateMatch exp_approx 10 1.5 1.1 5.2 4.6 true 1
      one_success_then_zeros 0%nat = Some (p1, s1) /\
    simulateMatch exp_approx 10 1.5 1.1 5.2 4.6 true 1
      one_success_then_zeros s1 = Some (p2, s2) /\
    ~ p1 == p2.
Proof.
  exists 1, 13%nat, 0, 19%nat. repeat split; try reflexivity.
  intro H. discriminate H.
Qed.

(** ** C1: the simulator against the specification's description *)

Lemma under_35 (n : nat) : JS.Qltb (of_nat n) 3.5 = (n <=? 3)%nat.
Proof.
  destruct (n <=? 3)%nat eqn:E.
  - apply Nat.leb_le in E. apply Qltb_true.
    apply of_nat_le in E. change (of_nat 3) with 3 in E. lra.
  - apply Nat.leb_gt in E. apply Qltb_false.
    assert (H : (4 <= n)%nat) by lia.
    apply of_nat_le in H. change (of_nat 4) with 4 in H. lra.
Qed.

Lemma over_55 (n : nat) : JS.Qltb 5.5 (of_nat n) = (6 <=? n)%nat.
Proof.
  destruct (6 <=? n)%nat eqn:E.
  - apply Nat.leb_le in E. apply Qltb_true.
    apply of_nat_le in E. change (of_nat 6) with 6 in E. lra.
  - apply Nat.leb_gt in E. apply Qltb_false.
    assert (H : (n <= 5)%nat) by lia.
    apply of_nat_le in H. change (of_nat 5) with 5 in H. lra.
Qed.

(** The test of the specification decides its success condition. *)
Lemma success_specb_iff (o : Orientation) (d : iteration_draws) :
  success_specb o d = true <-> success_spec o d.
Proof.
  unfold success_specb, success_spec.
  rewrite !andb_true_iff, <- !under_35, <- over_55, !Qltb_true.
  destruct o; rewrite orb_true_iff, !Nat.ltb_lt; unfold gt; tauto.
Qed.

(** The sampler of the code is the sampler of the specification: the loop
    of the code continues while [p > L], that of the specification stops
    when the accumulator is at or below [L], and [k] counts the
    multiplications. *)
Lemma poisson_loop_refines n L : forall p k u s,
  poisson_loop n L p k u s =
  match multiply_until n L p k u s with
  | Some (multiplications, s') => Some ((multiplications - 1)%nat, s')
  | None => None
  end.
Proof.
  induction n as [| n IH]; intros p k u s; [reflexivity |].
  cbn [poisson_loop multiply_until]. unfold bind, random.
  unfold JS.Qltb. destruct (Qle_bool (p * u s) L); cbn [negb].
  - reflexivity.
  - apply IH.
Qed.

Lemma poisson_refines exp fuel lambda u s :
  poisson exp fuel lambda u s = poisson_spec exp fuel lambda u s.
Proof.
  unfold poisson, poisson_spec, bind. rewrite poisson_loop_refines.
  destruct (multiply_until fuel (exp (- lambda)) 1 0%nat u s) as [[m s'] |];
    reflexivity.
Qed.

(** One iteration of the code is one iteration of the specification: the
    same six draws, and the success test on them. *)
Lemma iteration_refines exp fuel hG aG hC aC o u s :
  iteration exp fuel hG aG hC aC (orientation_flag o) u s =
  match draw_iteration exp fuel hG aG hC aC u s with
  | Some (d, s') => Some (success_specb o d, s')
  | None => None
  end.
Proof.
  unfold iteration, draw_iteration, bind.
  repeat match goal with
  | |- context [poisson exp fuel ?l u ?t] =>
      rewrite (poisson_refines exp fuel l u t);
      destruct (poisson_spec exp fuel l u t) as [[? ?] |]; [| reflexivity]
  end.
  unfold ret, success_specb. cbn [h1_home h1_away h2_home h2_away
                                  corners_home corners_away].
  rewrite !under_35, over_55. destruct o; reflexivity.
Qed.

(** The loop counts the successful iterations. *)
Lemma simulate_loop_refines exp fuel hG aG hC aC o n :
  forall successCount u s,
    simulate_loop exp fuel hG aG hC aC (orientation_flag o) n successCount
      u s =
    match draw_iterations exp fuel hG aG hC aC n u s with
    | Some (ds, s') =>
        Some ((successCount + List.length (filter (success_specb o) ds))%nat,
              s')
    | None => None
    end.
Proof.
  induction n as [| n IH]; intros sc u s.
  - cbn. unfold ret. rewrite Nat.add_0_r. reflexivity.
  - cbn [simulate_loop draw_iterations]. unfold bind.
    rewrite iteration_refines.
    destruct (draw_iteration exp fuel hG aG hC aC u s) as [[d s1] |];
      [| reflexivity].
    rewrite IH.
    destruct (draw_iterations exp fuel hG aG hC aC n u s1) as [[ds s2] |];
      [| reflexivity].
    unfold ret. cbn [filter].
    destruct (success_specb o d); cbn [List.length]; do 2 f_equal; lia.
Qed.

(** C1, as the code has it.  For every match parameters, orientation and
    positive iteration count, [simulateMatch] computes the probability of
    the simulator of the specification and returns that number alone: its
    sampler is the multiply-until-at-or-below-[e^(- lambda)] sampler of the
    specification, returning the number of multiplications minus one; each
    iteration makes six such draws in turn (home and away goals of the first
    half at 0.45 of each side's expected goals, of the second half at 0.55,
    then the two corner counts at each side's expected corners); the
    iteration counts as a success exactly when both halves have strictly
    fewer than 3.5 goals, the designated team has strictly more goals than
    the opponent in one half at least (mirrored for the away orientation)
    and the corner total is strictly above 5.5; the number returned is the
    [probability] field of the specification's result, successes divided by
    iterations.  The [iterationCount] field of that result is the count the
    caller passed (20000 by default); the code does not return it. *)
Theorem simulateMatch_refines_spec
    (exp : Q -> Q) (fuel : nat) (homeExpG awayExpG homeExpC awayExpC : Q)
    (o : Orientation) (iterations : nat) (u : stream) (s : cursor) :
  (0 < iterations)%nat ->
  simulateMatch exp fuel homeExpG awayExpG homeExpC awayExpC
    (orientation_flag o) iterations u s
  = match simulate_spec exp fuel homeExpG awayExpG homeExpC awayExpC o
            iterations u s with
    | Some (result, s') => Some (probability result, s')
    | None => None
    end
  /\ (forall result s',
        simulate_spec exp fuel homeExpG awayExpG homeExpC awayExpC o
          iterations u s = Some (result, s') ->
        iterationCount result = iterations)
  /\ (forall lambda t,
        poisson exp fuel lambda u t = poisson_spec exp fuel lambda u t)
  /\ (forall d, success_specb o d = true <-> success_spec o d)
  /\ Z.of_nat default_iterations = 20000%Z.
Proof.
  intros _.
  split; [| split; [| split; [| split]]].
  - unfold simulateMatch, simulate_spec, bind.
    rewrite simulate_loop_refines.
    destruct (draw_iterations exp fuel homeExpG awayExpG homeExpC awayExpC
                iterations u s) as [[ds s'] |]; reflexivity.
  - intros result s' H. unfold simulate_spec in H. apply bind_Some in H.
    destruct H as (ds & s1 & _ & H). unfold ret in H.
    inversion H; subst. reflexivity.
  - intros lambda t. apply poisson_refines.
  - apply success_specb_iff.
  - reflexivity.
Qed.

Lemma simulateMatch_refines_spec_witness :
  simulateMatch exp_approx 10 1.5 1.1 5.2 4.6
    (orientation_flag DesignatedIsHome) 2 halves 0%nat
  = match simulate_spec exp_approx 10 1.5 1.1 5.2 4.6 DesignatedIsHome
            2 halves 0%nat with
    | Some (result, s') => Some (probability result, s')
    | None => None
    end.
Proof.
  apply (simulateMatch_refines_spec exp_approx 10 1.5 1.1 5.2 4.6
           DesignatedIsHome 2 halves 0%nat).
  lia.
Defined.

(** C1, as stated, fails in its last part: [simulateMatch] returns a bare
    number, with no iteration count beside it.  A run of one iteration and a
    run of two iterations return the same number (1, every iteration
    succeeding), while the results the specification describes carry the
    different counts 1 and 2. *)
Lemma simulateMatch_returns_no_iteration_count :
  exists p1 s1 p2 s2 r1 r2,
    simulateMatch exp_approx 10 1.5 1.1 5.2 4.6 true 1 halves 0%nat
    = Some (p1, s1) /\
    simulateMatch exp_approx 10 1.5 1.1 5.2 4.6 true 2 halves 0%nat
    = Some (p2, s2) /\
    p1 == p2 /\
    simulate_spec exp_approx 10 1.5 1.1 5.2 4.6 DesignatedIsHome 1 halves
      0%nat = Some (r1, s1) /\
    simulate_spec exp_approx 10 1.5 1.1 5.2 4.6 DesignatedIsHome 2 halves
      0%nat = Some (r2, s2) /\
    iterationCount r1 <> iterationCount r2.
Proof.
  exists (1 # 1), 20%nat, (2 # 2), 40%nat,
    {| probability := 1 # 1; iterationCount := 1 |},
    {| probability := 2 # 2; iterationCount := 2 |}.
  repeat split; try reflexivity.
  cbn. discriminate.
Qed.

(** ** C7: the range of the estimate *)

Lemma simulate_loop_count exp fuel hG aG hC aC flag n :
  forall successCount u s count s',
    simulate_loop exp fuel hG aG hC aC flag n successCount u s
    = Some (count, s') ->
    (successCount <= count <= successCount + n)%nat.
Proof.
  induction n as [| n IH]; intros sc u s count s' H.
  - cbn in H. unfold ret in H. inversion H; subst. lia.
  - cbn [simulate_loop] in H. apply bind_Some in H.
    destruct H as (ok & s1 & _ & H). apply IH in H.
    destruct ok; lia.
Qed.

Lemma ratio_in_unit_interval (count n : nat) :
  (count <= n)%nat -> (0 < n)%nat ->
  0 <= of_nat count / of_nat n /\ of_nat count / of_nat n <= 1.
Proof.
  intros Hle Hn.
  apply of_nat_le in Hle. apply of_nat_lt in Hn.
  change (of_nat 0) with 0 in Hn. pose proof (of_nat_nonneg count) as H0.
  split.
  - apply Qle_shift_div_l; [exact Hn | lra].
  - apply Qle_shift_div_r; [exact Hn | lra].
Qed.

Lemma simulateMatch_range exp fuel hG aG hC aC flag iterations u s p s' :
  (0 < iterations)%nat ->
  simulateMatch exp fuel hG aG hC aC flag iterations u s = Some (p, s') ->
  0 <= p /\ p <= 1.
Proof.
  intros Hn H. unfold simulateMatch in H. apply bind_Some in H.
  destruct H as (count & s1 & E & H). unfold ret in H.
  inversion H; subst. apply simulate_loop_count in E.
  apply ratio_in_unit_interval; lia.
Qed.

(** C7.  For every match parameters, orientation and positive iteration
    count, [simulateMatch] returns (on uniform draws, with the fuel
    [fuel_for_all] computes) and every probability it returns lies in the
    closed interval [[0, 1]]. *)
Theorem simulateMatch_probability_in_unit_interval
    (exp : Q -> Q) (c : Q) (u : stream) (fuel : nat)
    (homeExpG awayExpG homeExpC awayExpC : Q) (flag : bool)
    (iterations : nat) (s : cursor) :
  (forall x, 0 < exp x) ->
  c < 1 ->
  uniform_draws c u ->
  (fuel_for_all exp c (rates homeExpG awayExpG homeExpC awayExpC)
   <= fuel)%nat ->
  (0 < iterations)%nat ->
  (exists p s',
     simulateMatch exp fuel homeExpG awayExpG homeExpC awayExpC flag
       iterations u s = Some (p, s')) /\
  (forall p s',
     simulateMatch exp fuel homeExpG awayExpG homeExpC awayExpC flag
       iterations u s = Some (p, s') ->
     0 <= p /\ p <= 1).
Proof.
  intros Hpos Hc Hu Hf Hn. split.
  - apply simulateMatch_returns with (c := c); assumption.
  - intros p s' H. apply simulateMatch_range in H; assumption.
Qed.

Lemma simulateMatch_probability_in_unit_interval_witness :
  (exists p s',
     simulateMatch exp_approx 400 1.5 1.1 5.2 4.6 true default_iterations
       halves 0%nat = Some (p, s')) /\
  (forall p s',
     simulateMatch exp_approx 400 1.5 1.1 5.2 4.6 true default_iterations
       halves 0%nat = Some (p, s') ->
     0 <= p /\ p <= 1).
Proof.
  apply (simulateMatch_probability_in_unit_interval exp_approx (1 # 2) halves
           400 1.5 1.1 5.2 4.6 true default_iterations 0%nat).
  - exact exp_approx_pos.
  - reflexivity.
  - exact halves_uniform.
  - apply Nat.leb_le. vm_compute. reflexivity.
  - unfold default_iterations. lia.
Defined.

(** ** C2: no validation *)

(** When every Poisson draw of a run returns 0 after one uniform draw, no
    iteration succeeds (there are no corners) and the run returns
    [0 / iterations] after six draws per iteration. *)
Section AllZeroCounts.

Variable exp : Q -> Q.
Variable fuel : nat.
Variable u : stream.
Variables hG aG hC aC : Q.
Hypothesis zero_counts :
  forall l, In l (rates hG aG hC aC) ->
  forall t, poisson exp fuel l u t = Some (0%nat, S t).

Lemma iteration_without_counts flag s :
  iteration exp fuel hG aG hC aC flag u s = Some (false, (6 + s)%nat).
Proof.
  unfold iteration, bind.
  repeat (rewrite zero_counts by (cbn; tauto)).
  unfold ret. destruct flag; reflexivity.
Qed.

Lemma simulate_loop_without_counts flag n :
  forall successCount s,
    simulate_loop exp fuel hG aG hC aC flag n successCount u s
    = Some (successCount, (6 * n + s)%nat).
Proof.
  induction n as [| n IH]; intros sc s.
  - reflexivity.
  - cbn [simulate_loop]. unfold bind.
    rewrite iteration_without_counts, IH. do 2 f_equal. lia.
Qed.

Lemma simulateMatch_without_counts flag iterations s :
  simulateMatch exp fuel hG aG hC aC flag iterations u s
  = Some (of_nat 0 / of_nat iterations, (6 * iterations + s)%nat).
Proof.
  unfold simulateMatch, bind.
  rewrite simulate_loop_without_counts. reflexivity.
Qed.

End AllZeroCounts.

(** C2, as the code has it.  [simulateMatch] validates nothing and raises
    nothing: for every four rates, of any sign, whose thresholds
    [exp (- rate)] are at least the smallest normal double, and every
    positive number of iterations, it runs its iterations and returns a
    probability; a Poisson draw at a rate [lambda <= 0] returns 0 after one
    uniform draw, so with four rates at or below zero the simulation makes
    its six draws per iteration and returns [0 / iterations], which is 0. *)
Theorem simulateMatch_runs_on_any_rates
    (exp : Q -> Q) (c : Q) (u : stream)
    (homeExpG awayExpG homeExpC awayExpC : Q) (flag : bool)
    (iterations : nat) (s : cursor) :
  (forall x, 0 <= x -> 1 <= exp x) ->
  c < 1 ->
  uniform_draws c u ->
  (0 < iterations)%nat ->
  (forall l, In l (rates homeExpG awayExpG homeExpC awayExpC) ->
     min_normal <= exp (- l)) ->
  (forall fuel,
     (fuel_for_all exp c (rates homeExpG awayExpG homeExpC awayExpC)
      <= fuel)%nat ->
     exists p s',
       simulateMatch exp fuel homeExpG awayExpG homeExpC awayExpC flag
         iterations u s = Some (p, s')) /\
  (forall fuel lambda t,
     (0 < fuel)%nat -> lambda <= 0 ->
     poisson exp fuel lambda u t = Some (0%nat, S t)) /\
  (homeExpG <= 0 -> awayExpG <= 0 -> homeExpC <= 0 -> awayExpC <= 0 ->
   forall fuel, (0 < fuel)%nat ->
     exists p,
       simulateMatch exp fuel homeExpG awayExpG homeExpC awayExpC flag
         iterations u s
       = Some (p, (6 * iterations + s)%nat) /\
       p = of_nat 0 / of_nat iterations /\ p == 0).
Proof.
  intros Hge Hc Hu Hn Hmin.
  assert (Hzero : forall fuel lambda t,
            (0 < fuel)%nat -> lambda <= 0 ->
            poisson exp fuel lambda u t = Some (0%nat, S t)).
  { intros fuel lambda t Hf Hl. apply poisson_one_draw; [exact Hf |].
    destruct (Hu t) as [_ H1].
    assert (H2 : 1 <= exp (- lambda)) by (apply Hge; lra).
    lra. }
  split; [| split].
  - intros fuel Hf. apply simulateMatch_returns_at with (c := c);
      try assumption.
    intros l Hin. pose proof (Hmin l Hin). pose proof min_normal_pos. lra.
  - exact Hzero.
  - intros H1 H2 H3 H4 fuel Hf.
    exists (of_nat 0 / of_nat iterations). split; [| split].
    + apply simulateMatch_without_counts.
      intros l Hin t. apply Hzero; [exact Hf |].
      cbn in Hin.
      repeat (destruct Hin as [<- | Hin]; [lra |]). destruct Hin.
    + reflexivity.
    + unfold Qdiv. change (of_nat 0) with 0. apply Qmult_0_l.
Qed.

Lemma simulateMatch_runs_on_any_rates_witness :
  (forall fuel,
     (fuel_for_all exp_approx (1 # 2) (rates 0 (-1) 0 (-2)) <= fuel)%nat ->
     exists p s',
       simulateMatch exp_approx fuel 0 (-1) 0 (-2) true 3 halves 0%nat
       = Some (p, s')) /\
  (forall fuel lambda t,
     (0 < fuel)%nat -> lambda <= 0 ->
     poisson exp_approx fuel lambda halves t = Some (0%nat, S t)) /\
  (0 <= 0 -> -1 <= 0 -> 0 <= 0 -> -2 <= 0 ->
   forall fuel, (0 < fuel)%nat ->
     exists p,
       simulateMatch exp_approx fuel 0 (-1) 0 (-2) true 3 halves 0%nat
       = Some (p, (6 * 3 + 0)%nat) /\
       p = of_nat 0 / of_nat 3 /\ p == 0).
Proof.
  apply (simulateMatch_runs_on_any_rates exp_approx (1 # 2) halves
           0 (-1) 0 (-2) true 3%nat 0%nat).
  - exact exp_approx_ge_1.
  - reflexivity.
  - exact halves_uniform.
  - lia.
  - intros l Hin. cbn in Hin.
    repeat (destruct Hin as [<- | Hin];
            [apply Qle_bool_iff; vm_compute; reflexivity |]).
    destruct Hin.
Defined.

(** C2, as stated, fails: with a zero expected-goals rate and a negative
    expected-corners rate the simulator runs (it takes its draws from the
    generator) and returns a number; no error is raised. *)
Lemma simulateMatch_accepts_nonpositive_rates :
  exists p,
    simulateMatch exp_approx 10 0 1.1 (-1) 4.6 true 2 halves 0%nat
    = Some (p, 24%nat) /\ p == 0.
Proof. exists (0 # 2). split; reflexivity. Qed.

(** ** The arithmetic of the handler *)

Lemma Qeq_bool_pos (x : Q) : 0 < x -> Qeq_bool x 0 = false.
Proof.
  intro H. destruct (Qeq_bool x 0) eqn:E; [| reflexivity].
  apply Qeq_bool_eq in E. lra.
Qed.

Lemma div_one_pos (x : Q) :
  0 < x -> JS.div (JS.Fin 1) (JS.Fin x) = JS.Fin (1 / x).
Proof.
  intro H. cbn [JS.div]. rewrite (Qeq_bool_pos _ H). reflexivity.
Qed.

Lemma div_one_zero (x : Q) :
  x == 0 -> JS.div (JS.Fin 1) (JS.Fin x) = JS.PosInf.
Proof.
  intro H. cbn [JS.div].
  assert (E : Qeq_bool x 0 = true) by (apply Qeq_bool_iff; exact H).
  rewrite E. reflexivity.
Qed.

(** With a positive probability every number of the record is finite, and
    is what the formulas give on the rationals. *)
Lemma build_analysis_positive (m : match_row) (p : Q) (b : bool) :
  0 < p ->
  let r := build_analysis m p b in
  probModel r = JS.Fin p /\
  oddAvg r = JS.Fin (1 / (p * 0.8)) /\
  bestOdd r = JS.Fin (1 / (p * 0.8) * 1.1) /\
  probImplied r = JS.Fin (1 / (1 / (p * 0.8) * 1.1)) /\
  edge r = JS.Fin (p - 1 / (1 / (p * 0.8) * 1.1)) /\
  ev r = JS.Fin (p * (1 / (p * 0.8) * 1.1) - 1).
Proof.
  intros Hp r. subst r. unfold build_analysis.
  cbn [probModel oddAvg bestOdd probImplied edge ev JS.mul].
  assert (H1 : 0 < p * 0.8) by lra.
  assert (H2 : 0 < 1 / (p * 0.8)).
  { unfold Qdiv. rewrite Qmult_1_l. apply Qinv_lt_0_compat. exact H1. }
  assert (H3 : 0 < 1 / (p * 0.8) * 1.1) by nra.
  rewrite !(div_one_pos _ H1). cbn [JS.mul].
  rewrite !(div_one_pos _ H3). cbn [JS.sub JS.mul].
  repeat split; reflexivity.
Qed.

(** With probability 0 the divisor is zero and the division gives
    [Infinity]; the expected value is [0 * Infinity - 1]. *)
Lemma build_analysis_zero (m : match_row) (p : Q) (b : bool) :
  p == 0 ->
  let r := build_analysis m p b in
  oddAvg r = JS.PosInf /\
  bestOdd r = JS.PosInf /\
  probImplied r = JS.Fin 0 /\
  edge r = JS.Fin (p - 0) /\
  ev r = JS.NaN.
Proof.
  intros Hp r. subst r. unfold build_analysis.
  cbn [probModel oddAvg bestOdd probImplied edge ev JS.mul].
  assert (H1 : p * 0.8 == 0) by (rewrite Hp; reflexivity).
  rewrite !(div_one_zero _ H1). cbn [JS.mul].
  change (JS.signed_inf 1.1) with JS.PosInf.
  cbn [JS.mul JS.div JS.sub].
  assert (H2 : JS.signed_inf p = JS.NaN).
  { unfold JS.signed_inf.
    assert (E1 : JS.Qltb 0 p = false) by (apply Qltb_false; lra).
    assert (E2 : JS.Qltb p 0 = false) by (apply Qltb_false; lra).
    rewrite E1, E2. reflexivity. }
  rewrite H2. repeat split; reflexivity.
Qed.

(** ** C4: the synthetic odds and the expected value, on doubles

    The model probability of an analysed match is [successCount / 20000] for
    a success count between 0 and 20000 (lines 111, 190-191 and 197), so the
    numbers of lines 200-204 take at most 20001 values: the properties below
    are checked at each of them, by evaluation of the double arithmetic. *)

Module DoubleFacts.

Import PrimFloat.
Local Open Scope float_scope.

Lemma all_from_spec (f : Z -> bool) (n : nat) : forall k,
  Double.all_from n k f = true ->
  forall j, (k <= j < k + Z.of_nat n)%Z -> f j = true.
Proof.
  induction n as [| n IH]; intros k H j Hj; [lia |].
  cbn [Double.all_from] in H. apply andb_true_iff in H.
  destruct H as [H1 H2].
  destruct (Z.eq_dec j k) as [-> | Hne]; [exact H1 |].
  apply (IH (k + 1)%Z H2). lia.
Qed.

Lemma value_near_constant_at_every_count :
  Double.all_from (Z.to_nat 20000) 1 Double.value_near_constant = true.
Proof. vm_compute. reflexivity. Qed.

Lemma well_formed_at_every_count :
  Double.all_from (Z.to_nat 20000) 1 Double.well_formed = true.
Proof. vm_compute. reflexivity. Qed.

(** C4, as the code has it.  For every analysed match whose model
    probability [p = successCount / 20000] is strictly positive, the
    expected value computed from the synthetic odds is within [2^-51] of
    0.375 and the record passes the [ev > 0] filter; the edge is positive
    and within [2^-52] of [p * (1 - 0.8 / 1.1)]. *)
Theorem positive_probability_gives_near_constant_ev (successCount : Z) :
  (1 <= successCount <= 20000)%Z ->
  let p := Double.ratio successCount 20000 in
  let r := Double.prices_at successCount in
  Double.close 0x1p-51 (Double.ev r) 0.375 = true /\
  Double.passes_filter r = true /\
  ltb 0 (Double.edge r) = true /\
  Double.close 0x1p-52 (Double.edge r) (p * (1 - 0.8 / 1.1)) = true.
Proof.
  intros Hk p r.
  assert (H : Double.value_near_constant successCount = true).
  { apply (all_from_spec _ _ _ value_near_constant_at_every_count).
    rewrite Z2Nat.id; lia. }
  unfold Double.value_near_constant in H. cbv zeta in H.
  fold (Double.prices_at successCount) in H. fold r in H. fold p in H.
  apply andb_true_iff in H. destruct H as [H H4].
  apply andb_true_iff in H. destruct H as [H H3].
  apply andb_true_iff in H. destruct H as [H1 H2].
  repeat split; assumption.
Qed.

Lemma positive_probability_gives_near_constant_ev_witness :
  let p := Double.ratio 13 20000 in
  let r := Double.prices_at 13 in
  Double.close 0x1p-51 (Double.ev r) 0.375 = true /\
  Double.passes_filter r = true /\
  ltb 0 (Double.edge r) = true /\
  Double.close 0x1p-52 (Double.edge r) (p * (1 - 0.8 / 1.1)) = true.
Proof.
  apply (positive_probability_gives_near_constant_ev 13). lia.
Defined.

(** C4, as stated, fails: with 13 successes out of 20000 the model
    probability is 0.00065, the best odds computed from it are
    2115.3846153846157 and the expected value is [0.375 + 2^-52], which is
    not 0.375; with 21 successes it is [0.375 - 2^-52]. *)
Lemma expected_value_is_not_constant :
  Double.ev (Double.prices_at 13) = 0.375 + 0x1p-52 /\
  eqb (Double.ev (Double.prices_at 13)) 0.375 = false /\
  Double.ev (Double.prices_at 21) = 0.375 - 0x1p-52 /\
  eqb (Double.ev (Double.prices_at 21)) 0.375 = false /\
  eqb (Double.ev (Double.prices_at 13)) (Double.ev (Double.prices_at 21))
  = false.
Proof. vm_compute. repeat split; reflexivity. Qed.

(** X5.  For a positive model probability [p = successCount / 20000] the
    synthetic prices are well-formed: all five numbers are finite, the best
    odds are above the average odds and at least 1.375, and the implied
    probability is strictly between 0 and [p]. *)
Theorem prices_well_formed (successCount : Z) :
  (1 <= successCount <= 20000)%Z ->
  let p := Double.ratio successCount 20000 in
  let r := Double.prices_at successCount in
  (Double.finite (Double.oddAvg r) = true /\
   Double.finite (Double.bestOdd r) = true /\
   Double.finite (Double.probImplied r) = true /\
   Double.finite (Double.edge r) = true /\
   Double.finite (Double.ev r) = true) /\
  ltb (Double.oddAvg r) (Double.bestOdd r) = true /\
  leb 1.375 (Double.bestOdd r) = true /\
  ltb 0 (Double.probImplied r) = true /\
  ltb (Double.probImplied r) p = true.
Proof.
  intros Hk p r.
  assert (H : Double.well_formed successCount = true).
  { apply (all_from_spec _ _ _ well_formed_at_every_count).
    rewrite Z2Nat.id; lia. }
  unfold Double.well_formed in H. cbv zeta in H.
  fold (Double.prices_at successCount) in H. fold r in H. fold p in H.
  do 8 (apply andb_true_iff in H;
        let H' := fresh "H" in destruct H as [H H']).
  repeat split; assumption.
Qed.

Lemma prices_well_formed_witness :
  let p := Double.ratio 4000 20000 in
  let r := Double.prices_at 4000 in
  (Double.finite (Double.oddAvg r) = true /\
   Double.finite (Double.bestOdd r) = true /\
   Double.finite (Double.probImplied r) = true /\
   Double.finite (Double.edge r) = true /\
   Double.finite (Double.ev r) = true) /\
  ltb (Double.oddAvg r) (Double.bestOdd r) = true /\
  leb 1.375 (Double.bestOdd r) = true /\
  ltb 0 (Double.probImplied r) = true /\
  ltb (Double.probImplied r) p = true.
Proof.
  apply (prices_well_formed 4000). lia.
Defined.

End DoubleFacts.

(** ** C8: implied probability, edge and expected value *)



(** ** C9: the divisor of the synthetic odds *)

(** C9, as the code has it.  For a model probability [p >= 0], the divisor
    [p * 0.8] is non-zero exactly when [p > 0]; the average odds and the
    expected value are finite exactly when [p > 0]; the edge is finite in
    both cases. *)
Theorem build_analysis_finite_iff_positive
    (m : match_row) (p : Q) (b : bool) :
  0 <= p ->
  let r := build_analysis m p b in
  (~ p * 0.8 == 0 <-> 0 < p) /\
  (JS.is_finite (oddAvg r) = true <-> 0 < p) /\
  (JS.is_finite (ev r) = true <-> 0 < p) /\
  JS.is_finite (edge r) = true.
Proof.
  intros Hp r. destruct (Qlt_le_dec 0 p) as [Hpos | Hzero].
  - destruct (build_analysis_positive m p b Hpos)
      as (_ & Ha & _ & _ & He & Hv).
    fold r in Ha, He, Hv. rewrite Ha, He, Hv. cbn [JS.is_finite].
    repeat split; auto; intros; lra.
  - assert (H0 : p == 0) by lra.
    destruct (build_analysis_zero m p b H0) as (Ha & _ & _ & He & Hv).
    fold r in Ha, He, Hv. rewrite Ha, He, Hv. cbn [JS.is_finite].
    repeat split; try discriminate; try lra; try reflexivity.
Qed.

Lemma build_analysis_finite_iff_positive_witness :
  let r := build_analysis sample_row (1 # 5) true in
  (~ (1 # 5) * 0.8 == 0 <-> 0 < 1 # 5) /\
  (JS.is_finite (oddAvg r) = true <-> 0 < 1 # 5) /\
  (JS.is_finite (ev r) = true <-> 0 < 1 # 5) /\
  JS.is_finite (edge r) = true.
Proof.
  apply (build_analysis_finite_iff_positive sample_row (1 # 5) true).
  discriminate.
Defined.

(** ** C3: the orientation the handler reports *)

(** The callback, with its binds unfolded: four draws for the rates, the
    simulation with the home side designated, then the simulation with the
    away side designated, on the generator as the first one left it. *)
Lemma analyzeMatch_unfold exp fuel m u s :
  analyzeMatch exp fuel m u s =
  let homeExpG := 1.2 + u s * 0.8 in
  let awayExpG := 1.0 + u (1 + s)%nat * 0.8 in
  let homeExpC := 4.5 + u (2 + s)%nat * 2 in
  let awayExpC := 4.0 + u (3 + s)%nat * 2 in
  match simulateMatch exp fuel homeExpG awayExpG homeExpC awayExpC true
          default_iterations u (4 + s)%nat with
  | Some (probHomeY, s1) =>
      match simulateMatch exp fuel homeExpG awayExpG homeExpC awayExpC false
              default_iterations u s1 with
      | Some (probAwayY, s2) =>
          Some (build_analysis m
                  (if Qle_bool probAwayY probHomeY
                   then probHomeY else probAwayY)
                  (Qle_bool probAwayY probHomeY), s2)
      | None => None
      end
  | None => None
  end.
Proof. reflexivity. Qed.

(** C3.  For every match the callback runs the simulator twice, first with
    the home side designated, then with the away side designated (the second
    run starts where the first one left the generator, and the callback ends
    where the second one ends); the record reports the probability and the
    orientation of the run with the higher probability, and the home
    orientation when the two are equal. *)
Theorem analyzeMatch_reports_better_orientation
    (exp : Q -> Q) (c : Q) (u : stream) (fuel : nat) (m : match_row)
    (s : cursor) :
  (forall x, 0 < exp x) ->
  c < 1 ->
  uniform_draws c u ->
  let homeExpG := 1.2 + u s * 0.8 in
  let awayExpG := 1.0 + u (1 + s)%nat * 0.8 in
  let homeExpC := 4.5 + u (2 + s)%nat * 2 in
  let awayExpC := 4.0 + u (3 + s)%nat * 2 in
  (fuel_for_all exp c (rates homeExpG awayExpG homeExpC awayExpC)
   <= fuel)%nat ->
  exists probHomeY s1 probAwayY s2 r,
    simulateMatch exp fuel homeExpG awayExpG homeExpC awayExpC
      (orientation_flag DesignatedIsHome) default_iterations u (4 + s)%nat
    = Some (probHomeY, s1) /\
    simulateMatch exp fuel homeExpG awayExpG homeExpC awayExpC
      (orientation_flag DesignatedIsAway) default_iterations u s1
    = Some (probAwayY, s2) /\
    analyzeMatch exp fuel m u s = Some (r, s2) /\
    (probAwayY < probHomeY ->
     probModel r = JS.Fin probHomeY /\ isTeamYHome r = true) /\
    (probHomeY < probAwayY ->
     probModel r = JS.Fin probAwayY /\ isTeamYHome r = false) /\
    (probHomeY == probAwayY ->
     probModel r = JS.Fin probHomeY /\ isTeamYHome r = true).
Proof.
  intros Hpos Hc Hu hG aG hC aC Hf.
  destruct (simulateMatch_returns exp c Hpos Hc u Hu fuel hG aG hC aC true
              default_iterations (4 + s)%nat Hf) as (pH & s1 & E1).
  destruct (simulateMatch_returns exp c Hpos Hc u Hu fuel hG aG hC aC false
              default_iterations s1 Hf) as (pA & s2 & E2).
  exists pH, s1, pA, s2.
  eexists. split; [exact E1 |]. split; [exact E2 |].
  split.
  - rewrite analyzeMatch_unfold. fold hG aG hC aC.
    cbv zeta. rewrite E1, E2. reflexivity.
  - unfold build_analysis. cbn [probModel isTeamYHome].
    split; [| split]; intro H.
    + assert (E : Qle_bool pA pH = true) by (apply Qle_bool_iff; lra).
      rewrite E. split; reflexivity.
    + assert (E : Qle_bool pA pH = false).
      { destruct (Qle_bool pA pH) eqn:E; [| reflexivity].
        apply Qle_bool_iff in E. lra. }
      rewrite E. split; reflexivity.
    + assert (E : Qle_bool pA pH = true) by (apply Qle_bool_iff; lra).
      rewrite E. split; reflexivity.
Qed.

Lemma analyzeMatch_reports_better_orientation_witness :
  let homeExpG := 1.2 + halves 0%nat * 0.8 in
  let awayExpG := 1.0 + halves 1%nat * 0.8 in
  let homeExpC := 4.5 + halves 2%nat * 2 in
  let awayExpC := 4.0 + halves 3%nat * 2 in
  exists probHomeY s1 probAwayY s2 r,
    simulateMatch exp_approx 500 homeExpG awayExpG homeExpC awayExpC
      true default_iterations halves 4%nat
    = Some (probHomeY, s1) /\
    simulateMatch exp_approx 500 homeExpG awayExpG homeExpC awayExpC
      false default_iterations halves s1
    = Some (probAwayY, s2) /\
    analyzeMatch exp_approx 500 sample_row halves 0%nat = Some (r, s2) /\
    (probAwayY < probHomeY ->
     probModel r = JS.Fin probHomeY /\ isTeamYHome r = true) /\
    (probHomeY < probAwayY ->
     probModel r = JS.Fin probAwayY /\ isTeamYHome r = false) /\
    (probHomeY == probAwayY ->
     probModel r = JS.Fin probHomeY /\ isTeamYHome r = true).
Proof.
  apply (analyzeMatch_reports_better_orientation exp_approx (1 # 2) halves
           500 sample_row 0%nat).
  - exact exp_approx_pos.
  - reflexivity.
  - exact halves_uniform.
  - apply Nat.leb_le. vm_compute. reflexivity.
Defined.

(** On the stream of zeros every Poisson draw returns 0 after one uniform
    draw, whatever its rate. *)
Lemma poisson_on_zeros fuel lambda t :
  (0 < fuel)%nat ->
  poisson exp_approx fuel lambda zeros t = Some (0%nat, S t).
Proof.
  intro Hf. apply poisson_one_draw; [exact Hf |].
  pose proof (exp_approx_pos (- lambda)). unfold zeros. lra.
Qed.

Lemma simulateMatch_on_zeros hG aG hC aC flag iterations s :
  simulateMatch exp_approx 1 hG aG hC aC flag iterations zeros s
  = Some (of_nat 0 / of_nat iterations, (6 * iterations + s)%nat).
Proof.
  apply simulateMatch_without_counts.
  intros l _ t. apply poisson_on_zeros. lia.
Qed.

(** C9, as stated, fails: when no iteration succeeds (here because the
    generator returns 0 at every call, so that no corner is ever drawn) the
    model probability is 0, the divisor [probModel * 0.8] is zero, the
    average and best odds are [Infinity] and the expected value is [NaN]. *)
Lemma analyzeMatch_zero_probability_gives_NaN :
  exists r s',
    analyzeMatch exp_approx 1 sample_row zeros 0%nat = Some (r, s') /\
    JS.same (probModel r) (JS.Fin 0) /\
    JS.same (JS.mul (probModel r) (JS.Fin 0.8)) (JS.Fin 0) /\
    oddAvg r = JS.PosInf /\
    bestOdd r = JS.PosInf /\
    ev r = JS.NaN /\
    positive_ev r = false.
Proof.
  set (p := of_nat 0 / of_nat default_iterations).
  assert (Hp : p == 0) by reflexivity.
  exists (build_analysis sample_row (if Qle_bool p p then p else p)
            (Qle_bool p p)).
  eexists. split.
  - rewrite analyzeMatch_unfold. cbv zeta.
    rewrite !simulateMatch_on_zeros. fold p. reflexivity.
  - assert (E : Qle_bool p p = true) by (apply Qle_bool_iff; lra).
    rewrite E.
    destruct (build_analysis_zero sample_row p true Hp)
      as (Ha & Hb & _ & _ & Hv).
    cbv zeta in Ha, Hb, Hv.
    split; [exact Hp |]. split; [cbn; rewrite Hp; reflexivity |].
    split; [exact Ha |]. split; [exact Hb |]. split; [exact Hv |].
    unfold positive_ev. rewrite Hv. reflexivity.
Qed.

(** ** C10: the filter and the cap *)

Lemma subsequence_refl {A : Type} (l : list A) : subsequence l l.
Proof.
  induction l; constructor; assumption.
Qed.

Lemma subsequence_trans {A : Type} (l1 l2 l3 : list A) :
  subsequence l1 l2 -> subsequence l2 l3 -> subsequence l1 l3.
Proof.
  intros H12 H23. revert l1 H12.
  induction H23 as [| x l2 l3 H IH | x l2 l3 H IH]; intros l1 H12.
  - exact H12.
  - constructor. apply IH. exact H12.
  - inversion H12; subst.
    + constructor. apply IH. assumption.
    + apply subsequence_keep. apply IH. assumption.
Qed.

Lemma subsequence_filter {A : Type} (f : A -> bool) (l : list A) :
  subsequence (filter f l) l.
Proof.
  induction l as [| x l IH]; cbn [filter]; [constructor |].
  destruct (f x); constructor; exact IH.
Qed.

Lemma subsequence_firstn {A : Type} (n : nat) (l : list A) :
  subsequence (firstn n l) l.
Proof.
  revert n. induction l as [| x l IH]; intros [| n]; cbn [firstn].
  - constructor.
  - constructor.
  - constructor. apply (IH 0%nat).
  - apply subsequence_keep. apply IH.
Qed.

(** C10.  Given any list of analysed matches, the handler's last step keeps
    the entries whose expected value is strictly above 0 (an entry whose
    expected value is [NaN] is dropped), in the order of the input, and
    returns the first 50 of them: the result is the longest prefix of at
    most 50 entries of the filtered list; it is the whole filtered list when
    that has at most 50 entries. *)
Theorem filtered_keeps_first_50_positive (analyzedMatches : list analysis) :
  let positive := filter positive_ev analyzedMatches in
  filtered analyzedMatches = firstn 50 positive /\
  (exists dropped, positive = filtered analyzedMatches ++ dropped) /\
  List.length (filtered analyzedMatches)
  = Nat.min 50 (List.length positive) /\
  subsequence (filtered analyzedMatches) analyzedMatches /\
  (forall a, In a (filtered analyzedMatches) ->
     In a analyzedMatches /\ JS.gt (ev a) (JS.Fin 0) = true) /\
  (forall a, In a positive <->
     In a analyzedMatches /\ JS.gt (ev a) (JS.Fin 0) = true) /\
  ((List.length positive <= 50)%nat -> filtered analyzedMatches = positive).
Proof.
  intro positive. unfold filtered. fold positive.
  split; [reflexivity |]. split; [| split; [| split; [| split; [| split]]]].
  - exists (skipn 50 positive). symmetry. apply firstn_skipn.
  - apply length_firstn.
  - apply subsequence_trans with (l2 := positive).
    + apply subsequence_firstn.
    + apply subsequence_filter.
  - intros a Hin.
    assert (Hp : In a positive).
    { rewrite <- (firstn_skipn 50 positive). apply in_or_app. left.
      exact Hin. }
    apply filter_In in Hp. exact Hp.
  - intro a. apply filter_In.
  - intro Hlen. apply firstn_all2. exact Hlen.
Qed.

Lemma filtered_keeps_first_50_positive_witness :
  let l := [build_analysis sample_row (1 # 5) true;
            build_analysis sample_row 0 true;
            build_analysis sample_row (1 # 10) false] in
  (List.length (filter positive_ev l) <= 50)%nat /\
  filtered l = [build_analysis sample_row (1 # 5) true;
                build_analysis sample_row (1 # 10) false].
Proof.
  intro l. split; [vm_compute; lia |].
  destruct (filtered_keeps_first_50_positive l)
    as (_ & _ & _ & _ & _ & _ & H).
  rewrite H; [reflexivity | vm_compute; lia].
Defined.

(** The scenario of the specification: of five entries with expected values
    0.3, -0.1, 0.05, 0 and 0.4, the three positive ones are kept, in their
    order. *)
Example filtered_five_entries :
  map ev (filtered (map with_ev [0.3; -0.1; 0.05; 0; 0.4]))
  = [JS.Fin 0.3; JS.Fin 0.05; JS.Fin 0.4].
Proof. reflexivity. Qed.

(** The handler sends [filtered] of the records the callback built, in the
    order of the rows. *)
Lemma analysis_handler_unfold exp fuel matches u s :
  analysis_handler exp fuel matches u s =
  match mapM (analyzeMatch exp fuel) matches u s with
  | Some (analyzedMatches, s') => Some (filtered analyzedMatches, s')
  | None => None
  end.
Proof. reflexivity. Qed.

(** Every record the callback returns is built from a probability in
    [[0, 1]]: the values of [p] the theorems on [build_analysis] range over
    are those the handler reaches. *)
Lemma analyzeMatch_builds exp fuel m u s r s' :
  analyzeMatch exp fuel m u s = Some (r, s') ->
  exists p b, r = build_analysis m p b /\ 0 <= p /\ p <= 1.
Proof.
  assert (Hn : (0 < default_iterations)%nat)
    by (unfold default_iterations; lia).
  rewrite analyzeMatch_unfold. cbv zeta.
  generalize dependent default_iterations. intros n Hn.
  destruct (simulateMatch exp fuel _ _ _ _ true n u (4 + s)%nat)
    as [[pH s1] |] eqn:E1; [| discriminate].
  destruct (simulateMatch exp fuel _ _ _ _ false n u s1)
    as [[pA s2] |] eqn:E2; [| discriminate].
  intro H. injection H as Hr Hs. subst r.
  eexists _, _. split; [reflexivity |].
  apply simulateMatch_range in E1; [| exact Hn].
  apply simulateMatch_range in E2; [| exact Hn].
  destruct (Qle_bool pA pH); tauto.
Qed.

(** A record the callback returns with a positive model probability passes
    the filter of the handler. *)
Lemma analyzeMatch_positive_passes_filter exp fuel m u s r s' p :
  analyzeMatch exp fuel m u s = Some (r, s') ->
  probModel r = JS.Fin p ->
  0 < p ->
  positive_ev r = true.
Proof.
  intros H Hr Hp.
  destruct (analyzeMatch_builds exp fuel m u s r s' H) as (q & b & -> & _).
  cbn [build_analysis probModel] in Hr. injection Hr as Hq. subst q.
  destruct (build_analysis_positive m p b Hp) as (_ & _ & _ & _ & _ & Hv).
  cbv zeta in Hv. unfold positive_ev. rewrite Hv. cbn [JS.gt].
  apply Qltb_true.
  assert (E : p * (1 / (p * 0.8) * 1.1) - 1 == 0.375) by (field; lra).
  rewrite E. reflexivity.
Qed.

(** * Further properties of the sampler and the simulator *)

(** ** The sampler: Knuth's exit condition *)

(** A loop with fuel [n] takes at most [n] draws. *)
Lemma poisson_loop_draws_le_fuel n L : forall p k u s k' s',
  poisson_loop n L p k u s = Some (k', s') -> (s' - s <= n)%nat.
Proof.
  induction n as [| n IH]; intros p k u s k' s' H; [discriminate |].
  cbn [poisson_loop] in H. unfold bind, random in H.
  destruct (JS.Qltb L (p * u s)).
  - apply IH in H. lia.
  - unfold ret in H. inversion H; subst. lia.
Qed.

(** The loop returns as soon as the accumulator is at or below [L]. *)
Lemma poisson_loop_complete n L : forall p k u s m,
  (m < n)%nat ->
  (forall j, (0 < j <= m)%nat -> L < accumulate p u s j) ->
  accumulate p u s (S m) <= L ->
  poisson_loop n L p k u s = Some ((k + m)%nat, (s + S m)%nat).
Proof.
  induction n as [| n IH]; intros p k u s m Hm Hgt Hle; [lia |].
  cbn [poisson_loop]. unfold bind, random.
  destruct m as [| m].
  - cbn [accumulate] in Hle.
    assert (E : JS.Qltb L (p * u s) = false) by (apply Qltb_false; exact Hle).
    rewrite E. unfold ret.
    replace (S k - 1)%nat with (k + 0)%nat by lia.
    replace (s + 1)%nat with (S s) by lia. reflexivity.
  - assert (E : JS.Qltb L (p * u s) = true).
    { apply Qltb_true. apply (Hgt 1%nat). lia. }
    rewrite E. rewrite (IH (p * u s) (S k) u (S s) m).
    + replace (S k + m)%nat with (k + S m)%nat by lia.
      replace (S s + S m)%nat with (s + S (S m))%nat by lia. reflexivity.
    + lia.
    + intros j Hj. apply (Hgt (S j)). lia.
    + exact Hle.
Qed.

(** In the exact arithmetic of the model, [poisson] returns [k] exactly
    when the product of the first [k] draws is still above [exp (- lambda)]
    (and so were the shorter products) and the product of the first [k + 1]
    draws is not.  It then has consumed [k + 1] draws, which the fuel must
    allow. *)
Lemma poisson_first_crossing
    (exp : Q -> Q) (fuel : nat) (lambda : Q) (u : stream) (s : cursor)
    (k : nat) (s' : cursor) :
  poisson exp fuel lambda u s = Some (k, s') <->
  (k < fuel)%nat /\
  s' = (s + k + 1)%nat /\
  (forall j, (0 < j <= k)%nat -> exp (- lambda) < accumulate 1 u s j) /\
  accumulate 1 u s (k + 1) <= exp (- lambda).
Proof.
  unfold poisson. split.
  - intro H. pose proof (poisson_loop_draws_le_fuel _ _ _ _ _ _ _ _ H) as Hf.
    apply poisson_loop_result in H. destruct H as (Hs & Hk & Hle & Hgt).
    assert (Hd : (s' - s = k + 1)%nat) by lia.
    rewrite Hd in Hle, Hgt.
    repeat split; try lia.
    + intros j Hj. apply Hgt. lia.
    + exact Hle.
  - intros (Hk & -> & Hgt & Hle).
    rewrite (poisson_loop_complete fuel (exp (- lambda)) 1 0%nat u s k);
      try assumption.
    + replace (s + S k)%nat with (s + k + 1)%nat by lia. reflexivity.
    + replace (S k) with (k + 1)%nat by lia. exact Hle.
Qed.

(** X1.  [poisson] returns 0 exactly when the first draw is at or below
    [exp (- lambda)]: the accumulator starts at 1, so after the first
    multiplication it is the draw itself; the sampler then has consumed that
    one draw, and only then. *)
Theorem poisson_returns_zero_iff_first_draw_below
    (exp : Q -> Q) (fuel : nat) (lambda : Q) (u : stream) (s : cursor) :
  (0 < fuel)%nat ->
  (u s <= exp (- lambda) ->
   poisson exp fuel lambda u s = Some (0%nat, S s)) /\
  (forall k s',
     poisson exp fuel lambda u s = Some (k, s') ->
     (k = 0%nat <-> u s <= exp (- lambda)) /\
     (s' = S s <-> k = 0%nat)).
Proof.
  intro Hf. split.
  - intro H. apply poisson_one_draw; [exact Hf | lra].
  - intros k s' H. apply poisson_first_crossing in H.
    destruct H as (_ & -> & Hgt & Hle). split; [split | lia].
    + intros ->. cbn [Nat.add accumulate] in Hle. lra.
    + intro H. destruct k as [| k]; [reflexivity |]. exfalso.
      assert (Hj : (0 < 1 <= S k)%nat) by lia.
      specialize (Hgt _ Hj). cbn [accumulate] in Hgt. lra.
Qed.

Lemma poisson_returns_zero_iff_first_draw_below_witness :
  (halves 0%nat <= exp_approx (- 0.5) ->
   poisson exp_approx 10 0.5 halves 0%nat = Some (0%nat, 1%nat)) /\
  (forall k s',
     poisson exp_approx 10 0.5 halves 0%nat = Some (k, s') ->
     (k = 0%nat <-> halves 0%nat <= exp_approx (- 0.5)) /\
     (s' = 1%nat <-> k = 0%nat)).
Proof.
  apply (poisson_returns_zero_iff_first_draw_below exp_approx 10 0.5 halves
           0%nat).
  lia.
Defined.

(** X2.  On the same draws a larger rate never gives a smaller count: when
    the threshold of the second rate is at or below that of the first (as it
    is for [lambda <= lambda'] and a monotone exponential), the second count
    is at least the first. *)
Theorem poisson_count_monotone_in_rate
    (exp : Q -> Q) (fuel : nat) (lambda lambda' : Q) (u : stream)
    (s : cursor) (k k' : nat) (s1 s1' : cursor) :
  exp (- lambda') <= exp (- lambda) ->
  poisson exp fuel lambda u s = Some (k, s1) ->
  poisson exp fuel lambda' u s = Some (k', s1') ->
  (k <= k')%nat /\ (s1 <= s1')%nat.
Proof.
  intros HL H H'.
  apply poisson_first_crossing in H.
  apply poisson_first_crossing in H'.
  destruct H as (_ & -> & Hgt & _). destruct H' as (_ & -> & _ & Hle').
  assert (Hk : (k <= k')%nat).
  { destruct (Nat.le_gt_cases k k') as [Hk | Hk]; [exact Hk |].
    exfalso. assert (Hj : (0 < k' + 1 <= k)%nat) by lia.
    specialize (Hgt _ Hj). lra. }
  split; lia.
Qed.

Lemma poisson_count_monotone_in_rate_witness :
  (2 <= 4)%nat /\ (3 <= 5)%nat.
Proof.
  apply (poisson_count_monotone_in_rate exp_approx 10 1.5 3 halves 0%nat
           2%nat 4%nat 3%nat 5%nat).
  - vm_compute. discriminate.
  - reflexivity.
  - reflexivity.
Defined.

(** ** Fuel does not change results *)

Lemma fuel_monotone_ret {A : Type} (a : A) : fuel_monotone (fun _ => ret a).
Proof.
  intros fuel fuel' u s r H _. exact H.
Qed.

Lemma fuel_monotone_bind {A B : Type} (m : nat -> M A)
    (k : nat -> A -> M B) :
  fuel_monotone m ->
  (forall a, fuel_monotone (fun fuel => k fuel a)) ->
  fuel_monotone (fun fuel => bind (m fuel) (k fuel)).
Proof.
  intros Hm Hk fuel fuel' u s [b s2] H Hle.
  apply bind_Some in H. destruct H as (a & s1 & E1 & E2).
  apply bind_Some. exists a, s1. split.
  - apply (Hm fuel fuel' u s (a, s1) E1 Hle).
  - apply (Hk a fuel fuel' u s1 (b, s2) E2 Hle).
Qed.

Lemma fuel_monotone_poisson exp lambda :
  fuel_monotone (fun fuel => poisson exp fuel lambda).
Proof.
  intros fuel fuel' u s r H Hle. unfold poisson in *.
  apply poisson_loop_fuel with (n := fuel); assumption.
Qed.

Lemma fuel_monotone_iteration exp hG aG hC aC flag :
  fuel_monotone (fun fuel => iteration exp fuel hG aG hC aC flag).
Proof.
  unfold iteration.
  repeat (apply (fuel_monotone_bind (fun fuel => poisson exp fuel _));
          [apply fuel_monotone_poisson | intro]).
  apply fuel_monotone_ret.
Qed.

Lemma fuel_monotone_simulate_loop exp hG aG hC aC flag n :
  forall successCount,
    fuel_monotone
      (fun fuel => simulate_loop exp fuel hG aG hC aC flag n successCount).
Proof.
  induction n as [| n IH]; intro sc; cbn [simulate_loop].
  - apply fuel_monotone_ret.
  - apply (fuel_monotone_bind
             (fun fuel => iteration exp fuel hG aG hC aC flag)
             (fun fuel ok =>
                simulate_loop exp fuel hG aG hC aC flag n
                  (if ok then S sc else sc))).
    + apply fuel_monotone_iteration.
    + intro ok. apply IH.
Qed.

Lemma fuel_monotone_simulateMatch exp hG aG hC aC flag iterations :
  fuel_monotone
    (fun fuel => simulateMatch exp fuel hG aG hC aC flag iterations).
Proof.
  unfold simulateMatch.
  apply (fuel_monotone_bind
           (fun fuel =>
              simulate_loop exp fuel hG aG hC aC flag iterations 0%nat)
           (fun _ count => ret (of_nat count / of_nat iterations))).
  - apply fuel_monotone_simulate_loop.
  - intro a. apply fuel_monotone_ret.
Qed.

Lemma fuel_monotone_analyzeMatch exp m :
  fuel_monotone (fun fuel => analyzeMatch exp fuel m).
Proof.
  intros fuel fuel' u s r H Hle.
  rewrite analyzeMatch_unfold in *. cbv zeta in *.
  destruct (simulateMatch exp fuel _ _ _ _ true _ u _)
    as [[pH s1] |] eqn:E1; [| discriminate].
  apply (fuel_monotone_simulateMatch exp _ _ _ _ true _ fuel fuel') in E1;
    [| exact Hle].
  rewrite E1.
  destruct (simulateMatch exp fuel _ _ _ _ false _ u _)
    as [[pA s2] |] eqn:E2; [| discriminate].
  apply (fuel_monotone_simulateMatch exp _ _ _ _ false _ fuel fuel') in E2;
    [| exact Hle].
  rewrite E2. exact H.
Qed.

Lemma fuel_monotone_mapM exp matches :
  fuel_monotone (fun fuel => mapM (analyzeMatch exp fuel) matches).
Proof.
  induction matches as [| m ms IH]; cbn [mapM].
  - apply fuel_monotone_ret.
  - apply (fuel_monotone_bind
             (fun fuel => analyzeMatch exp fuel m)
             (fun fuel y =>
                bind (mapM (analyzeMatch exp fuel) ms)
                  (fun ys => ret (y :: ys)))).
    + apply fuel_monotone_analyzeMatch.
    + intro y.
      apply (fuel_monotone_bind
               (fun fuel => mapM (analyzeMatch exp fuel) ms)
               (fun _ ys => ret (y :: ys))).
      * exact IH.
      * intro ys. apply fuel_monotone_ret.
Qed.

(** ** The number of calls to the generator *)

Lemma poisson_draw_count exp fuel lambda u s k s' :
  poisson exp fuel lambda u s = Some (k, s') ->
  (s + 1 <= s' <= s + fuel)%nat.
Proof.
  intro H. apply poisson_first_crossing in H. lia.
Qed.

Lemma iteration_draw_count exp fuel hG aG hC aC flag u s ok s' :
  iteration exp fuel hG aG hC aC flag u s = Some (ok, s') ->
  (s + 6 <= s' <= s + 6 * fuel)%nat.
Proof.
  intro H. unfold iteration in H.
  repeat match type of H with
  | bind (poisson _ _ _) _ _ _ = Some _ =>
      let k := fresh "k" in
      let t := fresh "t" in
      let E := fresh "E" in
      apply bind_Some in H; destruct H as (k & t & E & H);
      apply poisson_draw_count in E
  end.
  unfold ret in H. inversion H; subst. lia.
Qed.

Lemma simulate_loop_draw_count exp fuel hG aG hC aC flag n :
  forall successCount u s count s',
    simulate_loop exp fuel hG aG hC aC flag n successCount u s
    = Some (count, s') ->
    (s + 6 * n <= s' <= s + 6 * n * fuel)%nat.
Proof.
  induction n as [| n IH]; intros sc u s count s' H.
  - cbn in H. unfold ret in H. inversion H; subst. lia.
  - cbn [simulate_loop] in H. apply bind_Some in H.
    destruct H as (ok & s1 & E & H).
    apply iteration_draw_count in E. apply IH in H. nia.
Qed.

(** X3.  A run of [simulateMatch] calls [Math.random] at least six times
    per iteration, and, on uniform draws, at most [6 * iterations * F] times,
    where [F] bounds the draws of one Poisson sample at the six rates
    ([fuel_for_all], one more than the ceiling of
    [1 / (exp (- lambda) * (1 - c))] for the largest of them). *)
Theorem simulateMatch_draw_count
    (exp : Q -> Q) (c : Q) (u : stream) (fuel : nat)
    (homeExpG awayExpG homeExpC awayExpC : Q) (flag : bool)
    (iterations : nat) (s s' : cursor) (p : Q) :
  (forall x, 0 < exp x) ->
  c < 1 ->
  uniform_draws c u ->
  simulateMatch exp fuel homeExpG awayExpG homeExpC awayExpC flag iterations
    u s = Some (p, s') ->
  (6 * iterations <= s' - s)%nat /\
  (s' - s <= 6 * iterations
             * fuel_for_all exp c (rates homeExpG awayExpG homeExpC awayExpC)
  )%nat.
Proof.
  intros Hpos Hc Hu H.
  set (F := fuel_for_all exp c (rates homeExpG awayExpG homeExpC awayExpC)).
  assert (HF : simulateMatch exp F homeExpG awayExpG homeExpC awayExpC flag
                 iterations u s = Some (p, s')).
  { destruct (Nat.le_ge_cases fuel F) as [Hle | Hge].
    - apply (fuel_monotone_simulateMatch exp homeExpG awayExpG homeExpC
               awayExpC flag iterations fuel F u s (p, s') H Hle).
    - destruct (simulateMatch_returns exp c Hpos Hc u Hu F homeExpG awayExpG
                  homeExpC awayExpC flag iterations s (Nat.le_refl _))
        as (p0 & s0 & E0).
      pose proof (fuel_monotone_simulateMatch exp homeExpG awayExpG homeExpC
                    awayExpC flag iterations F fuel u s (p0, s0) E0 Hge)
        as E1.
      cbv beta in E1. rewrite H in E1. inversion E1; subst. exact E0. }
  unfold simulateMatch in H, HF.
  apply bind_Some in H. destruct H as (k1 & t1 & E1 & H1).
  apply bind_Some in HF. destruct HF as (k2 & t2 & E2 & H2).
  unfold ret in H1, H2. inversion H1; subst. inversion H2; subst.
  apply simulate_loop_draw_count in E1.
  apply simulate_loop_draw_count in E2. fold F in E2. lia.
Qed.

Lemma simulateMatch_draw_count_witness :
  (6 * 2 <= 40 - 0)%nat /\
  (40 - 0 <= 6 * 2 * fuel_for_all exp_approx (1 # 2) (rates 1.5 1.1 5.2 4.6)
  )%nat.
Proof.
  apply (simulateMatch_draw_count exp_approx (1 # 2) halves 10
           1.5 1.1 5.2 4.6 true 2 0%nat 40%nat (2 # 2)).
  - exact exp_approx_pos.
  - reflexivity.
  - exact halves_uniform.
  - reflexivity.
Defined.

(** ** Rates at or below zero *)

Lemma poisson_nonpositive_rate exp c u fuel lambda s k s' :
  (forall x, 0 <= x -> 1 <= exp x) ->
  c < 1 ->
  uniform_draws c u ->
  lambda <= 0 ->
  poisson exp fuel lambda u s = Some (k, s') ->
  k = 0%nat.
Proof.
  intros Hge Hc Hu Hl H.
  apply poisson_first_crossing in H.
  destruct H as (_ & _ & Hgt & _).
  destruct k as [| k]; [reflexivity | exfalso].
  assert (Hj : (0 < 1 <= S k)%nat) by lia.
  specialize (Hgt 1%nat Hj). cbn [accumulate] in Hgt.
  destruct (Hu s) as [_ H1].
  assert (H2 : 1 <= exp (- lambda)) by (apply Hge; lra).
  lra.
Qed.

Lemma iteration_fails_without_goals_or_corners
    exp c u fuel hG aG hC aC (flag : bool) s ok s' :
  (forall x, 0 <= x -> 1 <= exp x) ->
  c < 1 ->
  uniform_draws c u ->
  (if flag then hG <= 0 else aG <= 0) \/ (hC <= 0 /\ aC <= 0) ->
  iteration exp fuel hG aG hC aC flag u s = Some (ok, s') ->
  ok = false.
Proof.
  intros Hge Hc Hu Hz H. unfold iteration in H.
  apply bind_Some in H. destruct H as (a1 & t1 & E1 & H).
  apply bind_Some in H. destruct H as (a2 & t2 & E2 & H).
  apply bind_Some in H. destruct H as (a3 & t3 & E3 & H).
  apply bind_Some in H. destruct H as (a4 & t4 & E4 & H).
  apply bind_Some in H. destruct H as (a5 & t5 & E5 & H).
  apply bind_Some in H. destruct H as (a6 & t6 & E6 & H).
  unfold ret in H. inversion H; subst. clear H.
  destruct Hz as [Hz | [Hz1 Hz2]].
  - destruct flag.
    + apply (poisson_nonpositive_rate exp c u) in E1; try assumption;
        [| lra].
      apply (poisson_nonpositive_rate exp c u) in E3; try assumption;
        [| lra].
      subst. cbn. rewrite !andb_false_r. reflexivity.
    + apply (poisson_nonpositive_rate exp c u) in E2; try assumption;
        [| lra].
      apply (poisson_nonpositive_rate exp c u) in E4; try assumption;
        [| lra].
      subst. cbn. rewrite !andb_false_r. reflexivity.
  - apply (poisson_nonpositive_rate exp c u) in E5; try assumption.
    apply (poisson_nonpositive_rate exp c u) in E6; try assumption.
    subst. rewrite over_55. cbn. rewrite !andb_false_r. reflexivity.
Qed.

Lemma simulate_loop_without_success exp c u fuel hG aG hC aC (flag : bool) n :
  (forall x, 0 <= x -> 1 <= exp x) ->
  c < 1 ->
  uniform_draws c u ->
  (if flag then hG <= 0 else aG <= 0) \/ (hC <= 0 /\ aC <= 0) ->
  forall successCount s count s',
    simulate_loop exp fuel hG aG hC aC flag n successCount u s
    = Some (count, s') ->
    count = successCount.
Proof.
  intros Hge Hc Hu Hz. induction n as [| n IH]; intros sc s count s' H.
  - cbn in H. unfold ret in H. inversion H; reflexivity.
  - cbn [simulate_loop] in H. apply bind_Some in H.
    destruct H as (ok & s1 & E & H).
    apply (iteration_fails_without_goals_or_corners exp c u) in E;
      try assumption.
    subst ok. apply IH in H. exact H.
Qed.

(** X4.  When the designated side's expected goals are at or below zero,
    or both expected-corner rates are, no iteration can succeed: for a
    positive number of iterations every estimate [simulateMatch] returns
    is 0. *)
Theorem simulateMatch_zero_without_goals_or_corners
    (exp : Q -> Q) (c : Q) (u : stream) (fuel : nat)
    (homeExpG awayExpG homeExpC awayExpC : Q) (flag : bool)
    (iterations : nat) (s s' : cursor) (p : Q) :
  (forall x, 0 <= x -> 1 <= exp x) ->
  c < 1 ->
  uniform_draws c u ->
  (0 < iterations)%nat ->
  (if flag then homeExpG <= 0 else awayExpG <= 0) \/
  (homeExpC <= 0 /\ awayExpC <= 0) ->
  simulateMatch exp fuel homeExpG awayExpG homeExpC awayExpC flag iterations
    u s = Some (p, s') ->
  p = of_nat 0 / of_nat iterations /\ p == 0.
Proof.
  intros Hge Hc Hu Hn Hz H. unfold simulateMatch in H.
  apply bind_Some in H. destruct H as (count & s1 & E & H).
  unfold ret in H. inversion H; subst.
  apply (simulate_loop_without_success exp c u) in E; try assumption.
  subst count. split; [reflexivity |].
  unfold Qdiv. change (of_nat 0) with 0. lra.
Qed.

Lemma simulateMatch_zero_without_goals_or_corners_witness :
  0 # 2 = of_nat 0 / of_nat 2 /\ 0 # 2 == 0.
Proof.
  apply (simulateMatch_zero_without_goals_or_corners exp_approx (1 # 2)
           halves 10 1.5 0 5.2 4.6 false 2 0%nat 40%nat (0 # 2)).
  - exact exp_approx_ge_1.
  - reflexivity.
  - exact halves_uniform.
  - lia.
  - left. discriminate.
  - reflexivity.
Defined.

(** * Further properties of the handler *)

(** ** The array the handler sends *)

Lemma subsequence_map {A B : Type} (f : A -> B) (l1 l2 : list A) :
  subsequence l1 l2 -> subsequence (map f l1) (map f l2).
Proof.
  induction 1; cbn [map]; constructor; assumption.
Qed.

Lemma subsequence_length {A : Type} (l1 l2 : list A) :
  subsequence l1 l2 -> (List.length l1 <= List.length l2)%nat.
Proof.
  induction 1; cbn [List.length]; lia.
Qed.

Lemma mapM_cons {A B : Type} (f : A -> M B) (x : A) (xs : list A) :
  mapM f (x :: xs)
  = bind (f x) (fun y => bind (mapM f xs) (fun ys => ret (y :: ys))).
Proof. reflexivity. Qed.

(** The records [matches.map] returns, row by row. *)
Lemma mapM_analyzeMatch_builds exp fuel u matches :
  forall s analyzedMatches s',
    mapM (analyzeMatch exp fuel) matches u s = Some (analyzedMatches, s') ->
    Forall2 (fun m a => exists p b,
               a = build_analysis m p b /\ 0 <= p /\ p <= 1)
      matches analyzedMatches.
Proof.
  induction matches as [| m ms IH]; intros s l s' H.
  - cbn in H. unfold ret in H. inversion H; subst. constructor.
  - rewrite mapM_cons in H. apply bind_Some in H.
    destruct H as (a & s1 & E & H).
    apply bind_Some in H. destruct H as (l' & s2 & E' & H).
    unfold ret in H. injection H as <- <-. constructor.
    + apply (analyzeMatch_builds exp fuel m u s a s1 E).
    + apply (IH _ _ _ E').
Qed.

Lemma Forall2_map_id matches analyzedMatches :
  Forall2 (fun m a => exists p b,
             a = build_analysis m p b /\ 0 <= p /\ p <= 1)
    matches analyzedMatches ->
  map id analyzedMatches = map row_id matches.
Proof.
  induction 1 as [| m a ms l (p & b & -> & _) _ IH]; cbn [map].
  - reflexivity.
  - rewrite IH. reflexivity.
Qed.

(** X6.  The array the handler sends lists matches in the order of the
    query: its ids are the ids of the queried rows with some rows left out,
    none repeated or moved; it has at most 50 entries and at most as many as
    there are rows. *)
Theorem analysis_handler_keeps_query_order
    (exp : Q -> Q) (fuel : nat) (matches : list match_row) (u : stream)
    (s s' : cursor) (sent : list analysis) :
  analysis_handler exp fuel matches u s = Some (sent, s') ->
  subsequence (map id sent) (map row_id matches) /\
  (List.length sent <= 50)%nat /\
  (List.length sent <= List.length matches)%nat.
Proof.
  intro H. rewrite analysis_handler_unfold in H.
  destruct (mapM (analyzeMatch exp fuel) matches u s) as [[l s1] |] eqn:E;
    [| discriminate].
  inversion H; subst. clear H.
  apply mapM_analyzeMatch_builds in E.
  pose proof (Forall2_length E) as Hlen.
  apply Forall2_map_id in E.
  assert (Hsub : subsequence (filtered l) l).
  { unfold filtered.
    apply subsequence_trans with (l2 := filter positive_ev l).
    - apply subsequence_firstn.
    - apply subsequence_filter. }
  split; [| split].
  - rewrite <- E. apply subsequence_map. exact Hsub.
  - unfold filtered. rewrite length_firstn. lia.
  - apply subsequence_length in Hsub. lia.
Qed.

(** A record the handler lets through was built from a queried row and a
    positive model probability. *)
Lemma sent_record_is_positive
    (exp : Q -> Q) (fuel : nat) (matches : list match_row) (u : stream)
    (s s' : cursor) (sent : list analysis) (a : analysis) :
  analysis_handler exp fuel matches u s = Some (sent, s') ->
  In a sent ->
  exists m p b,
    In m matches /\ a = build_analysis m p b /\ 0 < p /\ p <= 1.
Proof.
  intros H Hin. rewrite analysis_handler_unfold in H.
  destruct (mapM (analyzeMatch exp fuel) matches u s) as [[l s1] |] eqn:E;
    [| discriminate].
  inversion H; subst. clear H.
  apply mapM_analyzeMatch_builds in E.
  assert (Hl : In a l /\ positive_ev a = true).
  { unfold filtered in Hin.
    assert (Hf : In a (filter positive_ev l)).
    { rewrite <- (firstn_skipn 50 (filter positive_ev l)).
      apply in_or_app. left. exact Hin. }
    apply filter_In in Hf. exact Hf. }
  destruct Hl as [Hl Hev].
  assert (Hb : exists m p b,
             In m matches /\ a = build_analysis m p b /\ 0 <= p /\ p <= 1).
  { clear Hin Hev. induction E as [| m a' ms l' Hma _ IH].
    - destruct Hl.
    - destruct Hl as [-> | Hl].
      + destruct Hma as (p & b & -> & Hp). exists m, p, b.
        split; [left; reflexivity |]. split; [reflexivity | exact Hp].
      + destruct (IH Hl) as (m' & p & b & Hm' & Ha & Hp).
        exists m', p, b. split; [right; exact Hm' |].
        split; assumption. }
  destruct Hb as (m & p & b & Hm & -> & Hp0 & Hp1).
  exists m, p, b. repeat split; try assumption.
  destruct (Qlt_le_dec 0 p) as [Hp | Hp]; [exact Hp |].
  assert (H0 : p == 0) by lra.
  destruct (build_analysis_zero m p b H0) as (_ & _ & _ & _ & Hv).
  cbv zeta in Hv. unfold positive_ev in Hev. rewrite Hv in Hev.
  discriminate Hev.
Qed.

(** X7.  Every record the handler sends was built from a queried row and a
    model probability in [(0, 1]]; its probability, odds, implied
    probability, edge and expected value are all finite numbers (so none of
    them is [NaN] or [Infinity] when the array is serialised), and its
    expected value and edge are positive. *)
Theorem analysis_handler_sends_finite_records
    (exp : Q -> Q) (fuel : nat) (matches : list match_row) (u : stream)
    (s s' : cursor) (sent : list analysis) (a : analysis) :
  analysis_handler exp fuel matches u s = Some (sent, s') ->
  In a sent ->
  (exists m p b,
     In m matches /\ a = build_analysis m p b /\ 0 < p /\ p <= 1) /\
  JS.is_finite (probModel a) = true /\
  JS.is_finite (oddAvg a) = true /\
  JS.is_finite (bestOdd a) = true /\
  JS.is_finite (probImplied a) = true /\
  JS.is_finite (edge a) = true /\
  JS.is_finite (ev a) = true /\
  JS.gt (ev a) (JS.Fin 0) = true /\
  JS.gt (edge a) (JS.Fin 0) = true.
Proof.
  intros H Hin.
  destruct (sent_record_is_positive exp fuel matches u s s' sent a H Hin)
    as (m & p & b & Hm & -> & Hp & Hp1).
  destruct (build_analysis_positive m p b Hp)
    as (H1 & H2 & H3 & H4 & H5 & H6).
  cbv zeta in H1, H2, H3, H4, H5, H6.
  split; [exists m, p, b; repeat split; assumption |].
  rewrite H1, H2, H3, H4, H5, H6. cbn [JS.is_finite JS.gt].
  repeat split; try reflexivity.
  - apply Qltb_true.
    assert (E1 : p * (1 / (p * 0.8) * 1.1) - 1 == 0.375) by (field; lra).
    rewrite E1. reflexivity.
  - apply Qltb_true.
    assert (E1 : p - 1 / (1 / (p * 0.8) * 1.1) == p * (3 # 11))
      by (field; lra).
    rewrite E1. lra.
Qed.

(** ** The handler returns *)

Lemma analyzeMatch_returns exp c u m s :
  (forall x, 0 < exp x) ->
  c < 1 ->
  uniform_draws c u ->
  exists fuel r s', analyzeMatch exp fuel m u s = Some (r, s').
Proof.
  intros Hpos Hc Hu.
  set (hG := 1.2 + u s * 0.8). set (aG := 1.0 + u (1 + s)%nat * 0.8).
  set (hC := 4.5 + u (2 + s)%nat * 2). set (aC := 4.0 + u (3 + s)%nat * 2).
  set (fuel := fuel_for_all exp c (rates hG aG hC aC)).
  destruct (simulateMatch_returns exp c Hpos Hc u Hu fuel hG aG hC aC true
              default_iterations (4 + s)%nat (Nat.le_refl _))
    as (pH & s1 & E1).
  destruct (simulateMatch_returns exp c Hpos Hc u Hu fuel hG aG hC aC false
              default_iterations s1 (Nat.le_refl _))
    as (pA & s2 & E2).
  exists fuel. rewrite analyzeMatch_unfold. cbv zeta.
  fold hG aG hC aC. rewrite E1, E2. eexists _, _. reflexivity.
Qed.

Lemma mapM_analyzeMatch_returns exp c u matches :
  (forall x, 0 < exp x) ->
  c < 1 ->
  uniform_draws c u ->
  forall s,
  exists fuel analyzedMatches s',
    mapM (analyzeMatch exp fuel) matches u s = Some (analyzedMatches, s').
Proof.
  intros Hpos Hc Hu. induction matches as [| m ms IH]; intro s.
  - exists 0%nat, [], s. reflexivity.
  - destruct (analyzeMatch_returns exp c u m s Hpos Hc Hu)
      as (f1 & a & s1 & E1).
    destruct (IH s1) as (f2 & l & s2 & E2).
    exists (Nat.max f1 f2), (a :: l), s2.
    apply (fuel_monotone_analyzeMatch exp m f1 (Nat.max f1 f2)) in E1;
      [| lia].
    apply (fuel_monotone_mapM exp ms f2 (Nat.max f1 f2)) in E2; [| lia].
    cbv beta in E2.
    rewrite mapM_cons. unfold bind. rewrite E1, E2. reflexivity.
Qed.

(** X8.  On uniform draws the handler returns for every list of rows: all
    the sampling loops exit, and from some fuel on the array sent and the
    state of the generator no longer depend on the fuel. *)
Theorem analysis_handler_returns
    (exp : Q -> Q) (c : Q) (u : stream) (matches : list match_row)
    (s : cursor) :
  (forall x, 0 < exp x) ->
  c < 1 ->
  uniform_draws c u ->
  exists fuel sent s',
    forall fuel', (fuel <= fuel')%nat ->
      analysis_handler exp fuel' matches u s = Some (sent, s').
Proof.
  intros Hpos Hc Hu.
  destruct (mapM_analyzeMatch_returns exp c u matches Hpos Hc Hu s)
    as (fuel & l & s' & E).
  exists fuel, (filtered l), s'. intros fuel' Hle.
  apply (fuel_monotone_mapM exp matches fuel fuel') in E; [| exact Hle].
  cbv beta in E. rewrite analysis_handler_unfold, E. reflexivity.
Qed.

Lemma analysis_handler_returns_witness :
  exists fuel sent s',
    forall fuel', (fuel <= fuel')%nat ->
      analysis_handler exp_approx fuel' [sample_row; sample_row] halves 0%nat
      = Some (sent, s').
Proof.
  apply (analysis_handler_returns exp_approx (1 # 2) halves
           [sample_row; sample_row] 0%nat).
  - exact exp_approx_pos.
  - reflexivity.
  - exact halves_uniform.
Defined.

(** ** A run of the handler on the constant stream *)

(** On a stream that repeats one iteration's outcome at every cursor, the
    loop counts every iteration or none. *)
Lemma simulate_loop_repeats exp fuel hG aG hC aC flag u ok d :
  (forall t,
     iteration exp fuel hG aG hC aC flag u t = Some (ok, (t + d)%nat)) ->
  forall n successCount t,
    simulate_loop exp fuel hG aG hC aC flag n successCount u t
    = Some ((successCount + (if ok then n else 0))%nat, (t + n * d)%nat).
Proof.
  intros Hit. induction n as [| n IH]; intros sc t.
  - cbn. unfold ret. do 2 f_equal; destruct ok; lia.
  - cbn [simulate_loop]. unfold bind. rewrite Hit, IH.
    destruct ok.
    + replace (S sc + n)%nat with (sc + S n)%nat by lia.
      replace (t + d + n * d)%nat with (t + S n * d)%nat by lia.
      reflexivity.
    + replace (t + d + n * d)%nat with (t + S n * d)%nat by lia.
      reflexivity.
Qed.

Lemma iteration_on_halves (flag : bool) (t : cursor) :
  iteration exp_approx 500 (1.2 + halves 0%nat * 0.8)
    (1.0 + halves 1%nat * 0.8) (4.5 + halves 2%nat * 2)
    (4.0 + halves 3%nat * 2) flag halves t
  = Some (flag, (t + 23)%nat).
Proof.
  assert (E : iteration exp_approx 500 (1.2 + halves 0%nat * 0.8)
                (1.0 + halves 1%nat * 0.8) (4.5 + halves 2%nat * 2)
                (4.0 + halves 3%nat * 2) flag halves 0%nat
              = Some (flag, 23%nat)).
  { destruct flag; vm_compute; reflexivity. }
  destruct (replayable_iteration _ _ _ _ _ _ _ _ _ _ _ E) as [_ Hr].
  apply (Hr halves t). intros i _. reflexivity.
Qed.

Lemma simulateMatch_on_halves (flag : bool) (n : nat) (t : cursor) :
  simulateMatch exp_approx 500 (1.2 + halves 0%nat * 0.8)
    (1.0 + halves 1%nat * 0.8) (4.5 + halves 2%nat * 2)
    (4.0 + halves 3%nat * 2) flag n halves t
  = Some (of_nat (0 + (if flag then n else 0)) / of_nat n,
          (t + n * 23)%nat).
Proof.
  unfold simulateMatch, bind.
  rewrite (simulate_loop_repeats _ _ _ _ _ _ flag halves flag 23
             (iteration_on_halves flag)).
  reflexivity.
Qed.

(** On the constant stream every iteration succeeds for the home side and
    none for the away side: the callback reports probability 1 for the
    home orientation. *)
Lemma analyzeMatch_on_halves (m : match_row) :
  exists p s',
    analyzeMatch exp_approx 500 m halves 0%nat
    = Some (build_analysis m p true, s') /\ p == 1.
Proof.
  rewrite analyzeMatch_unfold. cbv zeta.
  generalize default_iterations
    (eq_refl : (0 <? default_iterations)%nat = true).
  intros n Hn. apply Nat.ltb_lt in Hn.
  rewrite (simulateMatch_on_halves true n), (simulateMatch_on_halves false n).
  cbn [Nat.add].
  assert (HA : of_nat 0 / of_nat n == 0).
  { unfold Qdiv. change (of_nat 0) with 0. lra. }
  assert (HH : of_nat n / of_nat n == 1).
  { apply of_nat_lt in Hn. change (of_nat 0) with 0 in Hn. field. lra. }
  assert (E : Qle_bool (of_nat 0 / of_nat n) (of_nat n / of_nat n) = true).
  { apply Qle_bool_iff. rewrite HA, HH. discriminate. }
  rewrite E. eexists _, _. split; [reflexivity | exact HH].
Qed.

Lemma analysis_handler_on_halves :
  exists p s',
    analysis_handler exp_approx 500 [sample_row] halves 0%nat
    = Some ([build_analysis sample_row p true], s') /\ p == 1.
Proof.
  destruct (analyzeMatch_on_halves sample_row) as (p & s' & E & Hp).
  exists p, s'. split; [| exact Hp].
  rewrite analysis_handler_unfold, mapM_cons. unfold bind. rewrite E.
  cbn [mapM]. unfold ret, filtered. cbn [filter].
  assert (Hpos : positive_ev (build_analysis sample_row p true) = true).
  { assert (H0 : 0 < p) by lra.
    destruct (build_analysis_positive sample_row p true H0)
      as (_ & _ & _ & _ & _ & Hv).
    cbv zeta in Hv. unfold positive_ev. rewrite Hv. cbn [JS.gt].
    apply Qltb_true.
    assert (E1 : p * (1 / (p * 0.8) * 1.1) - 1 == 0.375) by (field; lra).
    rewrite E1. reflexivity. }
  rewrite Hpos. reflexivity.
Qed.

Lemma analysis_handler_keeps_query_order_witness :
  exists sent,
    subsequence (map id sent) (map row_id [sample_row]) /\
    (List.length sent <= 50)%nat /\
    (List.length sent <= List.length [sample_row])%nat.
Proof.
  destruct analysis_handler_on_halves as (p & s' & E & _).
  exists [build_analysis sample_row p true].
  apply (analysis_handler_keeps_query_order exp_approx 500 [sample_row]
           halves 0%nat s' _ E).
Defined.

Lemma analysis_handler_sends_finite_records_witness :
  exists a,
    (exists m p b,
       In m [sample_row] /\ a = build_analysis m p b /\ 0 < p /\ p <= 1) /\
    JS.is_finite (probModel a) = true /\
    JS.is_finite (oddAvg a) = true /\
    JS.is_finite (bestOdd a) = true /\
    JS.is_finite (probImplied a) = true /\
    JS.is_finite (edge a) = true /\
    JS.is_finite (ev a) = true /\
    JS.gt (ev a) (JS.Fin 0) = true /\
    JS.gt (edge a) (JS.Fin 0) = true.
Proof.
  destruct analysis_handler_on_halves as (p & s' & E & _).
  exists (build_analysis sample_row p true).
  apply (analysis_handler_sends_finite_records exp_approx 500 [sample_row]
           halves 0%nat s' _ _ E).
  left. reflexivity.
Defined.

(** * The database and the synchronisation *)

Module StoreFacts.

Import Store.

(** A run of [INSERT OR REPLACE] statements leaves, under each key, the row
    of the last statement with that key. *)
Lemma replace_all_lookup {X R : Type} (key_of : X -> Z) (row_of : X -> R)
    (xs : list X) :
  forall (t : table R) (k : Z),
    fold_left (fun t x => insert_or_replace (key_of x) (row_of x) t) xs t k
    = match last_with key_of k xs with
      | Some x => Some (row_of x)
      | None => t k
      end.
Proof.
  induction xs as [| x xs IH]; intros t k; cbn [fold_left last_with].
  - reflexivity.
  - rewrite IH. destruct (last_with key_of k xs); [reflexivity |].
    unfold insert_or_replace. rewrite (Z.eqb_sym k (key_of x)).
    destruct (key_of x =? k)%Z; reflexivity.
Qed.

(** A run of [INSERT OR IGNORE] statements keeps every row that was there
    and leaves, under a new key, the row of the first statement with it. *)
Lemma ignore_all_lookup {X R : Type} (key_of : X -> Z) (row_of : X -> R)
    (xs : list X) :
  forall (t : table R) (k : Z),
    fold_left (fun t x => insert_or_ignore (key_of x) (row_of x) t) xs t k
    = match t k with
      | Some old => Some old
      | None => option_map row_of (find (fun x => (key_of x =? k)%Z) xs)
      end.
Proof.
  induction xs as [| x xs IH]; intros t k; cbn [fold_left find].
  - destruct (t k); reflexivity.
  - rewrite IH. unfold insert_or_ignore at 1.
    rewrite (Z.eqb_sym k (key_of x)).
    destruct (key_of x =? k)%Z; destruct (t k); reflexivity.
Qed.

Lemma leagues_fold_store_league (cs : list competition) :
  forall d,
    leagues (fold_left store_league cs d)
    = fold_left
        (fun t c => insert_or_replace (competition_id c) (league_row c) t)
        cs (leagues d)
    /\ teams (fold_left store_league cs d) = teams d
    /\ matches (fold_left store_league cs d) = matches d.
Proof.
  induction cs as [| c cs IH]; intro d; cbn [fold_left].
  - repeat split.
  - destruct (IH (store_league d c)) as (H1 & H2 & H3).
    rewrite H1, H2, H3. repeat split.
Qed.

Lemma fold_store_fixture (fs : list api_match) :
  forall d,
    leagues (fold_left store_fixture fs d) = leagues d
    /\ teams (fold_left store_fixture fs d)
       = fold_left
           (fun t x => insert_or_ignore (api_team_id (fst x)) (team_row x) t)
           (mentions fs) (teams d)
    /\ matches (fold_left store_fixture fs d)
       = fold_left
           (fun t m => insert_or_replace (api_id m) (match_row_of m) t)
           fs (matches d).
Proof.
  induction fs as [| m fs IH]; intro d; cbn [fold_left].
  - repeat split.
  - destruct (IH (store_fixture d m)) as (H1 & H2 & H3).
    rewrite H1, H2, H3. repeat split.
Qed.

Lemma last_with_absent {X : Type} (key_of : X -> Z) (k : Z) (xs : list X) :
  (forall x, In x xs -> key_of x <> k) -> last_with key_of k xs = None.
Proof.
  induction xs as [| x xs IH]; intro H; cbn [last_with]; [reflexivity |].
  rewrite IH by (intros y Hy; apply H; right; exact Hy).
  destruct (key_of x =? k)%Z eqn:E; [| reflexivity].
  apply Z.eqb_eq in E. exfalso. apply (H x); [left; reflexivity | exact E].
Qed.

(** The rows after a whole [POST /api/sync], table by table. *)
Lemma sync_lookup (cs : option (list competition))
    (fs : option (list api_match)) (d : db) (k : Z) :
  leagues (sync cs fs d) k
  = match last_with competition_id k
            (match cs with Some l => l | None => [] end) with
    | Some c => Some (league_row c)
    | None => leagues d k
    end
  /\ teams (sync cs fs d) k
     = match teams d k with
       | Some old => Some old
       | None =>
           option_map team_row
             (find (fun x => (api_team_id (fst x) =? k)%Z)
                (mentions (match fs with Some l => l | None => [] end)))
       end
  /\ matches (sync cs fs d) k
     = match last_with api_id k
               (match fs with Some l => l | None => [] end) with
       | Some m => Some (match_row_of m)
       | None => matches d k
       end.
Proof.
  unfold sync.
  assert (HL : leagues (syncLeagues cs d) k
               = match last_with competition_id k
                         (match cs with Some l => l | None => [] end) with
                 | Some c => Some (league_row c)
                 | None => leagues d k
                 end
               /\ teams (syncLeagues cs d) = teams d
               /\ matches (syncLeagues cs d) = matches d).
  { destruct cs as [l |]; [| repeat split].
    unfold syncLeagues.
    destruct (leagues_fold_store_league l d) as (H1 & H2 & H3).
    rewrite H1, H2, H3, replace_all_lookup. repeat split. }
  destruct HL as (HL1 & HL2 & HL3).
  destruct fs as [l |].
  - unfold syncFixtures.
    destruct (fold_store_fixture l (syncLeagues cs d)) as (H1 & H2 & H3).
    rewrite H1, H2, H3, HL2, HL3, ignore_all_lookup, replace_all_lookup.
    repeat split. exact HL1.
  - unfold syncFixtures. rewrite HL2, HL3. cbn [mentions flat_map find
      option_map last_with].
    repeat split; [exact HL1 |]. destruct (teams d k); reflexivity.
Qed.

(** X12.  A synchronisation never removes a match from the analysis unless
    the response lists it: a match that the query of the analysis handler
    returns, and that the fixtures response does not list (a fixture whose
    date has passed, say), is still returned afterwards, with the same id,
    team names and date. *)
Theorem sync_keeps_unlisted_matches_in_analysis
    (cs : option (list competition)) (fs : option (list api_match))
    (d : db) (match_id : Z) (row : match_row) :
  analysis_row d match_id = Some row ->
  (forall m, In m (match fs with Some l => l | None => [] end) ->
     api_id m <> match_id) ->
  exists row',
    analysis_row (sync cs fs d) match_id = Some row' /\
    row_id row' = row_id row /\
    home_name row' = home_name row /\
    away_name row' = away_name row /\
    utc_date row' = utc_date row.
Proof.
  intros Hrow Habsent. unfold analysis_row in *.
  destruct (sync_lookup cs fs d match_id) as (_ & _ & HM).
  rewrite HM, (last_with_absent _ _ _ Habsent).
  destruct (matches d match_id) as [m |]; [| discriminate].
  destruct (upcoming m); [| discriminate].
  destruct (teams d (home_team_id m)) as [h |] eqn:Eh; [| discriminate].
  destruct (teams d (away_team_id m)) as [a |] eqn:Ea; [| discriminate].
  destruct (leagues d (league_id m)) as [l |] eqn:El; [| discriminate].
  destruct (sync_lookup cs fs d (home_team_id m)) as (_ & HT & _).
  rewrite HT, Eh.
  destruct (sync_lookup cs fs d (away_team_id m)) as (_ & HT' & _).
  rewrite HT', Ea.
  destruct (sync_lookup cs fs d (league_id m)) as (HL & _ & _).
  rewrite HL, El. inversion Hrow; subst.
  destruct (last_with competition_id (league_id m) _);
    eexists; (split; [reflexivity | repeat split]).
Qed.

Lemma sync_keeps_unlisted_matches_in_analysis_witness :
  exists row',
    analysis_row
      (sync None (Some [fixture_502])
         (sync (Some sample_competitions) (Some [fixture_501]) no_rows))
      501%Z = Some row' /\
    row_id row' = 501%Z /\
    home_name row' = "Arsenal FC"%string /\
    away_name row' = "Chelsea FC"%string /\
    utc_date row' = "2026-01-10T15:00:00Z"%string.
Proof.
  apply (sync_keeps_unlisted_matches_in_analysis None (Some [fixture_502])
           (sync (Some sample_competitions) (Some [fixture_501]) no_rows)
           501%Z
           {| row_id := 501; home_name := "Arsenal FC";
              away_name := "Chelsea FC"; league_name := "Premier League";
              utc_date := "2026-01-10T15:00:00Z" |}).
  - reflexivity.
  - intros m [<- | []]. discriminate.
Defined.

End StoreFacts.

(** * The synchronisation as SQLite runs it *)

Module SqliteFacts.

Import Sqlite.

Local Open Scope Z_scope.

Lemma lookup_cons {R : Type} (k : Z) (row : R) (t : table R) (j : Z) :
  lookup ((k, row) :: t) j = if j =? k then Some row else lookup t j.
Proof.
  unfold lookup. cbn [find fst]. rewrite (Z.eqb_sym j k).
  destruct (k =? j); reflexivity.
Qed.

Lemma lookup_delete {R : Type} (k : Z) (t : table R) (j : Z) :
  lookup (delete k t) j = if j =? k then None else lookup t j.
Proof.
  unfold lookup, delete. induction t as [| [k' row] t IH]; cbn [filter find fst].
  - destruct (j =? k); reflexivity.
  - destruct (k' =? k) eqn:E1; cbn [negb find fst].
    + rewrite IH. apply Z.eqb_eq in E1. subst k'.
      rewrite (Z.eqb_sym j k). destruct (k =? j); reflexivity.
    + destruct (k' =? j) eqn:E2.
      * apply Z.eqb_eq in E2. subst k'. rewrite E1. reflexivity.
      * exact IH.
Qed.

(** A statement with a key of its own: it does not throw, and the table
    afterwards differs under that key only. *)
Lemma insert_explicit {R : Type} (pick : list Z -> option Z)
    (on_conflict : conflict) (key : argument integer_value) (z : Z)
    (row : R) (t : table R) :
  explicit_key key = Some z ->
  exists t',
    insert pick on_conflict key row t = Some t' /\
    forall j,
      lookup t' j
      = if j =? z
        then match on_conflict, lookup t z with
             | Ignore, Some old => Some old
             | _, _ => Some row
             end
        else lookup t j.
Proof.
  intro H. unfold explicit_key in H.
  destruct key as [[| z' |] |]; try discriminate.
  destruct (in_int64 z') eqn:E; [| discriminate].
  injection H as ->. unfold insert. rewrite E.
  assert (Hnew : forall j,
            lookup ((z, row) :: delete z t) j
            = if j =? z then Some row else lookup t j).
  { intro j. rewrite lookup_cons, lookup_delete.
    destruct (j =? z); reflexivity. }
  destruct on_conflict.
  - eexists. split; [reflexivity |]. intro j. rewrite Hnew.
    destruct (j =? z); [destruct (lookup t z) |]; reflexivity.
  - destruct (lookup t z) as [old |] eqn:El.
    + eexists. split; [reflexivity |]. intro j.
      destruct (j =? z) eqn:Ej; [| reflexivity].
      apply Z.eqb_eq in Ej. subst j. exact El.
    + eexists. split; [reflexivity |]. exact Hnew.
Qed.

(** A statement with a refused key throws. *)
Lemma insert_refused {R : Type} (pick : list Z -> option Z)
    (on_conflict : conflict) (key : argument integer_value) (row : R)
    (t : table R) :
  refused_key key = true -> insert pick on_conflict key row t = None.
Proof.
  unfold refused_key, insert. destruct key as [[| z |] |];
    try discriminate; try reflexivity.
  destruct (in_int64 z); [discriminate | reflexivity].
Qed.

Lemma is_key_explicit (key : argument integer_value) (z j : Z) :
  explicit_key key = Some z -> is_key key j = (z =? j).
Proof. intro H. unfold is_key. rewrite H. reflexivity. Qed.

(** ** [syncLeagues] *)

Lemma store_league_tables pick d c d' :
  store_league pick d c = Some d' ->
  teams d' = teams d /\ matches d' = matches d.
Proof.
  unfold store_league. destruct (league_row c); [| discriminate].
  destruct (insert pick Replace _ _ _); [| discriminate].
  intro H. injection H as <-. split; reflexivity.
Qed.

Lemma store_leagues_tables pick cs : forall d,
  teams (store_leagues pick cs d) = teams d /\
  matches (store_leagues pick cs d) = matches d.
Proof.
  induction cs as [| c cs IH]; intro d; cbn [store_leagues].
  - split; reflexivity.
  - destruct (store_league pick d c) as [d' |] eqn:E; [| split; reflexivity].
    destruct (store_league_tables _ _ _ _ E) as [H1 H2].
    destruct (IH d') as [H3 H4]. rewrite H3, H4. split; assumption.
Qed.

Lemma syncLeagues_tables pick response d :
  teams (syncLeagues pick response d) = teams d /\
  matches (syncLeagues pick response d) = matches d.
Proof.
  destruct response as [cs |]; [apply store_leagues_tables |].
  split; reflexivity.
Qed.

Lemma store_league_plain pick d c :
  plain_competition c = true ->
  exists d' z row,
    store_league pick d c = Some d' /\
    explicit_key (competition_id c) = Some z /\
    league_row c = Some row /\
    forall j,
      lookup (leagues d') j
      = if j =? z then Some row else lookup (leagues d) j.
Proof.
  unfold plain_competition, store_league.
  destruct (explicit_key (competition_id c)) as [z |] eqn:Ek;
    [| discriminate].
  destruct (league_row c) as [row |]; [| discriminate]. intros _.
  destruct (insert_explicit pick Replace _ z row (leagues d) Ek)
    as (t' & Ei & Hl).
  rewrite Ei. eexists _, z, row. repeat split. intro j. cbn [leagues].
  rewrite Hl. destruct (j =? z); [destruct (lookup (leagues d) z) |];
    reflexivity.
Qed.

Lemma store_league_refused pick d c :
  refused_competition c = true -> store_league pick d c = None.
Proof.
  unfold refused_competition, store_league. intro H.
  destruct (league_row c) as [row |]; [| reflexivity].
  rewrite orb_false_r in H. rewrite (insert_refused _ _ _ _ _ H).
  reflexivity.
Qed.

Lemma store_leagues_plain pick cs : forall d k,
  forallb plain_competition cs = true ->
  lookup (leagues (store_leagues pick cs d)) k
  = match last_with competition_id k cs with
    | Some c => league_row c
    | None => lookup (leagues d) k
    end.
Proof.
  induction cs as [| c cs IH]; intros d k H; cbn [store_leagues last_with].
  - reflexivity.
  - cbn [forallb] in H. apply andb_true_iff in H. destruct H as [Hc Hcs].
    destruct (store_league_plain pick d c Hc) as (d' & z & row & E & Ek & Er & Hl).
    rewrite E, (IH d' k Hcs).
    destruct (last_with competition_id k cs); [reflexivity |].
    rewrite (is_key_explicit _ z k Ek), Hl, (Z.eqb_sym k z).
    destruct (z =? k); [symmetry; exact Er | reflexivity].
Qed.

(** The loop stops at a statement that throws. *)
Lemma store_leagues_stops pick cs c rest : forall d,
  refused_competition c = true ->
  store_leagues pick (cs ++ c :: rest) d = store_leagues pick cs d.
Proof.
  induction cs as [| c' cs IH]; intros d H; cbn [app store_leagues].
  - rewrite (store_league_refused pick d c H). reflexivity.
  - destruct (store_league pick d c'); [apply IH; exact H | reflexivity].
Qed.

(** ** [syncFixtures] *)

Lemma store_team_plain pick competition d t z row :
  explicit_key (api_team_id t) = Some z ->
  team_row (t, competition) = Some row ->
  exists d',
    store_team pick competition d t = Some d' /\
    leagues d' = leagues d /\
    matches d' = matches d /\
    forall j,
      lookup (teams d') j
      = match lookup (teams d) j with
        | Some old => Some old
        | None => if z =? j then Some row else None
        end.
Proof.
  intros Ek Er. unfold store_team. rewrite Er.
  destruct (insert_explicit pick Ignore _ z row (teams d) Ek)
    as (t' & Ei & Hl).
  rewrite Ei. eexists. repeat split. intro j. cbn [teams]. rewrite Hl.
  rewrite (Z.eqb_sym z j).
  destruct (j =? z) eqn:Ej.
  - apply Z.eqb_eq in Ej. subst j. destruct (lookup (teams d) z); reflexivity.
  - destruct (lookup (teams d) j); reflexivity.
Qed.

Lemma store_match_plain pick d m z row :
  explicit_key (api_id m) = Some z ->
  match_row_of m = Some row ->
  exists d',
    store_match pick d m = Some d' /\
    leagues d' = leagues d /\
    teams d' = teams d /\
    forall j,
      lookup (matches d') j
      = if z =? j then Some row else lookup (matches d) j.
Proof.
  intros Ek Er. unfold store_match. rewrite Er.
  destruct (insert_explicit pick Replace _ z row (matches d) Ek)
    as (t' & Ei & Hl).
  rewrite Ei. eexists. repeat split. intro j. cbn [matches]. rewrite Hl.
  rewrite (Z.eqb_sym z j).
  destruct (j =? z); [destruct (lookup (matches d) z) |]; reflexivity.
Qed.

Lemma plain_fixture_inv m :
  plain_fixture m = true ->
  exists z zh za rh ra row,
    explicit_key (api_id m) = Some z /\
    explicit_key (api_team_id (homeTeam m)) = Some zh /\
    explicit_key (api_team_id (awayTeam m)) = Some za /\
    team_row (homeTeam m, api_competition_id m) = Some rh /\
    team_row (awayTeam m, api_competition_id m) = Some ra /\
    match_row_of m = Some row.
Proof.
  unfold plain_fixture.
  destruct (explicit_key (api_id m)) as [z |]; [| discriminate].
  destruct (explicit_key (api_team_id (homeTeam m))) as [zh |];
    [| discriminate].
  destruct (explicit_key (api_team_id (awayTeam m))) as [za |];
    [| discriminate].
  destruct (team_row (homeTeam m, api_competition_id m)) as [rh |];
    [| discriminate].
  destruct (team_row (awayTeam m, api_competition_id m)) as [ra |];
    [| discriminate].
  destruct (match_row_of m) as [row |]; [| discriminate].
  intros _. exists z, zh, za, rh, ra, row. repeat split.
Qed.

Lemma store_fixtures_plain pick fs : forall d,
  forallb plain_fixture fs = true ->
  exists d',
    store_fixtures pick fs d = Some d' /\
    leagues d' = leagues d /\
    (forall k,
       lookup (teams d') k
       = match lookup (teams d) k with
         | Some old => Some old
         | None => mentioned_row fs k
         end) /\
    (forall k,
       lookup (matches d') k
       = match last_with api_id k fs with
         | Some m => match_row_of m
         | None => lookup (matches d) k
         end).
Proof.
  induction fs as [| m fs IH]; intros d H.
  - exists d. cbn [store_fixtures last_with]. repeat split.
    intro k. unfold mentioned_row, first_mention. cbn.
    destruct (lookup (teams d) k); reflexivity.
  - cbn [forallb] in H. apply andb_true_iff in H. destruct H as [Hm Hfs].
    destruct (plain_fixture_inv m Hm)
      as (z & zh & za & rh & ra & row & Ez & Ezh & Eza & Erh & Era & Erow).
    destruct (store_team_plain pick (api_competition_id m) d (homeTeam m)
                zh rh Ezh Erh) as (d1 & E1 & L1 & M1 & T1).
    destruct (store_team_plain pick (api_competition_id m) d1 (awayTeam m)
                za ra Eza Era) as (d2 & E2 & L2 & M2 & T2).
    destruct (store_match_plain pick d2 m z row Ez Erow)
      as (d3 & E3 & L3 & T3 & M3).
    destruct (IH d3 Hfs) as (d' & E' & L' & T' & M').
    exists d'. cbn [store_fixtures]. unfold store_fixture.
    rewrite E1, E2, E3, E'. split; [reflexivity |].
    split; [congruence |]. split.
    + intro k. rewrite T', T3, T2, T1.
      unfold mentioned_row, first_mention. cbn [mentions flat_map app find fst].
      fold (mentions fs).
      rewrite (is_key_explicit _ zh k Ezh), (is_key_explicit _ za k Eza).
      destruct (lookup (teams d) k) as [old |]; [reflexivity |].
      destruct (zh =? k); [rewrite Erh; reflexivity |].
      destruct (za =? k); [rewrite Era; reflexivity |]. reflexivity.
    + intro k. rewrite M'. cbn [last_with].
      destruct (last_with api_id k fs); [reflexivity |].
      rewrite (is_key_explicit _ z k Ez), M3, M2, M1.
      destruct (z =? k); [symmetry; exact Erow | reflexivity].
Qed.

Lemma store_fixture_refused pick d m :
  refused_fixture m = true -> store_fixture pick d m = None.
Proof.
  unfold refused_fixture, store_fixture, store_team, store_match.
  intro H.
  destruct (team_row (homeTeam m, api_competition_id m)) as [rh |];
    [| reflexivity].
  destruct (refused_key (api_team_id (homeTeam m))) eqn:Kh.
  { rewrite (insert_refused _ _ _ _ _ Kh). reflexivity. }
  destruct (insert pick Ignore _ rh _) as [t1 |]; [| reflexivity].
  cbn [teams leagues matches].
  destruct (team_row (awayTeam m, api_competition_id m)) as [ra |];
    [| reflexivity].
  destruct (refused_key (api_team_id (awayTeam m))) eqn:Ka.
  { rewrite (insert_refused _ _ _ _ _ Ka). reflexivity. }
  destruct (insert pick Ignore _ ra _) as [t2 |]; [| reflexivity].
  cbn [teams leagues matches].
  destruct (match_row_of m) as [row |]; [| reflexivity].
  cbn [orb] in H. rewrite orb_false_r in H.
  rewrite (insert_refused _ _ _ _ _ H). reflexivity.
Qed.

(** One statement that throws rolls the whole transaction back. *)
Lemma store_fixtures_refused pick fs : forall d,
  existsb refused_fixture fs = true -> store_fixtures pick fs d = None.
Proof.
  induction fs as [| m fs IH]; intros d H; [discriminate |].
  cbn [existsb] in H. cbn [store_fixtures].
  destruct (refused_fixture m) eqn:E.
  - rewrite (store_fixture_refused pick d m E). reflexivity.
  - destruct (store_fixture pick d m); [apply IH; exact H | reflexivity].
Qed.


Lemma store_leagues_before_refused pick cs : forall d,
  store_leagues pick cs d = store_leagues pick (before_refused cs) d.
Proof.
  induction cs as [| c cs IH]; intro d; cbn [before_refused]; [reflexivity |].
  destruct (refused_competition c) eqn:E; cbn [store_leagues].
  - rewrite (store_league_refused pick d c E). reflexivity.
  - destruct (store_league pick d c); [apply IH | reflexivity].
Qed.

Lemma syncLeagues_lookup pick response d k :
  forallb plain_competition (before_refused (elements response)) = true ->
  lookup (leagues (syncLeagues pick response d)) k
  = match last_with competition_id k (before_refused (elements response))
    with
    | Some c => league_row c
    | None => lookup (leagues d) k
    end.
Proof.
  intro H. destruct response as [cs |]; [| reflexivity].
  cbn [syncLeagues elements] in *.
  rewrite store_leagues_before_refused. apply store_leagues_plain. exact H.
Qed.

Lemma store_fixture_leagues pick d m d' :
  store_fixture pick d m = Some d' -> leagues d' = leagues d.
Proof.
  unfold store_fixture, store_team, store_match.
  destruct (team_row (homeTeam m, api_competition_id m)); [| discriminate].
  destruct (insert pick Ignore _ _ _); [| discriminate].
  cbn [teams leagues matches].
  destruct (team_row (awayTeam m, api_competition_id m)); [| discriminate].
  destruct (insert pick Ignore _ _ _); [| discriminate].
  cbn [teams leagues matches].
  destruct (match_row_of m); [| discriminate].
  destruct (insert pick Replace _ _ _); [| discriminate].
  intro H. injection H as <-. reflexivity.
Qed.

Lemma syncFixtures_leagues pick response d :
  leagues (syncFixtures pick response d) = leagues d.
Proof.
  destruct response as [fs |]; [| reflexivity]. cbn [syncFixtures].
  destruct (store_fixtures pick fs d) as [d' |] eqn:E; [| reflexivity].
  revert d d' E. induction fs as [| m fs IH]; intros d d' E;
    cbn [store_fixtures] in E.
  - injection E as <-. reflexivity.
  - destruct (store_fixture pick d m) as [d1 |] eqn:E1; [| discriminate].
    rewrite (IH d1 d' E). apply (store_fixture_leagues _ _ _ _ E1).
Qed.

Lemma syncFixtures_plain pick fs d :
  forallb plain_fixture fs = true ->
  leagues (syncFixtures pick (Some fs) d) = leagues d /\
  (forall k,
     lookup (teams (syncFixtures pick (Some fs) d)) k
     = match lookup (teams d) k with
       | Some old => Some old
       | None => mentioned_row fs k
       end) /\
  (forall k,
     lookup (matches (syncFixtures pick (Some fs) d)) k
     = match last_with api_id k fs with
       | Some m => match_row_of m
       | None => lookup (matches d) k
       end).
Proof.
  intro H. destruct (store_fixtures_plain pick fs d H)
    as (d' & E & HL & HT & HM).
  cbn [syncFixtures]. rewrite E. repeat split; assumption.
Qed.

Lemma syncFixtures_refused pick fs d :
  existsb refused_fixture fs = true -> syncFixtures pick (Some fs) d = d.
Proof.
  intro H. cbn [syncFixtures]. rewrite (store_fixtures_refused pick fs d H).
  reflexivity.
Qed.

Lemma last_with_In {X : Type} (key_of : X -> argument integer_value)
    (k : Z) (xs : list X) (x : X) :
  last_with key_of k xs = Some x -> In x xs /\ is_key (key_of x) k = true.
Proof.
  induction xs as [| y ys IH]; cbn [last_with]; [discriminate |].
  destruct (last_with key_of k ys) as [z |].
  - intro H. injection H as ->. destruct (IH eq_refl) as [H1 H2].
    split; [right; exact H1 | exact H2].
  - destruct (is_key (key_of y) k) eqn:E; [| discriminate].
    intro H. injection H as <-. split; [left; reflexivity | exact E].
Qed.

Lemma last_with_found {X : Type} (key_of : X -> argument integer_value)
    (k : Z) (xs : list X) (x : X) :
  In x xs -> is_key (key_of x) k = true ->
  exists y, last_with key_of k xs = Some y.
Proof.
  induction xs as [| y ys IH]; intros Hin Hk; [destruct Hin |].
  cbn [last_with]. destruct (last_with key_of k ys) as [z |];
    [exists z; reflexivity |].
  destruct Hin as [-> | Hin].
  - rewrite Hk. exists x. reflexivity.
  - destruct (IH Hin Hk) as (z & E). discriminate.
Qed.

Lemma is_key_true (key : argument integer_value) (k : Z) :
  is_key key k = true <-> explicit_key key = Some k.
Proof.
  unfold is_key. destruct (explicit_key key) as [z |].
  - rewrite Z.eqb_eq. split; [intros ->; reflexivity | intro H].
    injection H as ->. reflexivity.
  - split; discriminate.
Qed.

Lemma last_with_NoDup {X : Type} (key_of : X -> argument integer_value)
    (xs : list X) (x : X) (k : Z) :
  NoDup (map (fun y => explicit_key (key_of y)) xs) ->
  In x xs ->
  explicit_key (key_of x) = Some k ->
  last_with key_of k xs = Some x.
Proof.
  induction xs as [| y ys IH]; intros Hnd Hin Hk; [destruct Hin |].
  cbn [map] in Hnd. inversion Hnd as [| ? ? Hnotin Hnd']; subst.
  cbn [last_with]. destruct Hin as [-> | Hin].
  - destruct (last_with key_of k ys) as [z |] eqn:E.
    + exfalso. apply last_with_In in E. destruct E as [Hz Hkz].
      apply is_key_true in Hkz. apply Hnotin. rewrite Hk, <- Hkz.
      apply (in_map (fun y => explicit_key (key_of y))). exact Hz.
    + assert (Hx : is_key (key_of x) k = true) by (apply is_key_true; exact Hk).
      rewrite Hx. reflexivity.
  - rewrite (IH Hnd' Hin Hk). reflexivity.
Qed.

Lemma plain_mentions fs x :
  forallb plain_fixture fs = true ->
  In x (mentions fs) ->
  team_row x <> None.
Proof.
  intros H Hin. unfold mentions in Hin. apply in_flat_map in Hin.
  destruct Hin as (m & Hm & Hx).
  rewrite forallb_forall in H. specialize (H m Hm).
  destruct (plain_fixture_inv m H)
    as (z & zh & za & rh & ra & row & _ & _ & _ & Erh & Era & _).
  cbn [In] in Hx. destruct Hx as [<- | [<- | []]]; congruence.
Qed.

Lemma mentioned_row_found fs t competition k :
  forallb plain_fixture fs = true ->
  In (t, competition) (mentions fs) ->
  explicit_key (api_team_id t) = Some k ->
  mentioned_row fs k <> None.
Proof.
  intros H Hin Hk. unfold mentioned_row, first_mention.
  destruct (find (fun x => is_key (api_team_id (fst x)) k) (mentions fs))
    as [x |] eqn:E.
  - apply find_some in E. destruct E as [Hx _].
    apply (plain_mentions fs x H Hx).
  - exfalso. apply (find_none _ _ E) in Hin. cbn [fst] in Hin.
    apply is_key_true in Hk. congruence.
Qed.

Lemma match_row_of_scores m row :
  match_row_of m = Some row ->
  home_score_full row = None /\ away_score_full row = None /\
  home_score_h1 row = None /\ away_score_h1 row = None /\
  home_score_h2 row = None /\ away_score_h2 row = None /\
  corners row = None.
Proof.
  unfold match_row_of.
  destruct (utcDate m); [| discriminate].
  destruct (api_status m); [| discriminate].
  destruct (api_competition_id m); [| discriminate].
  destruct (api_team_id (homeTeam m)); [| discriminate].
  destruct (api_team_id (awayTeam m)); [| discriminate].
  intro H. injection H as <-. repeat split.
Qed.

(** X9.  [syncLeagues] writes the competitions of the response one by one
    until a statement throws: when each of the competitions before the
    first refused one has an integer id of its own, each such id holds
    afterwards the name and code of the last of them with that id; every
    other league row, and the teams and matches tables, are as before; the
    competitions from the refused one on are not written. *)
Theorem syncLeagues_last_write_wins
    (pick : list Z -> option Z) (competitions : list competition) (d : db)
    (k : Z) :
  forallb plain_competition (before_refused competitions) = true ->
  let d' := syncLeagues pick (Some competitions) d in
  lookup (leagues d') k
  = match last_with competition_id k (before_refused competitions) with
    | Some c => league_row c
    | None => lookup (leagues d) k
    end
  /\ teams d' = teams d
  /\ matches d' = matches d
  /\ d' = syncLeagues pick (Some (before_refused competitions)) d.
Proof.
  intros H d'. split; [| split; [| split]].
  - apply (syncLeagues_lookup pick (Some competitions) d k H).
  - apply syncLeagues_tables.
  - apply syncLeagues_tables.
  - apply store_leagues_before_refused.
Qed.

Lemma syncLeagues_last_write_wins_witness :
  let d' :=
    syncLeagues never_picks
      (Some [premier_league; oversized_competition; primera_division])
      no_rows in
  lookup (leagues d') 2021
  = Some {| name := Some "Premier League"%string;
            code := Some "PL"%string |}
  /\ lookup (leagues d') 2014 = None
  /\ keys (leagues d') = [2021].
Proof.
  intro d'.
  destruct (syncLeagues_last_write_wins never_picks
              [premier_league; oversized_competition; primera_division]
              no_rows 2021) as (H & _).
  - reflexivity.
  - split; [exact H |]. split; reflexivity.
Defined.

(** X10.  When every fixture of the response has integer ids of its own and
    arguments that can be bound, [syncFixtures] does not change a team that
    is already stored (the first name and league written for an id stay for
    ever); a team id that is new takes the name and the competition of the
    first fixture of the response that mentions it, home side before away
    side; and every team the response mentions is stored afterwards. *)
Theorem syncFixtures_first_team_wins
    (pick : list Z -> option Z) (fixtures : list api_match) (d : db)
    (k : Z) :
  forallb plain_fixture fixtures = true ->
  let d' := syncFixtures pick (Some fixtures) d in
  lookup (teams d') k
  = match lookup (teams d) k with
    | Some old => Some old
    | None => mentioned_row fixtures k
    end
  /\ (forall m, In m fixtures ->
        exists home away,
          explicit_key (api_team_id (homeTeam m)) = Some home /\
          explicit_key (api_team_id (awayTeam m)) = Some away /\
          lookup (teams d') home <> None /\
          lookup (teams d') away <> None).
Proof.
  intros H d'.
  destruct (syncFixtures_plain pick fixtures d H) as (_ & HT & _).
  fold d' in HT. split; [apply HT |].
  intros m Hm.
  pose proof H as Hall. rewrite forallb_forall in Hall.
  destruct (plain_fixture_inv m (Hall m Hm))
    as (z & zh & za & rh & ra & row & _ & Ezh & Eza & _).
  exists zh, za. split; [exact Ezh |]. split; [exact Eza |].
  assert (Hfound : forall t j,
            In (t, api_competition_id m) (mentions fixtures) ->
            explicit_key (api_team_id t) = Some j ->
            lookup (teams d') j <> None).
  { intros t j Hin Hj. rewrite HT.
    destruct (lookup (teams d) j); [discriminate |].
    apply (mentioned_row_found fixtures t _ j H Hin Hj). }
  split; [apply (Hfound (homeTeam m)) | apply (Hfound (awayTeam m))];
    try assumption;
    unfold mentions; apply in_flat_map; exists m;
    (split; [exact Hm | cbn; tauto]).
Qed.

Lemma syncFixtures_first_team_wins_witness :
  lookup (teams (syncFixtures never_picks (Some [fixture_501; fixture_502])
                   no_rows)) 61
  = Some {| team_name := Some "Chelsea FC"%string;
            team_league_id := Integer 2021 |}.
Proof.
  destruct (syncFixtures_first_team_wins never_picks
              [fixture_501; fixture_502] no_rows 61) as [H _].
  - reflexivity.
  - rewrite H. reflexivity.
Defined.

(** X11.  When every fixture of the response has integer ids of its own and
    arguments that can be bound, each fixture id of the response holds
    after [syncFixtures] the date, status, competition and team ids of the
    last fixture of the response with that id, and its six score columns
    and its corners are [NULL], whatever they were before; matches that the
    response does not list keep their row, and the leagues table is as
    before.  When a statement of some fixture throws, the transaction is
    rolled back: the database is as before. *)
Theorem syncFixtures_replaces_matches
    (pick : list Z -> option Z) (fixtures : list api_match) (d : db)
    (k : Z) :
  (forallb plain_fixture fixtures = true ->
   let d' := syncFixtures pick (Some fixtures) d in
   lookup (matches d') k
   = match last_with api_id k fixtures with
     | Some m => match_row_of m
     | None => lookup (matches d) k
     end
   /\ (forall m, In m fixtures ->
         exists id row,
           explicit_key (api_id m) = Some id /\
           lookup (matches d') id = Some row /\
           home_score_full row = None /\ away_score_full row = None /\
           home_score_h1 row = None /\ away_score_h1 row = None /\
           home_score_h2 row = None /\ away_score_h2 row = None /\
           corners row = None)
   /\ leagues d' = leagues d) /\
  (existsb refused_fixture fixtures = true ->
   syncFixtures pick (Some fixtures) d = d).
Proof.
  split; [| apply syncFixtures_refused].
  intros H d'.
  destruct (syncFixtures_plain pick fixtures d H) as (HL & _ & HM).
  fold d' in HL, HM. split; [apply HM |]. split; [| exact HL].
  intros m Hm.
  pose proof H as Hall. rewrite forallb_forall in Hall.
  destruct (plain_fixture_inv m (Hall m Hm))
    as (z & _ & _ & _ & _ & _ & Ez & _).
  assert (Hz : is_key (api_id m) z = true) by (apply is_key_true; exact Ez).
  destruct (last_with_found api_id z fixtures m Hm Hz) as (m' & E).
  pose proof (last_with_In _ _ _ _ E) as [Hm' _].
  destruct (plain_fixture_inv m' (Hall m' Hm'))
    as (_ & _ & _ & _ & _ & row & _ & _ & _ & _ & _ & Erow).
  exists z, row. split; [exact Ez |]. split.
  - rewrite HM, E. exact Erow.
  - apply (match_row_of_scores m' row Erow).
Qed.

Lemma syncFixtures_replaces_matches_witness :
  (exists row,
     lookup (matches (syncFixtures never_picks
                        (Some [fixture_501; fixture_502]) no_rows)) 502
     = Some row /\
     status row = Some "FINISHED"%string /\ corners row = None) /\
  syncFixtures never_picks (Some [fixture_501; oversized_fixture]) no_rows
  = no_rows.
Proof.
  destruct (syncFixtures_replaces_matches never_picks
              [fixture_501; fixture_502] no_rows 502) as ((H & _) & _).
  - reflexivity.
  - destruct (syncFixtures_replaces_matches never_picks
                [fixture_501; oversized_fixture] no_rows 0) as (_ & H').
    split; [| apply H'; reflexivity].
    eexists. split; [exact H |]. split; reflexivity.
Defined.

(** X13.  After a synchronisation whose fixtures have integer ids of their
    own, distinct from one fixture to the next, and arguments that can be
    bound, a listed fixture is returned by the query of the analysis
    handler exactly when its status is [TIMED] or [SCHEDULED] and its
    competition is in the leagues table: with another status, or with a
    competition the join does not find, it is left out without any error;
    otherwise the row has its id and date, the stored names of its two
    teams and the stored name of its league. *)
Theorem sync_analyses_upcoming_fixtures_of_known_leagues
    (pick : list Z -> option Z) (cs : option (list competition))
    (fs : list api_match) (d : db) (f : api_match) (id : Z) :
  forallb plain_fixture fs = true ->
  NoDup (map (fun m => explicit_key (api_id m)) fs) ->
  In f fs ->
  explicit_key (api_id f) = Some id ->
  let d' := sync pick cs (Some fs) d in
  let league :=
    match api_competition_id f with
    | Some competition => join (leagues d') competition
    | None => None
    end in
  (api_upcoming f = false -> analysis_row d' id = None) /\
  (league = None -> analysis_row d' id = None) /\
  (api_upcoming f = true ->
   forall l, league = Some l ->
   exists home away h a date,
     explicit_key (api_team_id (homeTeam f)) = Some home /\
     explicit_key (api_team_id (awayTeam f)) = Some away /\
     lookup (teams d') home = Some h /\
     lookup (teams d') away = Some a /\
     utcDate f = Some date /\
     analysis_row d' id
     = Some {| selected_id := id;
               selected_home_name := team_name h;
               selected_away_name := team_name a;
               selected_league_name := name l;
               selected_utc_date := date |}).
Proof.
  intros H Hnd Hin Hid d' league.
  destruct (syncFixtures_plain pick fs (syncLeagues pick cs d) H)
    as (_ & HT & HM).
  fold (sync pick cs (Some fs) d) in HT, HM. fold d' in HT, HM.
  pose proof H as Hall. rewrite forallb_forall in Hall.
  destruct (plain_fixture_inv f (Hall f Hin))
    as (z & zh & za & rh & ra & row & Ez & Ezh & Eza & Erh & Era & Erow).
  assert (z = id) by congruence. subst z.
  assert (Hrow : lookup (matches d') id = Some row).
  { rewrite HM, (last_with_NoDup api_id fs f id Hnd Hin Hid). exact Erow. }
  assert (Hteam : forall t j,
            In (t, api_competition_id f) (mentions fs) ->
            explicit_key (api_team_id t) = Some j ->
            exists r, lookup (teams d') j = Some r).
  { intros t j Ht Hj.
    destruct (lookup (teams d') j) as [r |] eqn:E; [exists r; reflexivity |].
    exfalso. rewrite HT in E.
    destruct (lookup (teams (syncLeagues pick cs d)) j); [discriminate |].
    apply (mentioned_row_found fs t _ j H Ht Hj). exact E. }
  assert (Hh : In (homeTeam f, api_competition_id f) (mentions fs)).
  { unfold mentions. apply in_flat_map. exists f. split; [exact Hin |].
    left. reflexivity. }
  assert (Ha : In (awayTeam f, api_competition_id f) (mentions fs)).
  { unfold mentions. apply in_flat_map. exists f. split; [exact Hin |].
    right. left. reflexivity. }
  destruct (Hteam _ _ Hh Ezh) as (h & Eh).
  destruct (Hteam _ _ Ha Eza) as (a & Ea).
  (* the stored row of the fixture *)
  unfold match_row_of in Erow.
  destruct (utcDate f) as [date |] eqn:Ed; [| discriminate].
  destruct (api_status f) as [st |] eqn:Es; [| discriminate].
  destruct (api_competition_id f) as [competition |] eqn:Ec;
    [| discriminate].
  destruct (api_team_id (homeTeam f)) as [vh |] eqn:Evh; [| discriminate].
  destruct (api_team_id (awayTeam f)) as [va |] eqn:Eva; [| discriminate].
  injection Erow as <-.
  assert (Jh : join (teams d') vh = Some h).
  { unfold explicit_key in Ezh. destruct vh as [| z |]; try discriminate.
    destruct (in_int64 z) eqn:Ei; [| discriminate]. injection Ezh as ->.
    unfold join. rewrite Ei. exact Eh. }
  assert (Ja : join (teams d') va = Some a).
  { unfold explicit_key in Eza. destruct va as [| z |]; try discriminate.
    destruct (in_int64 z) eqn:Ei; [| discriminate]. injection Eza as ->.
    unfold join. rewrite Ei. exact Ea. }
  assert (Hup : upcoming
                  {| stored_utc_date := date; status := st;
                     league_id := competition; home_team_id := vh;
                     away_team_id := va; home_score_full := None;
                     away_score_full := None; home_score_h1 := None;
                     away_score_h1 := None; home_score_h2 := None;
                     away_score_h2 := None; corners := None |}
                = api_upcoming f).
  { unfold upcoming, api_upcoming. rewrite Es. reflexivity. }
  unfold analysis_row. rewrite Hrow, Hup.
  cbn [home_team_id away_team_id league_id stored_utc_date].
  rewrite Jh, Ja. subst league. cbv zeta.
  split; [| split].
  - intro E. rewrite E. reflexivity.
  - intro E. rewrite E. destruct (api_upcoming f); reflexivity.
  - intros E l El. rewrite E, El.
    exists zh, za, h, a, date. repeat split; assumption.
Qed.

Lemma sync_analyses_upcoming_fixtures_of_known_leagues_witness :
  let d' :=
    sync never_picks (Some [premier_league; primera_division])
      (Some [fixture_501; fixture_502]) no_rows in
  analysis_row d' 502 = None /\
  analysis_row d' 501
  = Some {| selected_id := 501;
            selected_home_name := Some "Arsenal FC"%string;
            selected_away_name := Some "Chelsea FC"%string;
            selected_league_name := Some "Premier League"%string;
            selected_utc_date := Some "2026-01-10T15:00:00Z"%string |}.
Proof.
  intro d'. split.
  - destruct (sync_analyses_upcoming_fixtures_of_known_leagues never_picks
                (Some [premier_league; primera_division])
                [fixture_501; fixture_502] no_rows fixture_502 502)
      as (H & _).
    + reflexivity.
    + repeat constructor; cbn; intuition discriminate.
    + right. left. reflexivity.
    + reflexivity.
    + apply H. reflexivity.
  - reflexivity.
Defined.

(** X14.  [POST /api/sync] is idempotent when no statement it runs has a
    [NULL] key: when the competitions before the first refused one have
    integer ids of their own, and the fixtures all have integer ids of
    their own or one of their statements throws, handling the same two
    responses a second time leaves every row of the three tables as the
    first time left it. *)
Theorem sync_idempotent
    (pick : list Z -> option Z) (cs : option (list competition))
    (fs : option (list api_match)) (d : db) :
  forallb plain_competition (before_refused (elements cs)) = true ->
  forallb plain_fixture (elements fs)
  || existsb refused_fixture (elements fs) = true ->
  same_rows (sync pick cs fs (sync pick cs fs d)) (sync pick cs fs d).
Proof.
  intros Hc Hf. unfold same_rows, sync.
  set (d1 := syncLeagues pick cs d).
  set (d2 := syncFixtures pick fs d1).
  set (d3 := syncLeagues pick cs d2).
  assert (HL : forall k, lookup (leagues d3) k = lookup (leagues d1) k).
  { intro k. unfold d3, d1. rewrite !syncLeagues_lookup by exact Hc.
    unfold d2. rewrite syncFixtures_leagues. fold d1.
    unfold d1 at 1. rewrite syncLeagues_lookup by exact Hc.
    destruct (last_with competition_id k _); reflexivity. }
  destruct (syncLeagues_tables pick cs d2) as [HT3 HM3]. fold d3 in HT3, HM3.
  split; [| split]; intro k.
  - rewrite !syncFixtures_leagues. unfold d2. rewrite syncFixtures_leagues.
    apply HL.
  - destruct fs as [l |]; [| cbn [syncFixtures]; rewrite HT3; reflexivity].
    cbn [elements] in Hf. apply orb_true_iff in Hf.
    destruct Hf as [Hf | Hf].
    + destruct (syncFixtures_plain pick l d3 Hf) as (_ & H3 & _).
      destruct (syncFixtures_plain pick l d1 Hf) as (_ & H1 & _).
      fold d2 in H1. rewrite H3, HT3, H1.
      destruct (lookup (teams d1) k); [reflexivity |].
      destruct (mentioned_row l k); reflexivity.
    + rewrite (syncFixtures_refused pick l d3 Hf), HT3. reflexivity.
  - destruct fs as [l |]; [| cbn [syncFixtures]; rewrite HM3; reflexivity].
    cbn [elements] in Hf. apply orb_true_iff in Hf.
    destruct Hf as [Hf | Hf].
    + destruct (syncFixtures_plain pick l d3 Hf) as (_ & _ & H3).
      destruct (syncFixtures_plain pick l d1 Hf) as (_ & _ & H1).
      fold d2 in H1. rewrite H3, HM3, H1.
      destruct (last_with api_id k l); reflexivity.
    + rewrite (syncFixtures_refused pick l d3 Hf), HM3. reflexivity.
Qed.

Lemma sync_idempotent_witness :
  let d' :=
    sync never_picks (Some [premier_league; primera_division])
      (Some [fixture_501; fixture_502]) no_rows in
  same_rows
    (sync never_picks (Some [premier_league; primera_division])
       (Some [fixture_501; fixture_502]) d') d'.
Proof.
  apply (sync_idempotent never_picks
           (Some [premier_league; primera_division])
           (Some [fixture_501; fixture_502]) no_rows); reflexivity.
Defined.

(** ** Rows that a synchronisation leaves alone *)

Lemma lookup_In {R : Type} (t : table R) (j : Z) (r : R) :
  lookup t j = Some r -> In j (keys t).
Proof.
  unfold lookup, keys. intro H.
  destruct (find (fun r => fst r =? j) t) as [x |] eqn:E; [| discriminate].
  apply find_some in E. destruct E as [Hx Hj]. apply Z.eqb_eq in Hj.
  rewrite <- Hj. apply (in_map fst). exact Hx.
Qed.

Lemma le_largest (k : Z) (ks : list Z) (j : Z) :
  In j (k :: ks) -> j <= fold_right Z.max k ks.
Proof.
  induction ks as [| k' ks IH]; cbn [fold_right]; intro H.
  - destruct H as [-> | []]. lia.
  - destruct H as [-> | [-> | H]].
    + assert (In j (j :: ks)) by (left; reflexivity). specialize (IH H). lia.
    + lia.
    + assert (In j (k :: ks)) by (right; exact H). specialize (IH H0). lia.
Qed.

(** The key SQLite assigns is not in use. *)
Lemma new_rowid_unused {R : Type} (pick : list Z -> option Z) (t : table R)
    (k : Z) :
  new_rowid pick t = Some k -> lookup t k = None.
Proof.
  unfold new_rowid. intro H.
  destruct (lookup t k) as [r |] eqn:E; [| reflexivity]. exfalso.
  apply lookup_In in E.
  destruct (keys t) as [| k0 ks] eqn:Ek; [destruct E |].
  cbv zeta in H.
  destruct (fold_right Z.max k0 ks <? 2 ^ 63 - 1).
  - injection H as <-. apply le_largest in E. lia.
  - destruct (pick (k0 :: ks)) as [r' |]; [| discriminate].
    destruct (in_int64 r' && negb (existsb (Z.eqb r') (k0 :: ks))) eqn:Ec;
      [| discriminate].
    injection H as ->. apply andb_true_iff in Ec. destruct Ec as [_ Ec].
    apply negb_true_iff in Ec.
    assert (Hex : existsb (Z.eqb k) (k0 :: ks) = true).
    { apply existsb_exists. exists k. split; [exact E | apply Z.eqb_refl]. }
    congruence.
Qed.

(** A statement that does not throw keeps every row under another key, and
    leaves a row under every key that had one. *)
Lemma insert_keeps {R : Type} (pick : list Z -> option Z)
    (on_conflict : conflict) (key : argument integer_value) (row : R)
    (t t' : table R) (j : Z) (r : R) :
  insert pick on_conflict key row t = Some t' ->
  lookup t j = Some r ->
  (exists r', lookup t' j = Some r') /\
  (on_conflict = Ignore \/ is_key key j = false -> lookup t' j = Some r).
Proof.
  unfold insert. intros H Hj.
  destruct key as [[| z |] |]; try discriminate.
  - destruct (new_rowid pick t) as [k |] eqn:Ek; [| discriminate].
    injection H as <-. apply new_rowid_unused in Ek.
    rewrite lookup_cons.
    destruct (j =? k) eqn:E.
    + apply Z.eqb_eq in E. subst j. congruence.
    + split; [exists r; exact Hj | intros _; exact Hj].
  - unfold is_key, explicit_key.
    destruct (in_int64 z); [| discriminate].
    assert (Hnew : lookup ((z, row) :: delete z t) j
                   = if j =? z then Some row else lookup t j).
    { rewrite lookup_cons, lookup_delete. destruct (j =? z); reflexivity. }
    rewrite (Z.eqb_sym z j).
    destruct on_conflict.
    + injection H as <-. rewrite Hnew.
      destruct (j =? z); [| split; [exists r; exact Hj | intros _; exact Hj]].
      split; [exists row; reflexivity |].
      intros [H | H]; discriminate.
    + destruct (lookup t z) as [old |] eqn:El.
      * injection H as <-. split; [exists r; exact Hj | intros _; exact Hj].
      * injection H as <-. rewrite Hnew.
        destruct (j =? z) eqn:E.
        -- apply Z.eqb_eq in E. subst j. congruence.
        -- split; [exists r; exact Hj | intros _; exact Hj].
Qed.

Lemma store_leagues_keeps pick cs : forall d j l,
  lookup (leagues d) j = Some l ->
  exists l', lookup (leagues (store_leagues pick cs d)) j = Some l'.
Proof.
  induction cs as [| c cs IH]; intros d j l H; cbn [store_leagues].
  - exists l. exact H.
  - destruct (store_league pick d c) as [d' |] eqn:E; [| exists l; exact H].
    unfold store_league in E.
    destruct (league_row c) as [row |]; [| discriminate].
    destruct (insert pick Replace _ row _) as [t |] eqn:Ei; [| discriminate].
    injection E as <-.
    destruct (insert_keeps _ _ _ _ _ _ j l Ei H) as ((l' & Hl') & _).
    apply (IH _ j l'). exact Hl'.
Qed.

Lemma store_fixture_keeps pick d m d' :
  store_fixture pick d m = Some d' ->
  (forall j r, lookup (teams d) j = Some r -> lookup (teams d') j = Some r) /\
  (forall j r, lookup (matches d) j = Some r ->
     is_key (api_id m) j = false -> lookup (matches d') j = Some r).
Proof.
  unfold store_fixture, store_team, store_match.
  destruct (team_row (homeTeam m, api_competition_id m)) as [rh |];
    [| discriminate].
  destruct (insert pick Ignore _ rh _) as [t1 |] eqn:E1; [| discriminate].
  cbn [teams leagues matches].
  destruct (team_row (awayTeam m, api_competition_id m)) as [ra |];
    [| discriminate].
  destruct (insert pick Ignore _ ra _) as [t2 |] eqn:E2; [| discriminate].
  cbn [teams leagues matches].
  destruct (match_row_of m) as [row |]; [| discriminate].
  destruct (insert pick Replace _ row _) as [t3 |] eqn:E3; [| discriminate].
  intro H. injection H as <-. cbn [teams matches]. split.
  - intros j r Hj.
    destruct (insert_keeps _ _ _ _ _ _ j r E1 Hj) as (_ & H1).
    specialize (H1 (or_introl eq_refl)).
    destruct (insert_keeps _ _ _ _ _ _ j r E2 H1) as (_ & H2).
    apply H2. left. reflexivity.
  - intros j r Hj Hk.
    destruct (insert_keeps _ _ _ _ _ _ j r E3 Hj) as (_ & H3).
    apply H3. right. exact Hk.
Qed.

Lemma syncFixtures_keeps pick response d :
  (forall j r, lookup (teams d) j = Some r ->
     lookup (teams (syncFixtures pick response d)) j = Some r) /\
  (forall j r, lookup (matches d) j = Some r ->
     (forall m, In m (elements response) -> is_key (api_id m) j = false) ->
     lookup (matches (syncFixtures pick response d)) j = Some r).
Proof.
  destruct response as [fs |]; [| split; intros; assumption].
  cbn [syncFixtures elements].
  destruct (store_fixtures pick fs d) as [d' |] eqn:E;
    [| split; intros; assumption].
  revert d d' E. induction fs as [| m fs IH]; intros d d' E;
    cbn [store_fixtures] in E.
  - injection E as <-. split; intros; assumption.
  - destruct (store_fixture pick d m) as [d1 |] eqn:E1; [| discriminate].
    destruct (store_fixture_keeps _ _ _ _ E1) as [HT1 HM1].
    destruct (IH d1 d' E) as [HT HM]. split.
    + intros j r Hj. apply HT, HT1, Hj.
    + intros j r Hj Hk. apply HM.
      * apply HM1; [exact Hj |]. apply Hk. left. reflexivity.
      * intros m' Hm'. apply Hk. right. exact Hm'.
Qed.

Lemma join_keeps {R : Type} (t t' : table R) (v : integer_value) (r : R) :
  (forall j x, lookup t j = Some x -> lookup t' j = Some x) ->
  join t v = Some r -> join t' v = Some r.
Proof.
  intros H. unfold join. destruct v as [| z |]; try discriminate.
  destruct (in_int64 z); [apply H | discriminate].
Qed.

(** X20.  A synchronisation never removes a match from the analysis unless
    the response lists it, whatever the two responses hold ([null] ids, ids
    that are refused, statements that throw): a match that the query of the
    analysis handler returns, and whose id no fixture of the response has,
    is still returned afterwards, with the same id, team names and date. *)
Theorem sync_never_drops_unlisted_matches
    (pick : list Z -> option Z) (cs : option (list competition))
    (fs : option (list api_match)) (d : db) (match_id : Z)
    (row : selected_row) :
  analysis_row d match_id = Some row ->
  (forall m, In m (elements fs) -> is_key (api_id m) match_id = false) ->
  exists row',
    analysis_row (sync pick cs fs d) match_id = Some row' /\
    selected_id row' = selected_id row /\
    selected_home_name row' = selected_home_name row /\
    selected_away_name row' = selected_away_name row /\
    selected_utc_date row' = selected_utc_date row.
Proof.
  intros Hrow Habsent. unfold analysis_row in *. unfold sync.
  set (d1 := syncLeagues pick cs d).
  destruct (syncLeagues_tables pick cs d) as [HT1 HM1]. fold d1 in HT1, HM1.
  destruct (syncFixtures_keeps pick fs d1) as [HT HM].
  rewrite HT1 in HT. rewrite HM1 in HM.
  destruct (lookup (matches d) match_id) as [m |] eqn:Em; [| discriminate].
  rewrite (HM match_id m Em Habsent).
  destruct (upcoming m); [| discriminate].
  destruct (join (teams d) (home_team_id m)) as [h |] eqn:Eh;
    [| discriminate].
  destruct (join (teams d) (away_team_id m)) as [a |] eqn:Ea;
    [| discriminate].
  destruct (join (leagues d) (league_id m)) as [l |] eqn:El;
    [| discriminate].
  rewrite (join_keeps _ _ _ _ HT Eh), (join_keeps _ _ _ _ HT Ea).
  rewrite syncFixtures_leagues.
  assert (Hl : exists l', join (leagues d1) (league_id m) = Some l').
  { unfold join in *. destruct (league_id m) as [| z |]; try discriminate.
    destruct (in_int64 z); [| discriminate].
    unfold d1. destruct cs as [l0 |]; [| exists l; exact El].
    apply (store_leagues_keeps pick l0 d z l El). }
  destruct Hl as (l' & Hl'). rewrite Hl'.
  injection Hrow as <-. eexists. split; [reflexivity |]. repeat split.
Qed.

Lemma sync_never_drops_unlisted_matches_witness :
  exists row',
    analysis_row
      (sync never_picks (Some [oversized_competition])
         (Some [fixture_503; fixture_502])
         (sync never_picks (Some [premier_league]) (Some [fixture_501])
            no_rows))
      501 = Some row' /\
    selected_id row' = 501 /\
    selected_home_name row' = Some "Arsenal FC"%string /\
    selected_away_name row' = Some "Chelsea FC"%string /\
    selected_utc_date row' = Some "2026-01-10T15:00:00Z"%string.
Proof.
  apply (sync_never_drops_unlisted_matches never_picks
           (Some [oversized_competition]) (Some [fixture_503; fixture_502])
           (sync never_picks (Some [premier_league]) (Some [fixture_501])
              no_rows)
           501
           {| selected_id := 501;
              selected_home_name := Some "Arsenal FC"%string;
              selected_away_name := Some "Chelsea FC"%string;
              selected_league_name := Some "Premier League"%string;
              selected_utc_date := Some "2026-01-10T15:00:00Z"%string |}).
  - reflexivity.
  - intros m [<- | [<- | []]]; reflexivity.
Defined.

(** The paths on which a [null] id or an id that is no 64-bit integer takes
    the code: a fixture with an undetermined side adds a team row at every
    synchronisation and is not returned by the query; a competition whose id
    is refused ends the loop of [syncLeagues]. *)
Example null_team_id_adds_a_row_at_every_sync :
  let d1 :=
    sync never_picks (Some [premier_league]) (Some [fixture_503]) no_rows in
  let d2 :=
    sync never_picks (Some [premier_league]) (Some [fixture_503]) d1 in
  keys (teams d1) = [58; 57] /\
  keys (teams d2) = [59; 58; 57] /\
  keys (matches d2) = [503] /\
  analysis_row d2 503 = None.
Proof. repeat split; reflexivity. Qed.

Example refused_competition_ends_the_loop :
  keys (leagues (syncLeagues never_picks
                   (Some [premier_league; oversized_competition;
                          primera_division]) no_rows))
  = [2021].
Proof. reflexivity. Qed.

End SqliteFacts.

(** * The list the page shows *)

Module AppFacts.

Import App.

Lemma insert_perm {A : Type} (cmp : A -> A -> JS.number) (a : A)
    (l : list A) :
  Permutation (insert cmp a l) (a :: l).
Proof.
  induction l as [| b l IH]; cbn [insert]; [reflexivity |].
  destruct (goes_after cmp a b); [| reflexivity].
  rewrite IH. apply perm_swap.
Qed.

Lemma sort_perm {A : Type} (cmp : A -> A -> JS.number) (l : list A) :
  Permutation (sort cmp l) l.
Proof.
  induction l as [| a l IH]; cbn; [reflexivity |].
  fold (sort cmp l). rewrite insert_perm. constructor. exact IH.
Qed.

Lemma filter_filter {A : Type} (f g : A -> bool) (l : list A) :
  filter g (filter f l) = filter (fun x => f x && g x) l.
Proof.
  induction l as [| a l IH]; cbn [filter]; [reflexivity |].
  destruct (f a); cbn [filter andb]; [| exact IH].
  destruct (g a); rewrite IH; reflexivity.
Qed.

(** A comparator that orders by decreasing [key] on the elements that
    satisfy [P]. *)
Section Order.

Variable A : Type.
Variable cmp : A -> A -> JS.number.
Variable key : A -> Q.
Variable P : A -> Prop.
Hypothesis cmp_key :
  forall a b, P a -> P b -> goes_after cmp a b = JS.Qltb (key a) (key b).

Lemma insert_sorted (a : A) (l : list A) :
  P a -> Forall P l ->
  StronglySorted (fun x y => key y <= key x) l ->
  StronglySorted (fun x y => key y <= key x) (insert cmp a l).
Proof.
  intros Pa. induction l as [| b l IH]; intros Pl Hs; cbn [insert].
  - repeat constructor.
  - inversion Pl as [| ? ? Pb Pl']; subst.
    inversion Hs as [| ? ? Hs' Hb]; subst.
    rewrite (cmp_key a b Pa Pb).
    destruct (JS.Qltb (key a) (key b)) eqn:E.
    + apply Qltb_true in E. constructor; [apply IH; assumption |].
      apply Forall_forall. intros x Hx.
      apply (Permutation_in _ (insert_perm cmp a l)) in Hx.
      destruct Hx as [<- | Hx]; [lra |].
      rewrite Forall_forall in Hb. apply Hb. exact Hx.
    + apply Qltb_false in E. constructor; [exact Hs |].
      constructor; [exact E |].
      apply Forall_forall. intros x Hx.
      rewrite Forall_forall in Hb. specialize (Hb x Hx). lra.
Qed.

Lemma Forall_insert (a : A) (l : list A) :
  P a -> Forall P l -> Forall P (insert cmp a l).
Proof.
  intros Pa Pl. apply Forall_forall. intros x Hx.
  apply (Permutation_in _ (insert_perm cmp a l)) in Hx.
  destruct Hx as [<- | Hx]; [exact Pa |].
  rewrite Forall_forall in Pl. apply Pl. exact Hx.
Qed.

Lemma sort_sorted (l : list A) :
  Forall P l ->
  Forall P (sort cmp l) /\
  StronglySorted (fun x y => key y <= key x) (sort cmp l).
Proof.
  induction l as [| a l IH]; intro Pl; cbn.
  - split; constructor.
  - fold (sort cmp l). inversion Pl as [| ? ? Pa Pl']; subst.
    destruct (IH Pl') as [HP Hs]. split.
    + apply Forall_insert; assumption.
    + apply insert_sorted; assumption.
Qed.

Lemma insert_stable (v : Q) (a : A) (l : list A) :
  P a -> Forall P l ->
  filter (fun x => Qeq_bool (key x) v) (insert cmp a l)
  = filter (fun x => Qeq_bool (key x) v) (a :: l).
Proof.
  intros Pa. induction l as [| b l IH]; intro Pl; cbn [insert];
    [reflexivity |].
  inversion Pl as [| ? ? Pb Pl']; subst.
  rewrite (cmp_key a b Pa Pb).
  destruct (JS.Qltb (key a) (key b)) eqn:E; [| reflexivity].
  apply Qltb_true in E. cbn [filter]. rewrite (IH Pl'). cbn [filter].
  destruct (Qeq_bool (key a) v) eqn:Ea;
    destruct (Qeq_bool (key b) v) eqn:Eb; try reflexivity.
  apply Qeq_bool_eq in Ea. apply Qeq_bool_eq in Eb. lra.
Qed.

Lemma sort_stable (v : Q) (l : list A) :
  Forall P l ->
  filter (fun x => Qeq_bool (key x) v) (sort cmp l)
  = filter (fun x => Qeq_bool (key x) v) l.
Proof.
  induction l as [| a l IH]; intro Pl; cbn; [reflexivity |].
  fold (sort cmp l). inversion Pl as [| ? ? Pa Pl']; subst.
  rewrite insert_stable; [| exact Pa | apply sort_sorted; exact Pl'].
  cbn [filter]. rewrite (IH Pl'). reflexivity.
Qed.

End Order.

(** On records whose compared quantity is finite, the comparator of the
    page places [a] after [b] exactly when [a]'s quantity is the smaller. *)
Lemma comparator_orders_by_value getTime (sortBy : sort_key)
    (a b : analysis) :
  JS.is_finite (sort_value getTime sortBy a) = true ->
  JS.is_finite (sort_value getTime sortBy b) = true ->
  goes_after (comparator getTime sortBy) a b
  = JS.Qltb (value (sort_value getTime sortBy a))
      (value (sort_value getTime sortBy b)).
Proof.
  unfold goes_after, comparator, sort_value. intros Ha Hb.
  destruct sortBy.
  - destruct (ev a) as [x | | |]; try discriminate.
    destruct (ev b) as [y | | |]; try discriminate.
    cbn [JS.sub JS.gt value].
    destruct (JS.Qltb x y) eqn:E.
    + apply Qltb_true in E. apply Qltb_true. lra.
    + apply Qltb_false in E. apply Qltb_false. lra.
  - destruct (edge a) as [x | | |]; try discriminate.
    destruct (edge b) as [y | | |]; try discriminate.
    cbn [JS.sub JS.gt value].
    destruct (JS.Qltb x y) eqn:E.
    + apply Qltb_true in E. apply Qltb_true. lra.
    + apply Qltb_false in E. apply Qltb_false. lra.
  - destruct (getTime (date a)) as [x | | |]; try discriminate.
    destruct (getTime (date b)) as [y | | |]; try discriminate.
    cbn [JS.sub JS.gt JS.neg value].
    destruct (JS.Qltb (- x) (- y)) eqn:E.
    + apply Qltb_true in E. apply Qltb_true. lra.
    + apply Qltb_false in E. apply Qltb_false. lra.
Qed.

(** X15.  The list the page shows holds exactly the received matches that
    pass both filters, each as often as it was received: the league is the
    selected one unless ['All'] is selected, and the edge is at least
    [minEdge]; whatever the order chosen, nothing is added or lost by the
    sort.  With [minEdge] not a number, the list is empty. *)
Theorem filteredMatches_are_the_matches_passing_the_filters
    (getTime : string -> JS.number) (matches : list analysis)
    (filterLeague : string) (minEdge : JS.number) (sortBy : sort_key) :
  Permutation
    (filteredMatches getTime matches filterLeague minEdge sortBy)
    (filter (fun m => league_filter filterLeague m && edge_filter minEdge m)
       matches) /\
  (forall m,
     In m (filteredMatches getTime matches filterLeague minEdge sortBy) <->
     In m matches /\
     (filterLeague = "All"%string \/ league m = filterLeague) /\
     ge (edge m) minEdge = true) /\
  (minEdge = JS.NaN ->
   filteredMatches getTime matches filterLeague minEdge sortBy = []).
Proof.
  assert (HP : Permutation
                 (filteredMatches getTime matches filterLeague minEdge sortBy)
                 (filter
                    (fun m =>
                       league_filter filterLeague m && edge_filter minEdge m)
                    matches)).
  { unfold filteredMatches. rewrite sort_perm, filter_filter. reflexivity. }
  split; [exact HP |]. split.
  - intro m. split.
    + intro Hin. apply (Permutation_in _ HP) in Hin.
      apply filter_In in Hin. destruct Hin as [Hm Hf].
      apply andb_true_iff in Hf. destruct Hf as [Hl He].
      unfold league_filter in Hl. apply orb_true_iff in Hl.
      rewrite !String.eqb_eq in Hl. tauto.
    + intros (Hm & Hl & He).
      apply (Permutation_in _ (Permutation_sym HP)).
      apply filter_In. split; [exact Hm |].
      apply andb_true_iff. split; [| exact He].
      unfold league_filter. apply orb_true_iff.
      rewrite !String.eqb_eq. tauto.
  - intros ->. unfold filteredMatches.
    assert (E : filter (edge_filter JS.NaN)
                  (filter (league_filter filterLeague) matches) = []).
    { induction (filter (league_filter filterLeague) matches)
        as [| a l IH]; [reflexivity |].
      cbn [filter]. unfold edge_filter at 1, ge.
      destruct (edge a); exact IH. }
    rewrite E. reflexivity.
Qed.

(** X16.  When the quantity of the chosen order (expected value, edge or
    date) is a finite number for every received match, the list the page
    shows is in decreasing order of expected value or of edge, or in
    increasing order of date, and matches that are equal in it keep the
    order in which they were received. *)
Theorem filteredMatches_sorted_and_stable
    (getTime : string -> JS.number) (matches : list analysis)
    (filterLeague : string) (minEdge : JS.number) (sortBy : sort_key) :
  Forall (fun m => JS.is_finite (sort_value getTime sortBy m) = true)
    matches ->
  let shown := filteredMatches getTime matches filterLeague minEdge sortBy in
  StronglySorted
    (fun a b =>
       value (sort_value getTime sortBy b)
       <= value (sort_value getTime sortBy a))
    shown /\
  (forall v,
     filter (fun m => Qeq_bool (value (sort_value getTime sortBy m)) v) shown
     = filter (fun m => Qeq_bool (value (sort_value getTime sortBy m)) v)
         (filter (edge_filter minEdge)
            (filter (league_filter filterLeague) matches))).
Proof.
  intros Hfin shown. subst shown. unfold filteredMatches.
  set (l := filter (edge_filter minEdge)
              (filter (league_filter filterLeague) matches)).
  assert (Hl : Forall
                 (fun m => JS.is_finite (sort_value getTime sortBy m) = true)
                 l).
  { apply Forall_forall. intros m Hm. unfold l in Hm.
    apply filter_In in Hm. destruct Hm as [Hm _].
    apply filter_In in Hm. destruct Hm as [Hm _].
    rewrite Forall_forall in Hfin. apply Hfin. exact Hm. }
  split.
  - apply (sort_sorted analysis (comparator getTime sortBy)
             (fun m => value (sort_value getTime sortBy m))
             (fun m => JS.is_finite (sort_value getTime sortBy m) = true)
             (comparator_orders_by_value getTime sortBy) l Hl).
  - intro v.
    apply (sort_stable analysis (comparator getTime sortBy)
             (fun m => value (sort_value getTime sortBy m))
             (fun m => JS.is_finite (sort_value getTime sortBy m) = true)
             (comparator_orders_by_value getTime sortBy) v l Hl).
Qed.

Lemma filteredMatches_sorted_and_stable_witness :
  let l := map with_ev [0.3; 0.05; 0.4; 0.05] in
  map ev (filteredMatches (fun _ => JS.Fin 0) l "All" (JS.Fin 0) SortEv)
  = [JS.Fin 0.4; JS.Fin 0.3; JS.Fin 0.05; JS.Fin 0.05]
  /\ StronglySorted
       (fun a b =>
          value (sort_value (fun _ => JS.Fin 0) SortEv b)
          <= value (sort_value (fun _ => JS.Fin 0) SortEv a))
       (filteredMatches (fun _ => JS.Fin 0) l "All" (JS.Fin 0) SortEv).
Proof.
  intro l. split; [reflexivity |].
  apply (filteredMatches_sorted_and_stable (fun _ => JS.Fin 0) l "All"
           (JS.Fin 0) SortEv).
  repeat constructor.
Defined.

Lemma gt_ge (x y : JS.number) : JS.gt x y = true -> ge x y = true.
Proof.
  destruct x as [a | | |], y as [b | | |]; cbn; try discriminate;
    try reflexivity.
  intro H. apply Qltb_true in H. apply Qle_bool_iff. lra.
Qed.

Lemma filter_all {A : Type} (f : A -> bool) (l : list A) :
  (forall x, In x l -> f x = true) -> filter f l = l.
Proof.
  induction l as [| a l IH]; intro H; cbn [filter]; [reflexivity |].
  rewrite (H a (or_introl eq_refl)), IH; [reflexivity |].
  intros x Hx. apply H. right. exact Hx.
Qed.

(** X17.  In its initial state (league ['All'], minimum edge 0) the page
    shows every match the handler sent, whatever the order chosen: each sent
    record has a positive edge, so the edge filter hides none. *)
Theorem default_view_shows_every_match_sent
    (exp : Q -> Q) (fuel : nat) (rows : list match_row) (u : stream)
    (s s' : cursor) (sent : list analysis)
    (getTime : string -> JS.number) (sortBy : sort_key) :
  analysis_handler exp fuel rows u s = Some (sent, s') ->
  Permutation (filteredMatches getTime sent "All" (JS.Fin 0) sortBy) sent /\
  List.length (filteredMatches getTime sent "All" (JS.Fin 0) sortBy)
  = List.length sent.
Proof.
  intro H.
  assert (HP : Permutation
                 (filteredMatches getTime sent "All" (JS.Fin 0) sortBy) sent).
  { unfold filteredMatches. rewrite sort_perm.
    rewrite (filter_all (league_filter "All")) by reflexivity.
    rewrite filter_all; [reflexivity |].
    intros a Ha. unfold edge_filter. apply gt_ge.
    destruct (sent_record_is_positive exp fuel rows u s s' sent a H Ha)
      as (m & p & b & _ & -> & Hp & _).
    destruct (build_analysis_positive m p b Hp) as (_ & _ & _ & _ & He & _).
    cbv zeta in He. rewrite He. cbn [JS.gt]. apply Qltb_true.
    assert (E1 : p - 1 / (1 / (p * 0.8) * 1.1) == p * (3 # 11))
      by (field; lra).
    rewrite E1. lra. }
  split; [exact HP | apply Permutation_length; exact HP].
Qed.

Lemma default_view_shows_every_match_sent_witness :
  exists sent,
    Permutation
      (filteredMatches (fun _ => JS.Fin 0) sent "All" (JS.Fin 0) SortEdge)
      sent /\
    List.length
      (filteredMatches (fun _ => JS.Fin 0) sent "All" (JS.Fin 0) SortEdge)
    = List.length sent.
Proof.
  destruct analysis_handler_on_halves as (p & s' & E & _).
  exists [build_analysis sample_row p true].
  apply (default_view_shows_every_match_sent exp_approx 500 [sample_row]
           halves 0%nat s' _ (fun _ => JS.Fin 0) SortEdge E).
Defined.

Lemma existsb_eqb_In (x : string) (seen : list string) :
  existsb (String.eqb x) seen = true <-> In x seen.
Proof.
  rewrite existsb_exists. split.
  - intros (y & Hy & E). apply String.eqb_eq in E. subst. exact Hy.
  - intro H. exists x. split; [exact H | apply String.eqb_refl].
Qed.

Lemma distinct_from (xs : list string) :
  forall seen,
    NoDup seen ->
    let result :=
      fold_left
        (fun seen x =>
           if existsb (String.eqb x) seen then seen else seen ++ [x])
        xs seen in
    NoDup result /\ (forall x, In x result <-> In x seen \/ In x xs).
Proof.
  induction xs as [| a xs IH]; intros seen Hnd; cbn [fold_left].
  - split; [exact Hnd |]. intro x. cbn. tauto.
  - destruct (existsb (String.eqb a) seen) eqn:E.
    + destruct (IH seen Hnd) as [H1 H2]. split; [exact H1 |].
      intro x. rewrite H2. apply existsb_eqb_In in E. cbn [In].
      split; [tauto |]. intros [H | [<- | H]]; tauto.
    + assert (Hnot : ~ In a seen).
      { intro Hin. apply existsb_eqb_In in Hin. congruence. }
      assert (Hnd' : NoDup (seen ++ [a])).
      { apply NoDup_app; [exact Hnd | repeat constructor; intros [] |].
        intros x Hx [<- | []]. exact (Hnot Hx). }
      destruct (IH (seen ++ [a]) Hnd') as [H1 H2]. split; [exact H1 |].
      intro x. rewrite H2, in_app_iff. cbn [In]. tauto.
Qed.

(** X18.  The league selector offers ['All'] followed by the leagues of the
    received matches, each once; choosing one of these leagues always leaves
    at least one match before the edge filter; and the whole list of options
    is free of duplicates exactly when no received match has a league that
    is itself named ['All']. *)
Theorem leagues_are_the_distinct_leagues (matches : list analysis) :
  exists options,
    leagues matches = "All"%string :: options /\
    NoDup options /\
    (forall l, In l options <-> exists m, In m matches /\ league m = l) /\
    (forall l, In l options -> filter (league_filter l) matches <> []) /\
    (NoDup (leagues matches) <->
     forall m, In m matches -> league m <> "All"%string).
Proof.
  exists (distinct (map league matches)).
  destruct (distinct_from (map league matches) [] (NoDup_nil _))
    as [Hnd Hin].
  fold (distinct (map league matches)) in Hnd, Hin.
  assert (Hopt : forall l,
            In l (distinct (map league matches)) <->
            exists m, In m matches /\ league m = l).
  { intro l. rewrite Hin, in_map_iff. cbn [In]. split.
    - intros [[] | (m & E & Hm)]. exists m. tauto.
    - intros (m & Hm & E). right. exists m. tauto. }
  split; [reflexivity |]. split; [exact Hnd |]. split; [exact Hopt |].
  split.
  - intros l Hl. apply Hopt in Hl. destruct Hl as (m & Hm & E).
    intro Hnil.
    assert (Hf : In m (filter (league_filter l) matches)).
    { apply filter_In. split; [exact Hm |].
      unfold league_filter. apply orb_true_iff. right.
      apply String.eqb_eq. exact E. }
    rewrite Hnil in Hf. destruct Hf.
  - unfold leagues. split.
    + intros H m Hm E. inversion H as [| ? ? Hnot _]; subst.
      apply Hnot. apply Hopt. exists m. tauto.
    + intro H. constructor; [| exact Hnd].
      intro Hall. apply Hopt in Hall. destruct Hall as (m & Hm & E).
      exact (H m Hm E).
Qed.

(** X19.  On the card of every match the handler sent, the expected value
    is always highlighted and always carries a plus sign (it is positive
    for every match sent); the edge is highlighted exactly when the model
    probability is above 11/60, the badge is green exactly when it is above
    0.15, so a highlighted edge always comes with a green badge. *)
Theorem cards_of_sent_matches
    (exp : Q -> Q) (fuel : nat) (rows : list match_row) (u : stream)
    (s s' : cursor) (sent : list analysis) (a : analysis) :
  analysis_handler exp fuel rows u s = Some (sent, s') ->
  In a sent ->
  ev_highlighted a = true /\
  ev_plus_sign a = true /\
  (exists p,
     probModel a = JS.Fin p /\
     (edge_highlighted a = true <-> 11 # 60 < p) /\
     (badge_green a = true <-> 0.15 < p)) /\
  (edge_highlighted a = true -> badge_green a = true).
Proof.
  intros H Hin.
  destruct (sent_record_is_positive exp fuel rows u s s' sent a H Hin)
    as (m & p & b & _ & -> & Hp & _).
  destruct (build_analysis_positive m p b Hp)
    as (_ & _ & _ & _ & He & Hv).
  cbv zeta in He, Hv.
  assert (Ev : p * (1 / (p * 0.8) * 1.1) - 1 == 0.375) by (field; lra).
  assert (Ee : p - 1 / (1 / (p * 0.8) * 1.1) == p * (3 # 11))
    by (field; lra).
  assert (Hedge : edge_highlighted (build_analysis m p b) = true
                  <-> 11 # 60 < p).
  { unfold edge_highlighted. rewrite He. cbn [JS.gt].
    rewrite Qltb_true, Ee. split; intro; lra. }
  assert (Hbadge : badge_green (build_analysis m p b) = true <-> 0.15 < p).
  { unfold badge_green, build_analysis. cbn [confidence JS.gt].
    destruct (JS.Qltb 0.15 p) eqn:E.
    - apply Qltb_true in E. tauto.
    - apply Qltb_false in E. split; [discriminate | intro; lra]. }
  split; [| split; [| split]].
  - unfold ev_highlighted. rewrite Hv. cbn [JS.gt]. apply Qltb_true.
    rewrite Ev. reflexivity.
  - unfold ev_plus_sign. rewrite Hv. cbn [JS.gt]. apply Qltb_true.
    rewrite Ev. reflexivity.
  - exists p. split; [reflexivity |]. split; assumption.
  - intro E. apply Hbadge. apply Hedge in E. lra.
Qed.

Lemma cards_of_sent_matches_witness :
  exists a,
    ev_highlighted a = true /\
    ev_plus_sign a = true /\
    (exists p,
       probModel a = JS.Fin p /\
       (edge_highlighted a = true <-> 11 # 60 < p) /\
       (badge_green a = true <-> 0.15 < p)) /\
    (edge_highlighted a = true -> badge_green a = true).
Proof.
  destruct analysis_handler_on_halves as (p & s' & E & _).
  exists (build_analysis sample_row p true).
  apply (cards_of_sent_matches exp_approx 500 [sample_row] halves 0%nat s'
           _ _ E).
  left. reflexivity.
Defined.

End AppFacts.
